(** * The p2 replication controller and its transaction buffer

    A shallow embedding of [pkg/rc/replication_controller.go] together with
    the parts of [pkg/store/consul/transaction] that it drives, and the
    properties of the reconciliation loop proved over it.

    Go packages become modules, structs become records, a Go [error] is an
    [option error] ([None] is [nil]), and every method of the controller is a
    function from a [World] (the transaction buffers that contexts point to,
    and the trace of calls made to the external collaborators) to a result
    and a new [World]. The collaborators themselves (the consul client, the
    label store, the scheduler, the alerter, the status store) answer through
    an [Env] of oracles that see the trace so far.

    [WatchDesires] (three goroutines around [meetDesires]) and
    [waitForRealityAndHealth] (two polling loops without a bound) are not
    part of the embedding: no property below rests on them. *)

From Stdlib Require Import ZArith Lia.
From stdpp Require Import base option list gmap strings sorting pretty.

Local Open Scope string_scope.
Local Open Scope list_scope.

(** ** Errors *)

Inductive error :=
| ErrTooManyOperations          (* transaction.ErrTooManyOperations *)
| ErrAlreadyCommitted           (* transaction.ErrAlreadyCommitted *)
| ErrNoTransaction              (* transaction.ErrNoTransaction *)
| NoCurrentManifest             (* pods.NoCurrentManifest *)
| NoStatus                      (* an error for which statusstore.IsNoStatus holds *)
| Errorf (msg : string)         (* util.Errorf / fmt.Errorf *)
| ErrExternal (msg : string).   (* an error handed back by a collaborator *)

Definition error_eqb (a b : error) : bool :=
  match a, b with
  | ErrTooManyOperations, ErrTooManyOperations => true
  | ErrAlreadyCommitted, ErrAlreadyCommitted => true
  | ErrNoTransaction, ErrNoTransaction => true
  | NoCurrentManifest, NoCurrentManifest => true
  | NoStatus, NoStatus => true
  | Errorf m, Errorf n => String.eqb m n
  | ErrExternal m, ErrExternal n => String.eqb m n
  | _, _ => false
  end.

(** ** Names, manifests, placements *)

Module types.
Abbreviation NodeName := string (only parsing).
Abbreviation PodID := string (only parsing).

Record PodLocation := { Node : NodeName; PodID_ : PodID }.
Abbreviation PodLocations := (list PodLocation) (only parsing).

(** [PodLocations.Nodes()] *)
Definition Nodes (l : PodLocations) : list NodeName := map Node l.

(** Modelled from the spec: [types.NodeSet] is declared in [pkg/types], not
    among the sources. It is a finite set of node names; [ListNodes] is
    "sorted lexicographically by hostname", and [PopAny] removes and returns
    some element, the choice being left open ("pop order within each set is
    unspecified"): here the element at position [pick] (modulo the size) of
    the set's enumeration, for a [pick] supplied by the caller's
    environment. *)
Abbreviation NodeSet := (gset string) (only parsing).

(** Modelled from the spec: [types.NewNodeSet] (pkg/types), the set of the
    given nodes. *)
Definition NewNodeSet (nodes : list NodeName) : NodeSet := list_to_set nodes.

(** Modelled from the spec: [NodeSet.Difference] (pkg/types), set
    difference, as in "candidates = eligible \ current". *)
Definition Difference (a b : NodeSet) : NodeSet := a ∖ b.

(** Modelled from the spec: [NodeSet.ListNodes] (pkg/types), the nodes
    "sorted lexicographically by hostname"; Go compares strings byte by
    byte, as [String.le] does. *)
Definition ListNodes (s : NodeSet) : list NodeName :=
  merge_sort String.le (elements s).

(** Modelled from the spec: [NodeSet.PopAny] (pkg/types) removes and returns
    some element and tells whether there was one. *)
Definition PopAny (pick : nat) (s : NodeSet) : (NodeName * bool) * NodeSet :=
  match elements s !! (pick `mod` length (elements s))%nat with
  | Some n => ((n, true), s ∖ {[ n ]})
  | None => (("", false), s)
  end.
End types.
Export types.

Module manifest.
(** Modelled from the spec: the interface [manifest.Manifest] is declared
    in [pkg/manifest], not among the sources; it is "an opaque, hashable
    description of a pod". It is taken as the record of what its two
    methods used by the controller return. [SHA] is the hex SHA-1 of the
    serialized manifest, or an error when serialization fails (see
    [PodManifest.SHA] in manifest_parser.go, which returns the empty string
    with the error). *)
Record Manifest := { ID : PodID; SHA : string * option error }.
End manifest.
Abbreviation Manifest := manifest.Manifest (only parsing).

Module consul.
(** Modelled from the spec: [consul.PodPrefix] with [INTENT_TREE] and
    [REALITY_TREE] is declared in [pkg/store/consul]: "two KV subtrees;
    intent is written by this system, reality is written by the node
    agent". *)
Inductive PodPrefix := INTENT_TREE | REALITY_TREE.
End consul.
Export consul.

Module rcstatus.
(** Modelled from the spec: [rcstatus.Status] and [rcstatus.NodeTransfer]
    are declared in [pkg/store/consul/statusstore/rcstatus]: an "optional
    record {old_node, new_node} keyed by RC ID". *)
Record NodeTransfer := { OldNode : NodeName; NewNode : NodeName }.
Record Status := { NodeTransfer_ : option NodeTransfer }.
End rcstatus.

Module labels.
(** Modelled from the spec: [labels.MakePodLabelKey] is in [pkg/labels]; the
    pod-label key is "<node>/<pod_id>" ("ID will be something like
    <nodename>/<podid>", says [CurrentPods]). *)
Definition MakePodLabelKey (node : NodeName) (pod : PodID) : string :=
  node +:+ "/" +:+ pod.
End labels.

(** ** KV operations

  [api.KVTxnOp] values, by the port that builds them. [OpEmpty] is the zero
  value [api.KVTxnOp{}] and [OpVerb] one with only its verb set, both used
  by the tests of the transaction package. *)

Inductive KVTxnOp :=
| OpEmpty
| OpVerb (verb : string)
| OpSetLabels (key : string) (lbls : gmap string string)
| OpRemoveLabels (key : string) (keys : list string)
| OpSetPod (tree : PodPrefix) (node : NodeName) (m : Manifest)
| OpDeletePod (tree : PodPrefix) (node : NodeName) (pod : PodID)
| OpCASStatus (rcid : string) (index : Z) (status : rcstatus.Status)
| OpAuditLog (rcid : string) (before after : list NodeName).

(** ** The transaction package *)

Module transaction.

(** Modelled from the spec: transaction.go ([New], [Add], [Commit],
    [MustCommit], [CommitWithRetries], [getTxnFromContext] and the struct
    behind them) is not among the sources; only transaction_test.go is. A
    transaction is "an ordered sequence of at most 64 KV operations", and
    "after commit, further appends fail". The test reads the sequence as
    [txn.kvOps]. *)
Record tx := { kvOps : list KVTxnOp; alreadyCommitted : bool }.

(** Transactions live in a store; a context carries the address of one. *)
Abbreviation Store := (list tx) (only parsing).

(** A [context.Context] is a chain of derivations from
    [context.Background()]; each [New] adds a link that carries the address
    of a transaction and has its own cancel function. *)
Inductive Context :=
| Background
| WithTxn (parent : Context) (loc : nat).

(** Modelled from the spec: [getTxnFromContext] (transaction.go) finds the
    transaction a context carries, or fails with [NoTransaction] "if ctx
    carries none". *)
Definition getTxnFromContext (ctx : Context) (h : Store) : option tx * option error :=
  match ctx with
  | Background => (None, Some ErrNoTransaction)
  | WithTxn _ l =>
      match h !! l with
      | Some t => (Some t, None)
      | None => (None, Some ErrNoTransaction)
      end
  end.

(** Modelled from the spec: [New] (transaction.go) is the "scoped
    acquisition of a transaction attached to ctx". For a parent that carries
    a transaction, the assertions of [TestContextInheritsOperations], which
    is source, decide what the new context starts with: the derived context
    has the parent's operations, and an operation added through it must not
    "appear in ctx". So the new buffer starts as a copy. *)
Definition New (parent : Context) (h : Store) : Context * Store :=
  let ops := match getTxnFromContext parent h with
             | (Some t, _) => kvOps t
             | (None, _) => []
             end in
  (WithTxn parent (length h),
   h ++ [ {| kvOps := ops; alreadyCommitted := false |} ]).

(** The other reading of [New], in the specification's words alone: "the
    returned ctx shares its buffer (inheritance)". Kept apart from [New] to
    compare the two against the test. *)
Definition New_sharing (parent : Context) (h : Store) : Context * Store :=
  match parent with
  | WithTxn _ l =>
      match h !! l with
      | Some _ => (WithTxn parent l, h)
      | None => (WithTxn parent (length h),
                 h ++ [ {| kvOps := []; alreadyCommitted := false |} ])
      end
  | Background => (WithTxn parent (length h),
                   h ++ [ {| kvOps := []; alreadyCommitted := false |} ])
  end.

(** Modelled from the spec: [Add] (transaction.go) is to "append one KV op;
    fails with TooManyOperations once the buffer holds 64; fails with
    AlreadyCommitted if the transaction has been committed; fails with
    NoTransaction if ctx carries none". *)
Definition Add (ctx : Context) (op : KVTxnOp) (h : Store) : option error * Store :=
  match ctx with
  | Background => (Some ErrNoTransaction, h)
  | WithTxn _ l =>
      match h !! l with
      | None => (Some ErrNoTransaction, h)
      | Some t =>
          if alreadyCommitted t then (Some ErrAlreadyCommitted, h)
          else if (64 <=? length (kvOps t))%nat then (Some ErrTooManyOperations, h)
          else (None, <[ l := {| kvOps := kvOps t ++ [op];
                                 alreadyCommitted := false |} ]> h)
      end
  end.

(** Number of operations seen through a context:
    [len( *txn.kvOps)] after [getTxnFromContext]. *)
Definition opCount (ctx : Context) (h : Store) : option nat :=
  match getTxnFromContext ctx h with
  | (Some t, _) => Some (length (kvOps t))
  | (None, _) => None
  end.

(** The store's answer to one [Txn] call: [ok], [resp.Errors] (empty when
    the response is nil) and the transport error. *)
Record TxnReply := {
  reply_ok : bool;
  reply_errors : list string;
  reply_err : option error }.

(** The [Txner] interface, as the tests implement it. An implementation
    carries its own state [S] (the consul client's view of the world, or a
    test double's record of the calls it received). *)
Record Txner (S : Type) := { Txn : list KVTxnOp -> S -> TxnReply * S }.
Arguments Txn {S} _ _ _.

(** Modelled from the spec: [TxnErrorsToString] (transaction.go) renders
    [response.Errors], the op-level failures of a rollback. *)
Definition TxnErrorsToString (errs : list string) : string :=
  String.concat ", " errs.

(** "the transaction is marked committed and the buffer is frozen" *)
Definition markCommitted (ctx : Context) (h : Store) : Store :=
  match ctx with
  | Background => h
  | WithTxn _ l =>
      match h !! l with
      | Some t => <[ l := {| kvOps := kvOps t; alreadyCommitted := true |} ]> h
      | None => h
      end
  end.

(** Modelled from the spec: [Commit] (transaction.go): "if the buffer is
    empty, succeed without contacting the store. Otherwise submit the entire
    buffer as one KV-transaction call. [...] After any outcome, the
    transaction is marked committed". A second commit fails without a call
    to the store ([TesetErrAlreadyMustCommitted]). *)
Definition Commit {S} (ctx : Context) (txner : Txner S) (h : Store) (s : S)
  : (bool * list string * option error) * Store * S :=
  match getTxnFromContext ctx h with
  | (None, err) => ((false, [], err), h, s)
  | (Some t, _) =>
      if alreadyCommitted t then ((false, [], Some ErrAlreadyCommitted), h, s)
      else
        match kvOps t with
        | [] => ((true, [], None), markCommitted ctx h, s)
        | ops =>
            let '(r, s') := Txn txner ops s in
            ((reply_ok r, reply_errors r, reply_err r), markCommitted ctx h, s')
        end
  end.

(** Modelled from the spec: [MustCommit] (transaction.go) is "Commit + treat
    ok=false as an error". *)
Definition MustCommit {S} (ctx : Context) (txner : Txner S) (h : Store) (s : S)
  : option error * Store * S :=
  let '((ok, errs, err), h', s') := Commit ctx txner h s in
  match err with
  | Some e => (Some e, h', s')
  | None =>
      if ok then (None, h', s')
      else (Some (Errorf ("transaction rolled back: " +:+ TxnErrorsToString errs)), h', s')
  end.

(** Modelled from the spec: the retry loop of [CommitWithRetries]
    (transaction.go): "retry with a fixed back-off only on transport errors;
    return immediately on success or rollback; return with ok=false,
    err=<last> if ctx is cancelled". [done n] tells whether [ctx.Done()]
    is found closed in the wait that follows the failed call number [n]
    (counting from 0); the loop is unbounded in the source, hence the fuel. *)
Fixpoint retry {S} (fuel : nat) (txner : Txner S) (done : nat -> bool)
    (ops : list KVTxnOp) (n : nat) (s : S)
  : option ((bool * list string * option error) * S) :=
  match fuel with
  | O => None
  | Datatypes.S fuel' =>
      let '(r, s') := Txn txner ops s in
      match reply_err r with
      | None => Some ((reply_ok r, reply_errors r, None), s')
      | Some e =>
          if done n then Some ((false, [], Some e), s')
          else retry fuel' txner done ops (Datatypes.S n) s'
      end
  end.

(** Modelled from the spec: [CommitWithRetries] (transaction.go) submits the
    buffer, again after a transport error and a back-off, until the store
    answers (success or rollback) or the context is cancelled. Unlike
    [Commit] it contacts the store for an empty buffer too
    ([TestCommitWithRetriesHappy] waits for a [Txn] call on a transaction
    without operations). *)
Definition CommitWithRetries {S} (fuel : nat) (ctx : Context) (txner : Txner S)
    (done : nat -> bool) (h : Store) (s : S)
  : option ((bool * list string * option error) * Store * S) :=
  match getTxnFromContext ctx h with
  | (None, err) => Some ((false, [], err), h, s)
  | (Some t, _) =>
      if alreadyCommitted t then Some ((false, [], Some ErrAlreadyCommitted), h, s)
      else
        match retry fuel txner done (kvOps t) 0 s with
        | Some (r, s') => Some (r, markCommitted ctx h, s')
        | None => None
        end
  end.

End transaction.

(** ** The tests of the transaction package (transaction_test.go)

    A test is the list of the failures it reports ([t.Errorf], and [t.Fatal]
    which also ends it); it passes when the list is empty. *)

Module transaction_test.
Import transaction.

Fixpoint addMany (n : nat) (ctx : Context) (op : KVTxnOp) (h : Store)
  : option error * Store :=
  match n with
  | O => (None, h)
  | S n' =>
      match Add ctx op h with
      | (Some e, h') => (Some e, h')
      | (None, h') => addMany n' ctx op h'
      end
  end.

(** [Add] of each operation in turn, up to the first failure. *)
Fixpoint addEachOf (ctx : Context) (ops : list KVTxnOp) (h : Store)
  : option error * Store :=
  match ops with
  | [] => (None, h)
  | op :: ops' =>
      match Add ctx op h with
      | (Some e, h') => (Some e, h')
      | (None, h') => addEachOf ctx ops' h'
      end
  end.

Definition TestAdd : list string :=
  let '(ctx, h) := New Background [] in
  match addMany 64 ctx OpEmpty h with
  | (Some _, _) =>
      ["couldn't add operation to the transaction but should work up to 64"]
  | (None, h) =>
      match Add ctx OpEmpty h with
      | (None, _) => ["expected an error adding the 64th transaction"]
      | (Some ErrTooManyOperations, _) => []
      | (Some _, _) => ["unexpected error adding 64th transaction"]
      end
  end.

(** [testTxner]: answers as configured and records the call. *)
Record testTxner := {
  shouldOK : bool;
  shouldErr : bool;
  errors : list string;
  recordedCall : option (list KVTxnOp) }.

Definition testTxner_Txn (txn : list KVTxnOp) (t : testTxner) : TxnReply * testTxner :=
  let t' := {| shouldOK := shouldOK t; shouldErr := shouldErr t;
               errors := errors t; recordedCall := Some txn |} in
  if shouldErr t
  then ({| reply_ok := false; reply_errors := [];
           reply_err := Some (ErrExternal "a test error occurred") |}, t')
  else ({| reply_ok := shouldOK t; reply_errors := errors t; reply_err := None |}, t').

Definition testTxner_Txner : Txner testTxner := {| Txn := testTxner_Txn |}.

Definition TestMustCommitHappy : list string :=
  let '(ctx, h) := New Background [] in
  let ops := map (fun i => OpVerb ("set key" +:+ pretty i)) (seq 0 10) in
  match (addEachOf ctx ops h) with
  | (Some _, _) => ["fatal"]
  | (None, h) =>
      let txner := {| shouldOK := true; shouldErr := false; errors := [];
                      recordedCall := None |} in
      match MustCommit ctx testTxner_Txner h txner with
      | (Some _, _, _) => ["unexpected error committing transaction"]
      | (None, _, txner) =>
          match recordedCall txner with
          | None => ["Txn() function was not called on the Txner"]
          | Some call =>
              (if decide (length call = 10%nat) then []
               else ["expected 10 operations in transaction"])
              ++ (if decide (omap (fun op => if op is OpVerb v then Some v else None) call
                             = map (fun i => "set key" +:+ pretty i) (seq 0 10))
                  then []
                  else ["one of the operations had unexpected verb, key or value"])
          end
      end
  end.

Definition TesetErrAlreadyMustCommitted : list string :=
  let '(ctx, h) := New Background [] in
  match Add ctx OpEmpty h with
  | (Some _, _) => ["fatal"]
  | (None, h) =>
      let txner := {| shouldOK := true; shouldErr := false; errors := [];
                      recordedCall := None |} in
      match MustCommit ctx testTxner_Txner h txner with
      | (Some _, _, _) => ["fatal"]
      | (None, h, _) =>
          (* txner.recordedCall = nil *)
          match MustCommit ctx testTxner_Txner h txner with
          | (err, h, txner') =>
              (if err is Some _ then []
               else ["should have failed to commit a transaction twice"])
              ++ (if recordedCall txner' is Some _
                  then ["should not have called Txn() twice on consul client"]
                  else [])
              ++ (if (Add ctx OpEmpty h).1 is Some _ then []
                  else ["should have erred adding an operation to a committed transaction"])
          end
      end
  end.

Definition TestMustCommitErrNoTransaction : list string :=
  let txner := {| shouldOK := false; shouldErr := false; errors := [];
                  recordedCall := None |} in
  match MustCommit Background testTxner_Txner [] txner with
  | (None, _, _) =>
      ["should have gotten an error committing using a context that does not have a transaction"]
  | (Some _, _, _) => []
  end.

Definition TestMustCommitTransactionWithNoOperations : list string :=
  let '(ctx, h) := New Background [] in
  let txner := {| shouldOK := true; shouldErr := false; errors := [];
                  recordedCall := None |} in
  match MustCommit ctx testTxner_Txner h txner with
  | (Some _, _, _) => ["unexpected error committing transaction"]
  | (None, _, txner) =>
      match recordedCall txner with
      | Some _ => ["no txn call should have been made to consul if there are no operations on the transaction"]
      | None => []
      end
  end.

Definition TestErrAddingToCommittedTransaction : list string :=
  let '(ctx, h) := New Background [] in
  let txner := {| shouldOK := true; shouldErr := false; errors := [];
                  recordedCall := None |} in
  match Add ctx OpEmpty h with
  | (Some _, _) => ["fatal"]
  | (None, h) =>
      match MustCommit ctx testTxner_Txner h txner with
      | (Some _, _, _) => ["unexpected error committing transaction"]
      | (None, h, _) =>
          match Add ctx OpEmpty h with
          | (None, _) => ["expected an error adding an operation to a transaction that was already committed"]
          | (Some _, _) => []
          end
      end
  end.

(** [TestContextInheritsOperations], over the implementation of [New] that
    it exercises. The two contexts are observed through
    [getTxnFromContext], as in the test. *)
Definition TestContextInheritsOperations
    (New : Context -> Store -> Context * Store) : list string :=
  let '(ctx, h) := New Background [] in
  match Add ctx OpEmpty h with
  | (Some _, _) => ["fatal"]
  | (None, h) =>
      let '(ctx2, h) := New ctx h in
      (* check that ctx2 inherited the operation that was added to ctx *)
      let e1 := if decide (opCount ctx2 h = Some 1%nat) then []
                else ["expected ctx2 to inherit kv ops from ctx"] in
      (* now add an operation to ctx2 and make sure it doesn't appear in ctx *)
      match Add ctx2 OpEmpty h with
      | (Some _, _) => e1 ++ ["fatal"]
      | (None, h) =>
          let e2 := if decide (opCount ctx2 h = Some 2%nat) then []
                    else ["expected ctx2 to inherit kv ops from ctx"] in
          let e3 := if decide (opCount ctx h = Some 1%nat) then []
                    else ["the original ctx inherited operations from the 2nd one"] in
          match Add ctx OpEmpty h with
          | (Some _, _) => e1 ++ e2 ++ e3 ++ ["fatal"]
          | (None, h) =>
              match Add ctx OpEmpty h with
              | (Some _, _) => e1 ++ e2 ++ e3 ++ ["fatal"]
              | (None, h) =>
                  let e4 := if decide (opCount ctx h = Some 3%nat) then []
                            else ["expected 3 operations on original tx"] in
                  let e5 := if decide (opCount ctx2 h = Some 2%nat) then []
                            else ["expected 2 operations on original tx"] in
                  e1 ++ e2 ++ e3 ++ e4 ++ e5
              end
          end
      end
  end.

End transaction_test.

(** ** Records of the controller *)

Module alerting.
(** [alerting.AlertInfo], with the fields that [alertInfo] fills in. *)
Record Details := {
  RCID : string; Hostname : string; PodId : string; NodeSelector : string }.
Record AlertInfo := {
  Description : string; IncidentKey : string; Details_ : Details }.
End alerting.

Module fields.
(** Modelled from the spec: [fields.RC] is declared in [pkg/rc/fields], not
    among the sources. Its fields are those the controller reads: "identity,
    manifest, node selector, desired replica count, disabled flag, pod-labels
    map, allocation strategy (enum: pinned vs cattle)". *)
Inductive Strategy := CattleStrategy | PinnedStrategy.

Record RC := {
  ID : string;
  Manifest : manifest.Manifest;
  NodeSelector : string;
  PodLabels : gmap string string;
  ReplicasDesired : Z;
  Disabled : bool;
  AllocationStrategy : Strategy }.

Definition Strategy_eqb (a b : Strategy) : bool :=
  match a, b with
  | CattleStrategy, CattleStrategy | PinnedStrategy, PinnedStrategy => true
  | _, _ => false
  end.
End fields.

Module rcstore.
(** Modelled from the spec: the constant [rcstore.PodIDLabel] is declared in
    [pkg/store/consul/rcstore]; it is "the reserved pod_id label". *)
Definition PodIDLabel : string := "pod_id".
End rcstore.

(** This label is applied to pods owned by an RC. *)
Definition RCIDLabel : string := "replication_controller_id".

(** ** The world of a controller

    What the logger prints, and what is asked of the collaborators, in the
    order it happens. *)

Inductive LogLine :=
| LogHandlingUpdate (desired : Z) (disabled : bool)
| LogCurrentlyOn (current : PodLocations)
| LogTakingNoAction
| LogNeedSchedule (n : Z) (possible : list NodeName)
| LogNeedUnschedule (n : Z) (current : PodLocations)
| LogScheduling (node : NodeName)
| LogUnscheduling (node : NodeName)
| LogInconsistency (node : NodeName) (intentManifestSHA : string)
| LogCouldNotHash (node : NodeName) (err : error)
| LogUnableToSendAlert (err : error).

Inductive Event :=
| EvLog (l : LogLine)
| EvTxn (ops : list KVTxnOp)                            (* txner.Txn *)
| EvAlert (info : alerting.AlertInfo)                   (* alerter.Alert *)
| EvPod (tree : PodPrefix) (node : NodeName) (pod : PodID)  (* consulStore.Pod *)
| EvGetMatches (selector : string)                      (* podApplicator.GetMatches *)
| EvEligibleNodes                                       (* scheduler.EligibleNodes *)
| EvAllocateNodes (count : Z)                           (* scheduler.AllocateNodes *)
| EvDeallocateNodes (nodes : list NodeName)             (* scheduler.DeallocateNodes *)
| EvStatusGet (rcid : string).                          (* rcStatusStore.Get *)

Record World := {
  txs : list transaction.tx;     (* the transactions contexts point to *)
  trace : list Event;            (* oldest first *)
  cancelled : list nat }.        (* contexts whose cancel function was called *)

(** The collaborators. Each answer may depend on everything that happened
    before the call. [pick] stands for the iteration order of a Go map, which
    [NodeSet.PopAny] exposes. *)
Record Env := {
  hostname : string;
  txn_reply : list Event -> list KVTxnOp -> transaction.TxnReply;
  pod_reply : list Event -> PodPrefix -> NodeName -> PodID ->
              option manifest.Manifest * option error;
  matches_reply : list Event -> string -> list (PodLocation + error) * option error;
  eligible_reply : list Event -> list NodeName * option error;
  allocate_reply : list Event -> Z -> list NodeName * option error;
  deallocate_reply : list Event -> list NodeName -> option error;
  status_reply : list Event -> string -> rcstatus.Status * option error;
  alert_reply : list Event -> alerting.AlertInfo -> option error;
  pick : list Event -> nat }.

Definition emit (e : Event) (w : World) : World :=
  {| txs := txs w; trace := trace w ++ [e]; cancelled := cancelled w |}.

Definition logf (l : LogLine) (w : World) : World := emit (EvLog l) w.

Definition setTxs (h : list transaction.tx) (w : World) : World :=
  {| txs := h; trace := trace w; cancelled := cancelled w |}.

(** The cancel function returned with a context by [transaction.New]. *)
Definition cancelFunc (ctx : transaction.Context) (w : World) : World :=
  match ctx with
  | transaction.Background => w
  | transaction.WithTxn _ l =>
      {| txs := txs w; trace := trace w; cancelled := l :: cancelled w |}
  end.

Definition transaction_New (parent : transaction.Context) (w : World)
  : transaction.Context * World :=
  let '(ctx, h) := transaction.New parent (txs w) in (ctx, setTxs h w).

(** [rc.txner]: the consul client. *)
Definition txner (env : Env) : transaction.Txner (list Event) :=
  {| transaction.Txn := fun ops tr => (txn_reply env tr ops, tr ++ [EvTxn ops]) |}.

Definition transaction_Commit (env : Env) (ctx : transaction.Context) (w : World)
  : (bool * list string * option error) * World :=
  let '(r, h, tr) := transaction.Commit ctx (txner env) (txs w) (trace w) in
  (r, {| txs := h; trace := tr; cancelled := cancelled w |}).

Definition transaction_MustCommit (env : Env) (ctx : transaction.Context) (w : World)
  : option error * World :=
  let '(r, h, tr) := transaction.MustCommit ctx (txner env) (txs w) (trace w) in
  (r, {| txs := h; trace := tr; cancelled := cancelled w |}).

(** Modelled from the spec: the transactional methods of the store, labeler
    and status-store ports ([SetPodTxn], [DeletePodTxn], [SetLabelsTxn],
    [RemoveLabelsTxn], [CASTxn]) are implemented outside the sources; each
    one's "operations are appended to the transaction in ctx", one operation
    per call, and it fails when the append does. *)
Definition addOp (ctx : transaction.Context) (op : KVTxnOp) (w : World)
  : option error * World :=
  let '(err, h) := transaction.Add ctx op (txs w) in (err, setTxs h w).

(** Modelled from the spec: [Labeler.SetLabelsTxn], a label write. *)
Definition SetLabelsTxn ctx (key : string) (lbls : gmap string string) :=
  addOp ctx (OpSetLabels key lbls).

(** Modelled from the spec: [Labeler.RemoveLabelsTxn], a label-remove. *)
Definition RemoveLabelsTxn ctx (key : string) (keys : list string) :=
  addOp ctx (OpRemoveLabels key keys).

(** Modelled from the spec: [consulStore.SetPodTxn], an intent write (its
    signature is in the [consulStore] interface of the source). *)
Definition SetPodTxn ctx (tree : PodPrefix) (node : NodeName) (m : manifest.Manifest) :=
  addOp ctx (OpSetPod tree node m).

(** Modelled from the spec: [consulStore.DeletePodTxn], an intent-delete. *)
Definition DeletePodTxn ctx (tree : PodPrefix) (node : NodeName) (pod : PodID) :=
  addOp ctx (OpDeletePod tree node pod).

(** Modelled from the spec: [rcstatus.ConsulStore.CASTxn], the
    compare-and-set of the RC status. *)
Definition CASTxn ctx (rcid : string) (index : Z) (status : rcstatus.Status) :=
  addOp ctx (OpCASStatus rcid index status).

(** The blocking calls. *)
Definition Pod (env : Env) (tree : PodPrefix) (node : NodeName) (pod : PodID) (w : World)
  : (option manifest.Manifest * option error) * World :=
  (pod_reply env (trace w) tree node pod, emit (EvPod tree node pod) w).

Definition Alert (env : Env) (info : alerting.AlertInfo) (w : World)
  : option error * World :=
  (alert_reply env (trace w) info, emit (EvAlert info) w).

(** ** The auditing transaction *)

(** Modelled from the spec: [auditingTransaction] lives in another file of
    [pkg/rc], not among the sources. It is "a transaction plus a mutable
    node-set (set of NodeName) representing the placement that will exist
    after the transaction commits"; the audit record describes "the
    before/after node-set", so the starting nodes are kept. *)
Record auditingTransaction := {
  at_ctx : transaction.Context;
  at_start : list NodeName;
  at_nodes : gset string }.

(** Modelled from the spec: [newAuditingTransaction] "wraps (A) with a
    node-set initialized from the reconciler's current placement". *)
Definition newAuditingTransaction (ctx : transaction.Context)
    (startingNodes : list NodeName) (w : World) : auditingTransaction * World :=
  let '(c, w') := transaction_New ctx w in
  ({| at_ctx := c; at_start := startingNodes;
      at_nodes := list_to_set startingNodes |}, w').

(** Modelled from the spec: [auditingTransaction.Context()], the context
    the operations are appended to. *)
Definition Context_ (txn : auditingTransaction) := at_ctx txn.

(** Modelled from the spec: [auditingTransaction.Nodes()], the node-set as
    it stands. *)
Definition Nodes_ (txn : auditingTransaction) : list NodeName := elements (at_nodes txn).

(** Modelled from the spec: "AddNode / RemoveNode update the set in
    memory". *)
Definition AddNode (n : NodeName) (txn : auditingTransaction) :=
  {| at_ctx := at_ctx txn; at_start := at_start txn; at_nodes := {[ n ]} ∪ at_nodes txn |}.

(** Modelled from the spec: see [AddNode]. *)
Definition RemoveNode (n : NodeName) (txn : auditingTransaction) :=
  {| at_ctx := at_ctx txn; at_start := at_start txn; at_nodes := at_nodes txn ∖ {[ n ]} |}.

(** Modelled from the spec: [auditingTransaction.Commit] "appends exactly one
    additional KV op describing the transition (serialized node-set before
    vs after, plus RC ID and timestamp) as an audit-log entry, then
    delegates"; the timestamp is left out. *)
Definition auditing_Commit (rcid : string) (env : Env) (txn : auditingTransaction) (w : World)
  : (bool * list string * option error) * World :=
  match addOp (at_ctx txn) (OpAuditLog rcid (at_start txn) (Nodes_ txn)) w with
  | (Some err, w') => ((false, [], Some err), w')
  | (None, w') => transaction_Commit env (at_ctx txn) w'
  end.

(** ** The replication controller (replication_controller.go)

    The controller reads its [fields.RC] under a mutex; within one pass the
    record is the one the pass started with. *)

Section controller.
Variable rc : fields.RC.
Variable env : Env.

(** The three-way [switch] that follows every commit in the controller. *)
Definition commitOutcome (what : string) (r : bool * list string * option error)
  : option error :=
  match r with
  | (_, _, Some err) => Some err
  | (false, errs, None) =>
      Some (Errorf (what +:+ " due to transaction violation: "
                    +:+ transaction.TxnErrorsToString errs))
  | (true, _, None) => None
  end.

Definition alertInfo (msg : string) : alerting.AlertInfo :=
  {| alerting.Description := msg;
     alerting.IncidentKey := fields.ID rc;
     alerting.Details_ :=
       {| alerting.RCID := fields.ID rc;
          alerting.Hostname := hostname env;
          alerting.PodId := manifest.ID (fields.Manifest rc);
          alerting.NodeSelector := fields.NodeSelector rc |} |}.

(** [rc.alerter.Alert(...)], a failure of which is only logged. *)
Definition alertAndLog (msg : string) (w : World) : option error * World :=
  let '(err, w) := Alert env (alertInfo msg) w in
  match err with
  | Some e => (err, logf (LogUnableToSendAlert e) w)
  | None => (err, w)
  end.

(** [CurrentPods]: the pods that carry this RC's ID label. *)
Fixpoint locations (podMatches : list (PodLocation + error))
  : PodLocations * option error :=
  match podMatches with
  | [] => ([], None)
  | inr err :: _ => ([], Some err)
  | inl loc :: rest =>
      match locations rest with
      | (_, Some err) => ([], Some err)
      | (l, None) => (loc :: l, None)
      end
  end.

Definition CurrentPods (w : World) : (PodLocations * option error) * World :=
  let selector := RCIDLabel +:+ "=" +:+ fields.ID rc in
  let w' := emit (EvGetMatches selector) w in
  match matches_reply env (trace w) selector with
  | (_, Some err) => (([], Some err), w')
  | (podMatches, None) => (locations podMatches, w')
  end.

Definition eligibleNodes (w : World) : (list NodeName * option error) * World :=
  (eligible_reply env (trace w), emit EvEligibleNodes w).

(** [computePodLabels]: the user's labels, then the reserved ones. *)
Definition computePodLabels : gmap string string :=
  <[ RCIDLabel := fields.ID rc ]>
    (<[ rcstore.PodIDLabel := manifest.ID (fields.Manifest rc) ]> (fields.PodLabels rc)).

Definition scheduleNoAudit (ctx : transaction.Context) (node : NodeName) (w : World)
  : option error * World :=
  let w := logf (LogScheduling node) w in
  let manifest := fields.Manifest rc in
  let labelKey := labels.MakePodLabelKey node (manifest.ID manifest) in
  match SetLabelsTxn ctx labelKey computePodLabels w with
  | (Some err, w) => (Some err, w)
  | (None, w) => SetPodTxn ctx INTENT_TREE node manifest w
  end.

Definition schedule (txn : auditingTransaction) (node : NodeName) (w : World)
  : option error * auditingTransaction * World :=
  match scheduleNoAudit (Context_ txn) node w with
  | (Some err, w) => (Some err, txn, w)
  | (None, w) => (None, AddNode node txn, w)
  end.

Definition unschedule (txn : auditingTransaction) (node : NodeName) (w : World)
  : option error * auditingTransaction * World :=
  let w := logf (LogUnscheduling node) w in
  let manifest := fields.Manifest rc in
  match DeletePodTxn (Context_ txn) INTENT_TREE node (manifest.ID manifest) w with
  | (Some err, w) => (Some err, txn, w)
  | (None, w) =>
      let labelsToSet := computePodLabels in
      let keysToRemove := (map_to_list labelsToSet).*1 in
      let labelKey := labels.MakePodLabelKey node (manifest.ID manifest) in
      match RemoveLabelsTxn (Context_ txn) labelKey keysToRemove w with
      | (Some err, w) => (Some err, txn, w)
      | (None, w) => (None, RemoveNode node txn, w)
      end
  end.

(** "create a new context for every 5 nodes": the commit of the running
    transaction and its replacement, at the head of the loops of [addPods]
    and [removePods]. [inl] leaves the function with that error. *)
Definition nextBatch (i : nat) (txn : auditingTransaction) (w : World)
  : (error * World) + (auditingTransaction * World) :=
  if ((i `mod` 5 =? 0) && (0 <? i))%nat then
    let '(r, w) := auditing_Commit (fields.ID rc) env txn w in
    match commitOutcome "could not schedule pods" r with
    | Some err => inl (err, w)
    | None =>
        let w := cancelFunc (at_ctx txn) w in
        inr (newAuditingTransaction transaction.Background (Nodes_ txn) w)
    end
  else inr (txn, w).

Definition notEnoughNodes (currentNodes eligible : list NodeName) (i : nat) : string :=
  "Not enough nodes to meet desire: " +:+ pretty (fields.ReplicasDesired rc)
  +:+ " replicas desired, " +:+ pretty (length currentNodes)
  +:+ " currentNodes, " +:+ pretty (length eligible)
  +:+ " eligible. Scheduled on " +:+ pretty i +:+ " nodes instead.".

(** The [for] loop of [addPods], [n] iterations from index [i] on. The
    transaction is returned too: it is the one the deferred cancel applies
    to. *)
Fixpoint addPods_loop (currentNodes eligible possibleSorted : list NodeName)
    (n i : nat) (txn : auditingTransaction) (w : World)
  : option error * auditingTransaction * World :=
  match n with
  | O => (None, txn, w)
  | S n' =>
      match nextBatch i txn w with
      | inl (err, w) => (Some err, txn, w)
      | inr (txn, w) =>
          if (length possibleSorted <? i + 1)%nat then
            let errMsg := notEnoughNodes currentNodes eligible i in
            let '(_, w) := alertAndLog errMsg w in
            (* commit any queued operations *)
            let '(r, w) := auditing_Commit (fields.ID rc) env txn w in
            match commitOutcome "could not schedule pods" r with
            | Some err => (Some err, txn, w)
            | None => (Some (Errorf errMsg), txn, w)
            end
          else
            let scheduleOn := default "" (possibleSorted !! i) in
            match schedule txn scheduleOn w with
            | (Some err, txn, w) => (Some err, txn, w)
            | (None, txn, w) =>
                addPods_loop currentNodes eligible possibleSorted n' (S i) txn w
            end
      end
  end.

Definition addPods (current : PodLocations) (eligible : list NodeName) (w : World)
  : option error * World :=
  let currentNodes := Nodes current in
  let possible := Difference (NewNodeSet eligible) (NewNodeSet currentNodes) in
  let possibleSorted := ListNodes possible in
  let toSchedule := (fields.ReplicasDesired rc - Z.of_nat (length currentNodes))%Z in
  let w := logf (LogNeedSchedule toSchedule (elements possible)) w in
  let '(txn, w) := newAuditingTransaction transaction.Background currentNodes w in
  match addPods_loop currentNodes eligible possibleSorted
          (Z.to_nat toSchedule) 0 txn w with
  | (Some err, txn, w) => (Some err, cancelFunc (at_ctx txn) w)
  | (None, txn, w) =>
      let '(r, w) := auditing_Commit (fields.ID rc) env txn w in
      (commitOutcome "could not schedule pods" r, cancelFunc (at_ctx txn) w)
  end.

Definition cannotUnschedule (current : PodLocations) : string :=
  "Unable to unschedule enough nodes to meet replicas desired: "
  +:+ pretty (fields.ReplicasDesired rc) +:+ " replicas desired, "
  +:+ pretty (length current) +:+ " current.".

Fixpoint removePods_loop (current : PodLocations) (preferred rest : gset string)
    (n i : nat) (txn : auditingTransaction) (w : World)
  : option error * auditingTransaction * World :=
  match n with
  | O => (None, txn, w)
  | S n' =>
      match nextBatch i txn w with
      | inl (err, w) => (Some err, txn, w)
      | inr (txn, w) =>
          let '((unscheduleFrom, ok), preferred) := PopAny (pick env (trace w)) preferred in
          let '((unscheduleFrom, ok), rest) :=
            if ok then ((unscheduleFrom, ok), rest)
            else PopAny (pick env (trace w)) rest in
          if negb ok then
            (* This should be mathematically impossible unless
               replicasDesired was negative *)
            let '(r, w) := auditing_Commit (fields.ID rc) env txn w in
            match commitOutcome "could not schedule pods" r with
            | Some err => (Some err, txn, w)
            | None => (Some (Errorf (cannotUnschedule current)), txn, w)
            end
          else
            match unschedule txn unscheduleFrom w with
            | (Some err, txn, w) => (Some err, txn, w)
            | (None, txn, w) => removePods_loop current preferred rest n' (S i) txn w
            end
      end
  end.

Definition removePods (current : PodLocations) (eligible : list NodeName) (w : World)
  : option error * World :=
  let currentNodes := Nodes current in
  let preferred := Difference (NewNodeSet currentNodes) (NewNodeSet eligible) in
  let rest := Difference (NewNodeSet currentNodes) preferred in
  let toUnschedule := (Z.of_nat (length current) - fields.ReplicasDesired rc)%Z in
  let w := logf (LogNeedUnschedule toUnschedule current) w in
  let '(txn, w) := newAuditingTransaction transaction.Background currentNodes w in
  match removePods_loop current preferred rest (Z.to_nat toUnschedule) 0 txn w with
  | (Some err, txn, w) => (Some err, cancelFunc (at_ctx txn) w)
  | (None, txn, w) =>
      let '(r, w) := auditing_Commit (fields.ID rc) env txn w in
      (commitOutcome "could not schedule pods" r, cancelFunc (at_ctx txn) w)
  end.

(** The loop of [ensureConsistency] over [current], from index [i] on. *)
Definition nextContext (i : nat) (ctx : transaction.Context) (w : World)
  : (error * World) + (transaction.Context * World) :=
  if ((i `mod` 5 =? 0) && (0 <? i))%nat then
    let '(r, w) := transaction_Commit env ctx w in
    match commitOutcome "could not schedule pods" r with
    | Some err => inl (err, w)
    | None =>
        let w := cancelFunc ctx w in
        inr (transaction_New transaction.Background w)
    end
  else inr (ctx, w).

Definition isNoCurrentManifest (err : error) : bool :=
  error_eqb err NoCurrentManifest.

Fixpoint ensureConsistency_loop (manifestSHA : string) (pods : PodLocations)
    (i : nat) (ctx : transaction.Context) (w : World)
  : option error * transaction.Context * World :=
  match pods with
  | [] => (None, ctx, w)
  | pod :: pods' =>
      match nextContext i ctx w with
      | inl (err, w) => (Some err, ctx, w)
      | inr (ctx, w) =>
          let '((intent, err), w) := Pod env INTENT_TREE (Node pod) (PodID_ pod) w in
          if match err with
             | Some e => negb (isNoCurrentManifest e)
             | None => false
             end
          then (err, ctx, w)
          else
            (* [Some sha] when the stored intent is to be rewritten *)
            let '(rewrite, w) :=
              match intent with
              | Some m =>
                  let '(intentSHA, err) := manifest.SHA m in
                  let w := match err with
                           | Some e => logf (LogCouldNotHash (Node pod) e) w
                           | None => w
                           end in
                  if String.eqb intentSHA manifestSHA then (None, w)
                  else (Some intentSHA, w)
              | None => (Some "", w)
              end in
            match rewrite with
            | None => ensureConsistency_loop manifestSHA pods' (S i) ctx w
            | Some intentSHA =>
                let w := logf (LogInconsistency (Node pod) intentSHA) w in
                match scheduleNoAudit ctx (Node pod) w with
                | (Some err, w) => (Some err, ctx, cancelFunc ctx w)
                | (None, w) => ensureConsistency_loop manifestSHA pods' (S i) ctx w
                end
            end
      end
  end.

Definition ensureConsistency (current : PodLocations) (w : World)
  : option error * World :=
  let manifest := fields.Manifest rc in
  match manifest.SHA manifest with
  | (_, Some err) => (Some err, w)
  | (manifestSHA, None) =>
      let '(ctx, w) := transaction_New transaction.Background w in
      match ensureConsistency_loop manifestSHA current 0 ctx w with
      | (Some err, ctx, w) => (Some err, cancelFunc ctx w)
      | (None, ctx, w) =>
          let '(r, w) := transaction_Commit env ctx w in
          (commitOutcome "could not schedule pods" r, cancelFunc ctx w)
      end
  end.

(** The current nodes that are not eligible, in the order of [current]. *)
Definition checkForIneligible (current : PodLocations) (eligible : list NodeName)
  : list NodeName :=
  filter (fun node => node ∉ eligible) (Nodes current).

Definition IsNoStatus (err : error) : bool := error_eqb err NoStatus.

Definition isNodeTransferInProgress (w : World) : (bool * option error) * World :=
  let '(status, err) := status_reply env (trace w) (fields.ID rc) in
  let w := emit (EvStatusGet (fields.ID rc)) w in
  match err with
  | Some e =>
      if negb (IsNoStatus e) then ((false, Some e), w)
      else ((bool_decide (is_Some (rcstatus.NodeTransfer_ status)), None), w)
  | None => ((bool_decide (is_Some (rcstatus.NodeTransfer_ status)), None), w)
  end.

(** An error under the verb [%s]. The texts of the errors declared outside
    the sources are not known: their names stand for them. *)
Definition error_string (err : option error) : string :=
  match err with
  | None => "%!s(<nil>)"
  | Some ErrTooManyOperations => "ErrTooManyOperations"
  | Some ErrAlreadyCommitted => "ErrAlreadyCommitted"
  | Some ErrNoTransaction => "ErrNoTransaction"
  | Some NoCurrentManifest => "NoCurrentManifest"
  | Some NoStatus => "NoStatus"
  | Some (Errorf m) => m
  | Some (ErrExternal m) => m
  end.

(** [updateAllocations]. The source assigns to [status] without declaring
    it; it is read as a fresh [rcstatus.Status]. *)
Definition updateAllocations (ineligible : list NodeName) (w : World)
  : (NodeName * option error) * World :=
  match ineligible with
  | [] => (("", Some (Errorf "Need at least one ineligible node to transfer from, had 0")), w)
  | oldNode :: _ =>
      let man := fields.Manifest rc in
      let sel := fields.NodeSelector rc in
      let err := deallocate_reply env (trace w) [oldNode] in
      let w := emit (EvDeallocateNodes [oldNode]) w in
      match err with
      | Some e =>
          (("", Some (Errorf ("Could not deallocate from " +:+ oldNode +:+ ": "
                              +:+ error_string err))), w)
      | None =>
          let nodesRequested := 1%Z in
          let '(newNodes, err) := allocate_reply env (trace w) nodesRequested in
          let w := emit (EvAllocateNodes nodesRequested) w in
          match err, newNodes with
          | None, newNode :: _ =>
              let status :=
                {| rcstatus.NodeTransfer_ :=
                     Some {| rcstatus.OldNode := oldNode; rcstatus.NewNode := newNode |} |} in
              let '(writeCtx, w) := transaction_New transaction.Background w in
              match CASTxn writeCtx (fields.ID rc) 0%Z status w with
              | (Some e, w) =>
                  (("", Some (Errorf ("Could not write new node to store: "
                                      +:+ error_string (Some e)))),
                   cancelFunc writeCtx w)
              | (None, w) =>
                  match transaction_MustCommit env writeCtx w with
                  | (Some e, w) =>
                      (("", Some (Errorf ("Could not commit CASTxn: "
                                          +:+ error_string (Some e)))),
                       cancelFunc writeCtx w)
                  | (None, w) => ((newNode, None), cancelFunc writeCtx w)
                  end
              end
          | _, _ =>
              let errMsg := "Unable to allocate nodes over grpc: " +:+ error_string err in
              let '(_, w) := alertAndLog errMsg w in
              (("", Some (Errorf errMsg)), w)
          end
      end
  end.

(** [scheduleWithoutLabel]. The source names [txn.Context()], [scheduleOn]
    and [ctx], none of which is in scope; they are read as [writeCtx],
    [newNode] and [writeCtx]. *)
Definition scheduleWithoutLabel (newNode : NodeName) (w : World) : option error * World :=
  let '(writeCtx, w) := transaction_New transaction.Background w in
  let w := logf (LogScheduling newNode) w in
  let manifest := fields.Manifest rc in
  match SetPodTxn writeCtx INTENT_TREE newNode manifest w with
  | (Some err, w) => (Some err, cancelFunc writeCtx w)
  | (None, w) =>
      let '(r, w) := transaction_Commit env writeCtx w in
      (commitOutcome ("could not schedule " +:+ newNode) r, cancelFunc writeCtx w)
  end.

(** [updateAllocationsAndReschedule]. In the branch of a strategy other
    than cattle the source returns [err], which at that point is what
    [Alert] returned. The message names [ineligibleCurrent], read as the
    parameter [ineligible]. *)
Definition updateAllocationsAndReschedule (ineligible : list NodeName) (w : World)
  : (NodeName * option error) * World :=
  if negb (fields.Strategy_eqb (fields.AllocationStrategy rc) fields.CattleStrategy) then
    let errMsg := "Non-cattle RC has scheduled " +:+ pretty (length ineligible)
                  +:+ " ineligible nodes: " +:+ String.concat " " ineligible in
    let '(err, w) := alertAndLog errMsg w in
    (("", err), w)
  else
    match updateAllocations ineligible w with
    | ((_, Some err), w) => (("", Some err), w)
    | ((newNode, None), w) =>
        match scheduleWithoutLabel newNode w with
        | (Some err, w) => (("", Some err), w)
        | (None, w) => ((newNode, None), w)
        end
    end.

(** [transferNodes]. The source passes [ineligibleNodes], read as the
    parameter [ineligible], and ends without a [return] once the
    rescheduling has not failed: that is read as returning [nil]. *)
Definition transferNodes (ineligible : list NodeName) (w : World) : option error * World :=
  match isNodeTransferInProgress w with
  | ((_, Some err), w) => (Some err, w)
  | ((true, None), w) => (None, w)
  | ((false, None), w) =>
      match updateAllocationsAndReschedule ineligible w with
      | ((_, Some err), w) => (Some err, w)
      | ((newNode, None), w) => (None, w)
      end
  end.

(** [finalizeCompleteTransfer]. The source names [node], [manifest], [ctx]
    and [oldNode] without binding them: they are read as [newNode],
    [rc.Manifest], [txn.Context()] and a second parameter; the auditing
    transaction is seeded with the nodes of [current]. *)
Definition finalizeCompleteTransfer (newNode oldNode : NodeName) (w : World)
  : option error * World :=
  match CurrentPods w with
  | ((_, Some err), w) => (Some err, w)
  | ((current, None), w) =>
      let '(txn, w) := newAuditingTransaction transaction.Background (Nodes current) w in
      let txn := AddNode newNode txn in
      let labelKey := labels.MakePodLabelKey newNode (manifest.ID (fields.Manifest rc)) in
      match SetLabelsTxn (Context_ txn) labelKey computePodLabels w with
      | (Some err, w) => (Some err, cancelFunc (at_ctx txn) w)
      | (None, w) =>
          match unschedule txn oldNode w with
          | (Some err, txn, w) => (Some err, cancelFunc (at_ctx txn) w)
          | (None, txn, w) =>
              let '(r, w) := auditing_Commit (fields.ID rc) env txn w in
              (commitOutcome "could not finalize node transfer" r,
               cancelFunc (at_ctx txn) w)
          end
      end
  end.

(** [rollbackIncompleteTransfer] holds only comments. *)
Definition rollbackIncompleteTransfer (w : World) : option error * World := (None, w).

(** [meetDesires]: one reconciliation pass. *)
Definition meetDesires (w : World) : option error * World :=
  let w := logf (LogHandlingUpdate (fields.ReplicasDesired rc) (fields.Disabled rc)) w in
  (* If we're disabled, we do nothing, nor is it an error *)
  if fields.Disabled rc then (None, w)
  else
    match CurrentPods w with
    | ((_, Some err), w) => (Some err, w)
    | ((current, None), w) =>
        match eligibleNodes w with
        | ((_, Some err), w) => (Some err, w)
        | ((eligible, None), w) =>
            let w := logf (LogCurrentlyOn current) w in
            let '(err, nodesChanged, w) :=
              if (Z.of_nat (length current) <? fields.ReplicasDesired rc)%Z then
                let '(err, w) := addPods current eligible w in (err, true, w)
              else if (fields.ReplicasDesired rc <? Z.of_nat (length current))%Z then
                let '(err, w) := removePods current eligible w in (err, true, w)
              else (None, false, logf LogTakingNoAction w) in
            match err with
            | Some err => (Some err, w)
            | None =>
                let '((current, err), w) :=
                  if nodesChanged then CurrentPods w else ((current, None), w) in
                match err with
                | Some err => (Some err, w)
                | None =>
                    let ineligible := checkForIneligible current eligible in
                    let '(err, w) :=
                      if (0 <? length ineligible)%nat then transferNodes ineligible w
                      else (None, w) in
                    match err with
                    | Some err => (Some err, w)
                    | None => ensureConsistency current w
                    end
                end
            end
        end
    end.

End controller.

(** ** Vocabulary of the statements *)

(** The results of a sequence of [Add] calls through one context. *)
Fixpoint addEach (ctx : transaction.Context) (ops : list KVTxnOp)
    (h : list transaction.tx) : list (option error) * list transaction.tx :=
  match ops with
  | [] => ([], h)
  | op :: ops' =>
      let '(r, h) := transaction.Add ctx op h in
      let '(rs, h) := addEach ctx ops' h in
      (r :: rs, h)
  end.

(** A store that answers its [n]-th call with [replies n]; its state is the
    number of calls it has received. *)
Definition scripted (replies : nat -> transaction.TxnReply) : transaction.Txner nat :=
  {| transaction.Txn := fun _ n => (replies n, S n) |}.

(** The operations held by the transactions created from address [m] on, in
    the order of their creation and, within one, of their addition. With [m]
    the size of the store when a pass starts, these are the operations the
    pass has added. *)
Definition opsFrom (m : nat) (w : World) : list KVTxnOp :=
  drop m (txs w) ≫= transaction.kvOps.

Definition intentWrite (op : KVTxnOp) : option NodeName :=
  match op with OpSetPod INTENT_TREE n _ => Some n | _ => None end.
Definition intentDelete (op : KVTxnOp) : option NodeName :=
  match op with OpDeletePod INTENT_TREE n _ => Some n | _ => None end.
Definition isAuditLog (op : KVTxnOp) : bool :=
  match op with OpAuditLog _ _ _ => true | _ => false end.
Definition isSetLabels (op : KVTxnOp) : bool :=
  match op with OpSetLabels _ _ => true | _ => false end.
Definition isTxn (e : Event) : bool :=
  match e with EvTxn _ => true | _ => false end.
Definition isAlert (e : Event) : bool :=
  match e with EvAlert _ => true | _ => false end.

(** The nodes on which intent was written, resp. deleted, in order. *)
Definition intentWrites (ops : list KVTxnOp) : list NodeName := omap intentWrite ops.
Definition intentDeletes (ops : list KVTxnOp) : list NodeName := omap intentDelete ops.

(** [ctx] carries the transaction [t], the last one created in [w], itself
    created after the first [m]. *)
Definition Cur (m : nat) (ctx : transaction.Context) (w : World) (t : transaction.tx) : Prop :=
  exists h p, txs w = h ++ [t] /\ ctx = transaction.WithTxn p (length h)
              /\ (m <= length h)%nat.

(** From [w] to [w']: the transactions below [m] are untouched, the ones
    from [m] on have gained [ops], and [evs] has happened. *)
Definition step (m : nat) (w w' : World) (ops : list KVTxnOp) (evs : list Event) : Prop :=
  take m (txs w') = take m (txs w) /\
  opsFrom m w' = opsFrom m w ++ ops /\
  trace w' = trace w ++ evs.

(** The two operations of one scheduling. *)
Definition scheduleOps (rc : fields.RC) (node : NodeName) : list KVTxnOp :=
  [ OpSetLabels (labels.MakePodLabelKey node (manifest.ID (fields.Manifest rc)))
      (computePodLabels rc);
    OpSetPod INTENT_TREE node (fields.Manifest rc) ].

(** The two operations of one unscheduling. *)
Definition unscheduleOps (rc : fields.RC) (node : NodeName) : list KVTxnOp :=
  [ OpDeletePod INTENT_TREE node (manifest.ID (fields.Manifest rc));
    OpRemoveLabels (labels.MakePodLabelKey node (manifest.ID (fields.Manifest rc)))
      (map_to_list (computePodLabels rc)).*1 ].

Definition auditOnly (ops : list KVTxnOp) : Prop :=
  Forall (fun op => isAuditLog op = true) ops.

(** [ensureConsistency] rewrites a placement whose stored intent is absent
    or hashes to something else than the RC's manifest does; [stored] is what
    the intent store answers for a node and a pod. *)
Definition stale (rc : fields.RC)
    (stored : NodeName -> PodID -> option manifest.Manifest * option error)
    (pod : PodLocation) : bool :=
  match (stored (Node pod) (PodID_ pod)).1 with
  | Some m => negb (String.eqb (manifest.SHA m).1 (manifest.SHA (fields.Manifest rc)).1)
  | None => true
  end.

Definition repair (rc : fields.RC)
    (stored : NodeName -> PodID -> option manifest.Manifest * option error)
    (pod : PodLocation) : list KVTxnOp :=
  if stale rc stored pod then scheduleOps rc (Node pod) else [].

(** From [w] to [w'], every operation that has appeared in a transaction
    satisfies [P]. *)
Definition grows (P : KVTxnOp -> Prop) (w w' : World) : Prop :=
  forall op, op ∈ opsFrom 0 w' -> op ∈ opsFrom 0 w \/ P op.

(** A label write carries exactly the computed pod labels. *)
Definition writesPodLabels (rc : fields.RC) (op : KVTxnOp) : Prop :=
  forall key lbls, op = OpSetLabels key lbls -> lbls = computePodLabels rc.

(** The store takes a transaction: no transport error, no rollback. *)
Definition accepts (r : transaction.TxnReply) : Prop :=
  transaction.reply_ok r = true /\ transaction.reply_err r = None.

Definition replyTuple (r : transaction.TxnReply) : bool * list string * option error :=
  (transaction.reply_ok r, transaction.reply_errors r, transaction.reply_err r).

(** The store of [TestCommitWithRetriesRetriesErrorsUntilCanceled]: every
    call fails ([signalingTxner] with [shouldErr]). *)
Definition alwaysErr (n : nat) : transaction.TxnReply :=
  {| transaction.reply_ok := false; transaction.reply_errors := [];
     transaction.reply_err := Some (ErrExternal "a test error occurred") |}.

(** The context is cancelled once two calls have been seen. *)
Definition cancelledAfterTwo (n : nat) : bool := (1 <=? n)%nat.

(** ** A small fleet, for the concrete runs

    One RC, "rc1", for the pod "web"; a store that accepts every
    transaction; an alerter that works; a label store and a scheduler that
    answer with the given current and eligible nodes; an intent store that
    answers with [stored]; a status store that answers with [status]. *)

Module fleet.
Definition web (sha : string) : manifest.Manifest :=
  {| manifest.ID := "web"; manifest.SHA := (sha, None) |}.

Definition rc1 (desired : Z) (disabled : bool) (strategy : fields.Strategy) : fields.RC :=
  {| fields.ID := "rc1";
     fields.Manifest := web "aaa";
     fields.NodeSelector := "role=web";
     fields.PodLabels := {[ "team" := "infra"; "pod_id" := "mine" ]};
     fields.ReplicasDesired := desired;
     fields.Disabled := disabled;
     fields.AllocationStrategy := strategy |}.

Definition accepted : transaction.TxnReply :=
  {| transaction.reply_ok := true; transaction.reply_errors := [];
     transaction.reply_err := None |}.

Definition on (nodes : list NodeName) : PodLocations :=
  map (fun n => {| Node := n; PodID_ := "web" |}) nodes.

Definition env1 (current eligible : list NodeName)
    (stored : NodeName -> option manifest.Manifest * option error)
    (status : rcstatus.Status * option error) : Env :=
  {| hostname := "rc-host";
     txn_reply := fun _ _ => accepted;
     pod_reply := fun _ _ node _ => stored node;
     matches_reply := fun _ _ => (map inl (on current), None);
     eligible_reply := fun _ => (eligible, None);
     allocate_reply := fun _ _ => (["n9"], None);
     deallocate_reply := fun _ _ => None;
     status_reply := fun _ _ => status;
     alert_reply := fun _ _ => None;
     pick := fun _ => 0%nat |}.

Definition noStatus : rcstatus.Status * option error :=
  ({| rcstatus.NodeTransfer_ := None |}, Some NoStatus).

(** A transfer from n1 to n9 has begun. *)
Definition transferring : rcstatus.Status * option error :=
  ({| rcstatus.NodeTransfer_ :=
        Some {| rcstatus.OldNode := "n1"; rcstatus.NewNode := "n9" |} |}, None).

Definition consistent (node : NodeName) : option manifest.Manifest * option error :=
  (Some (web "aaa"), None).

(** The intent stored on n1 is of another version; the other nodes hold
    the RC's manifest. *)
Definition outdatedOnN1 (node : NodeName) : option manifest.Manifest * option error :=
  if String.eqb node "n1" then (Some (web "bbb"), None) else (Some (web "aaa"), None).

Definition start : World := {| txs := []; trace := []; cancelled := [] |}.
End fleet.

(** ** Vocabulary of the further properties *)

(** An operation that takes a pod off a node: an intent-delete or a
    label-remove. *)
Definition isRemoval (op : KVTxnOp) : bool :=
  match op with
  | OpDeletePod _ _ _ | OpRemoveLabels _ _ => true
  | _ => false
  end.

Definition isStatusWrite (op : KVTxnOp) : bool :=
  match op with OpCASStatus _ _ _ => true | _ => false end.

(** Every call to the store among [evs] carries at most [k] operations. *)
Definition txnsWithin (k : nat) (evs : list Event) : Prop :=
  Forall (fun e => match e with
                   | EvTxn ops => (length ops <= k)%nat
                   | _ => True
                   end) evs.

(** Nothing among [evs] reaches the store, the alerter or the scheduler's
    allocation: only log lines and reads. *)
Definition quiet (e : Event) : bool :=
  match e with
  | EvLog _ | EvPod _ _ _ | EvGetMatches _ | EvEligibleNodes | EvStatusGet _ => true
  | EvTxn _ | EvAlert _ | EvAllocateNodes _ | EvDeallocateNodes _ => false
  end.

(** * Properties *)

(** ** The transaction buffer *)

Section transaction_facts.
Import transaction.

Lemma lookup_last_tx (h : list tx) (t : tx) : (h ++ [t]) !! length h = Some t.
Proof. by apply list_lookup_middle. Qed.

Lemma insert_last_tx (h : list tx) (t t' : tx) :
  <[ length h := t' ]> (h ++ [t]) = h ++ [t'].
Proof.
  rewrite insert_app_r_alt by lia. by rewrite Nat.sub_diag.
Qed.

Lemma Add_last p (h : list tx) (t : tx) op :
  Add (WithTxn p (length h)) op (h ++ [t]) =
    if alreadyCommitted t then (Some ErrAlreadyCommitted, h ++ [t])
    else if (64 <=? length (kvOps t))%nat then (Some ErrTooManyOperations, h ++ [t])
    else (None, h ++ [ {| kvOps := kvOps t ++ [op]; alreadyCommitted := false |} ]).
Proof.
  unfold Add. rewrite lookup_last_tx.
  destruct (alreadyCommitted t); [done|].
  destruct (64 <=? length (kvOps t))%nat; [done|].
  by rewrite insert_last_tx.
Qed.

Lemma addEach_last p (h : list tx) (ops : list KVTxnOp) : forall t : tx,
  alreadyCommitted t = false ->
  (addEach (WithTxn p (length h)) ops (h ++ [t])).1 =
    replicate (min (64 - length (kvOps t)) (length ops)) None
    ++ replicate (length ops - (64 - length (kvOps t))) (Some ErrTooManyOperations).
Proof.
  induction ops as [|op ops IH]; intros t Hc; cbn [addEach length].
  - by rewrite Nat.min_0_r.
  - rewrite Add_last, Hc.
    destruct (64 <=? length (kvOps t))%nat eqn:Hfull.
    + apply Nat.leb_le in Hfull.
      specialize (IH t Hc).
      destruct (addEach _ ops _) as [rs h']. cbn [fst] in *. rewrite IH.
      replace (64 - length (kvOps t))%nat with 0%nat by lia.
      cbn. by rewrite Nat.sub_0_r.
    + apply Nat.leb_gt in Hfull.
      specialize (IH {| kvOps := kvOps t ++ [op]; alreadyCommitted := false |} eq_refl).
      destruct (addEach _ ops _) as [rs h']. cbn [fst kvOps] in *. rewrite IH.
      rewrite length_app. cbn [length].
      replace (64 - length (kvOps t))%nat with (S (64 - (length (kvOps t) + 1))) by lia.
      rewrite <- Nat.succ_min_distr. cbn [replicate Nat.sub]. done.
Qed.

(** C6. On a transaction freshly created from [context.Background()], in
    any store, a sequence of [Add] calls succeeds for its first 64 calls and
    fails with [TooManyOperations] for every call after them: the 65th call
    is the first to fail. *)
Theorem Add_succeeds_up_to_64 (h : list tx) (ops : list KVTxnOp) :
  let '(ctx, h0) := New Background h in
  opCount ctx h0 = Some 0%nat /\
  (addEach ctx ops h0).1 =
    replicate (min 64 (length ops)) None
    ++ replicate (length ops - 64) (Some ErrTooManyOperations).
Proof.
  unfold New. cbn [getTxnFromContext]. split.
  - unfold opCount, getTxnFromContext. by rewrite lookup_last_tx.
  - by rewrite addEach_last.
Qed.

(** The tests of the package pass on this embedding. *)
Lemma TestAdd_passes : transaction_test.TestAdd = [].
Proof. vm_compute. reflexivity. Qed.

Lemma TestMustCommitHappy_passes : transaction_test.TestMustCommitHappy = [].
Proof. vm_compute. reflexivity. Qed.

Lemma TesetErrAlreadyMustCommitted_passes :
  transaction_test.TesetErrAlreadyMustCommitted = [].
Proof. vm_compute. reflexivity. Qed.

Lemma TestMustCommitErrNoTransaction_passes :
  transaction_test.TestMustCommitErrNoTransaction = [].
Proof. vm_compute. reflexivity. Qed.

Lemma TestMustCommitTransactionWithNoOperations_passes :
  transaction_test.TestMustCommitTransactionWithNoOperations = [].
Proof. vm_compute. reflexivity. Qed.

Lemma TestErrAddingToCommittedTransaction_passes :
  transaction_test.TestErrAddingToCommittedTransaction = [].
Proof. vm_compute. reflexivity. Qed.

Lemma TestContextInheritsOperations_passes :
  transaction_test.TestContextInheritsOperations New = [].
Proof. vm_compute. reflexivity. Qed.

(** With a [New] that hands the parent's buffer to the derived context, the
    test reports that "the original ctx inherited operations from the 2nd
    one", and the two counts it expects at its end. *)
Lemma TestContextInheritsOperations_fails_when_sharing :
  transaction_test.TestContextInheritsOperations New_sharing =
    ["the original ctx inherited operations from the 2nd one";
     "expected 3 operations on original tx";
     "expected 2 operations on original tx"].
Proof. vm_compute. reflexivity. Qed.

Lemma Add_other_location p l op (h : list tx) (l' : nat) :
  l <> l' -> (Add (WithTxn p l) op h).2 !! l' = h !! l'.
Proof.
  intros Hne. unfold Add.
  destruct (h !! l) as [t|] eqn:Hl; [|done].
  destruct (alreadyCommitted t); [done|].
  destruct (64 <=? length (kvOps t))%nat; [done|].
  cbn [snd]. by rewrite list_lookup_insert_ne.
Qed.

Lemma Add_opCount ctx op (h h' : list tx) :
  Add ctx op h = (None, h') ->
  exists n, opCount ctx h = Some n /\ opCount ctx h' = Some (S n).
Proof.
  unfold Add, opCount, getTxnFromContext.
  destruct ctx as [|p l]; [done|].
  destruct (h !! l) as [t|] eqn:Hl; [|done].
  destruct (alreadyCommitted t); [done|].
  destruct (64 <=? length (kvOps t))%nat; [done|].
  intros [= <-]. exists (length (kvOps t)). split; [done|].
  rewrite list_lookup_insert_eq by (by eapply lookup_lt_Some).
  cbn [kvOps]. rewrite length_app. cbn [length]. f_equal. lia.
Qed.

(** C1, as stated, fails on the run of [TestContextInheritsOperations]:
    after one [Add] through [ctx], the derivation of [ctx2] from it and one
    [Add] through [ctx2], the derived context shows two operations and the
    original one still shows one. *)
Lemma derived_context_counts_diverge :
  let '(ctx, h) := New Background [] in
  let '(_, h) := Add ctx OpEmpty h in
  let '(ctx2, h) := New ctx h in
  let '(_, h) := Add ctx2 OpEmpty h in
  opCount ctx2 h = Some 2%nat /\ opCount ctx h = Some 1%nat /\
  opCount ctx h <> opCount ctx2 h.
Proof. vm_compute. repeat split; congruence. Qed.

(** C1, amended. A context derived from a parent that carries a transaction
    with [k] operations starts with its own copy of them: right after the
    derivation both contexts show [k] operations; from then on, in whatever
    state the store is, an [Add] through one of the two contexts leaves the
    count seen through the other unchanged, and a successful [Add] raises
    the count seen through the context it went through by one. *)
Theorem derived_context_copies (h : list tx) (parent : Context) (k : nat) :
  opCount parent h = Some k ->
  let '(child, h1) := New parent h in
  opCount child h1 = Some k /\ opCount parent h1 = Some k /\
  forall (h2 : list tx) (op : KVTxnOp),
    opCount parent (Add child op h2).2 = opCount parent h2 /\
    opCount child (Add parent op h2).2 = opCount child h2 /\
    (forall h3, Add child op h2 = (None, h3) ->
       exists n, opCount child h2 = Some n /\ opCount child h3 = Some (S n)) /\
    (forall h3, Add parent op h2 = (None, h3) ->
       exists n, opCount parent h2 = Some n /\ opCount parent h3 = Some (S n)).
Proof.
  unfold opCount at 1. unfold getTxnFromContext.
  destruct parent as [|p l]; [done|].
  destruct (h !! l) as [t|] eqn:Hl; [|done].
  intros [= <-]. unfold New, getTxnFromContext. rewrite Hl.
  assert (l < length h)%nat as Hlt by (by eapply lookup_lt_Some).
  split; [|split].
  - unfold opCount, getTxnFromContext. by rewrite lookup_last_tx.
  - unfold opCount, getTxnFromContext. rewrite lookup_app_l by done. by rewrite Hl.
  - intros h2 op. repeat split.
    + unfold opCount, getTxnFromContext. rewrite Add_other_location by lia. done.
    + unfold opCount, getTxnFromContext. rewrite Add_other_location by lia. done.
    + intros h3. apply Add_opCount.
    + intros h3. apply Add_opCount.
Qed.

(** The amended claim on the store of the test: [ctx] carries one operation
    when [ctx2] is derived from it. *)
Lemma derived_context_copies_witness :
  let h := [ {| kvOps := [OpEmpty]; alreadyCommitted := false |} ] in
  let parent := WithTxn Background 0 in
  opCount parent h = Some 1%nat /\
  let '(child, h1) := New parent h in
  opCount child h1 = Some 1%nat /\ opCount parent h1 = Some 1%nat /\
  forall (h2 : list tx) (op : KVTxnOp),
    opCount parent (Add child op h2).2 = opCount parent h2 /\
    opCount child (Add parent op h2).2 = opCount child h2 /\
    (forall h3, Add child op h2 = (None, h3) ->
       exists n, opCount child h2 = Some n /\ opCount child h3 = Some (S n)) /\
    (forall h3, Add parent op h2 = (None, h3) ->
       exists n, opCount parent h2 = Some n /\ opCount parent h3 = Some (S n)).
Proof.
  split; [reflexivity|].
  apply (derived_context_copies
           [ {| kvOps := [OpEmpty]; alreadyCommitted := false |} ]
           (WithTxn Background 0) 1).
  reflexivity.
Defined.

(** The retry loop against a scripted store, started at call number [j]. *)
Lemma retry_scripted (replies : nat -> TxnReply) (done : nat -> bool)
    (ops : list KVTxnOp) (n : nat) : forall (j fuel : nat),
  (forall m, (j <= m < j + n)%nat -> reply_err (replies m) <> None /\ done m = false) ->
  (reply_err (replies (j + n)) = None \/ done (j + n) = true) ->
  (n < fuel)%nat ->
  retry fuel (scripted replies) done ops j j =
    Some (match reply_err (replies (j + n)) with
          | None => (reply_ok (replies (j + n)), reply_errors (replies (j + n)), None)
          | Some e => (false, [], Some e)
          end, S (j + n)).
Proof.
  induction n as [|n IH]; intros j fuel Hbefore Hstop Hfuel.
  - destruct fuel as [|fuel]; [lia|].
    rewrite Nat.add_0_r in *. cbn [retry scripted Txn].
    destruct (reply_err (replies j)) as [e|] eqn:He; [|done].
    destruct Hstop as [Hs|Hs]; [done|by rewrite Hs].
  - destruct fuel as [|fuel]; [lia|].
    cbn [retry scripted Txn].
    destruct (Hbefore j ltac:(lia)) as [He Hd].
    destruct (reply_err (replies j)) as [e|]; [|done].
    rewrite Hd.
    replace (j + S n)%nat with (S j + n)%nat in * by lia.
    apply IH; [|done|lia].
    intros m Hm. apply Hbefore. lia.
Qed.

(** C5. Against a store that answers its calls as scripted, for a context
    that carries an uncommitted transaction: let call number [n] (from 0) be
    the first one that either comes back without a transport error (success
    or rollback) or is followed by a wait that finds the context cancelled,
    every call before it failing in transport with the context still live.
    Then [CommitWithRetries] returns, having made exactly [n + 1] calls: at
    least one, none after the call that succeeded or rolled back, a further
    call only after a transport error, and none after the wait that saw the
    cancellation. It returns the store's [ok] and no error in the first
    case, and [ok = false] with the last transport error in the second. *)
Theorem CommitWithRetries_calls (replies : nat -> TxnReply) (done : nat -> bool)
    (ctx : Context) (h : list tx) (t : tx) (n fuel : nat) :
  getTxnFromContext ctx h = (Some t, None) ->
  alreadyCommitted t = false ->
  (forall m, (m < n)%nat -> reply_err (replies m) <> None /\ done m = false) ->
  (reply_err (replies n) = None \/ done n = true) ->
  (n < fuel)%nat ->
  CommitWithRetries fuel ctx (scripted replies) done h 0 =
    Some (match reply_err (replies n) with
          | None => (reply_ok (replies n), reply_errors (replies n), None)
          | Some e => (false, [], Some e)
          end, markCommitted ctx h, S n).
Proof.
  intros Hctx Hopen Hbefore Hstop Hfuel.
  unfold CommitWithRetries. rewrite Hctx, Hopen.
  rewrite (retry_scripted replies done (kvOps t) n 0 fuel); [done| |done|done].
  intros m Hm. apply Hbefore. lia.
Qed.

(** The run of [TestCommitWithRetriesRetriesErrorsUntilCanceled]: one
    operation in the buffer, a store that always fails, a cancellation after
    the second call. *)
Lemma CommitWithRetries_calls_witness :
  let ctx := WithTxn Background 0 in
  let h := [ {| kvOps := [OpVerb "cas"]; alreadyCommitted := false |} ] in
  CommitWithRetries 5 ctx (scripted alwaysErr) cancelledAfterTwo h 0 =
    Some ((false, [], Some (ErrExternal "a test error occurred")),
          markCommitted ctx h, 2%nat).
Proof.
  apply (CommitWithRetries_calls alwaysErr cancelledAfterTwo
           (WithTxn Background 0)
           [ {| kvOps := [OpVerb "cas"]; alreadyCommitted := false |} ]
           {| kvOps := [OpVerb "cas"]; alreadyCommitted := false |} 1 5).
  - reflexivity.
  - reflexivity.
  - intros m Hm. assert (m = 0%nat) as -> by lia. split; [discriminate|reflexivity].
  - right. reflexivity.
  - lia.
Defined.

End transaction_facts.

(** ** Steps of the world *)

Section world_facts.
Import transaction.
Variable env : Env.

Lemma step_refl m w : step m w w [] [].
Proof. unfold step. by rewrite !app_nil_r. Qed.

Lemma step_trans m w1 w2 w3 ops1 ops2 evs1 evs2 :
  step m w1 w2 ops1 evs1 -> step m w2 w3 ops2 evs2 ->
  step m w1 w3 (ops1 ++ ops2) (evs1 ++ evs2).
Proof.
  intros (Ha & Hb & Hc) (Ha' & Hb' & Hc'). unfold step.
  rewrite Ha', Ha, Hb', Hb, Hc', Hc, !app_assoc. done.
Qed.

Lemma emit_step m e w : step m w (emit e w) [] [e].
Proof. unfold step, emit, opsFrom. cbn. by rewrite app_nil_r. Qed.

Lemma emit_Cur m ctx e w t : Cur m ctx w t -> Cur m ctx (emit e w) t.
Proof. done. Qed.

Lemma cancelFunc_step m ctx w : step m w (cancelFunc ctx w) [] [].
Proof. destruct ctx; unfold step, opsFrom; cbn; by rewrite !app_nil_r. Qed.

Lemma cancelFunc_Cur m ctx ctx' w t : Cur m ctx w t -> Cur m ctx (cancelFunc ctx' w) t.
Proof. by destruct ctx'. Qed.

Lemma opsFrom_last m (h : list tx) (t : tx) tr c :
  (m <= length h)%nat ->
  opsFrom m {| txs := h ++ [t]; trace := tr; cancelled := c |}
  = (drop m h ≫= kvOps) ++ kvOps t.
Proof.
  intros Hm. unfold opsFrom. cbn [txs].
  rewrite drop_app_le by done. rewrite bind_app. cbn. by rewrite app_nil_r.
Qed.

(** An append through the current context. *)
Lemma addOp_Cur m ctx op w t r w' :
  Cur m ctx w t -> addOp ctx op w = (r, w') ->
  (alreadyCommitted t = false /\ (length (kvOps t) < 64)%nat /\ r = None /\
   Cur m ctx w' {| kvOps := kvOps t ++ [op]; alreadyCommitted := false |} /\
   step m w w' [op] [])
  \/ ((alreadyCommitted t = true \/ (64 <= length (kvOps t))%nat) /\ r <> None /\ w' = w).
Proof.
  intros (h & p & Hw & -> & Hm). unfold addOp. destruct w as [hs tr c].
  cbn in Hw. subst hs. cbn [txs]. rewrite Add_last.
  destruct (alreadyCommitted t) eqn:Hc.
  { intros [= <- <-]. right. split; [by left|]. split; [done|]. done. }
  destruct (64 <=? length (kvOps t))%nat eqn:Hfull.
  { intros [= <- <-]. right. apply Nat.leb_le in Hfull.
    split; [by right|]. split; [done|]. done. }
  apply Nat.leb_gt in Hfull. intros [= <- <-]. left.
  split; [done|]. split; [done|]. split; [done|]. split.
  - exists h, p. done.
  - unfold step, setTxs. cbn [txs trace].
    rewrite !opsFrom_last by done. cbn [kvOps].
    rewrite !take_app_le by done. rewrite app_nil_r, app_assoc. done.
Qed.

Lemma markCommitted_last p (h : list tx) (t : tx) :
  markCommitted (WithTxn p (length h)) (h ++ [t])
  = h ++ [ {| kvOps := kvOps t; alreadyCommitted := true |} ].
Proof. unfold markCommitted. rewrite lookup_last_tx. by rewrite insert_last_tx. Qed.

(** A commit of the current context: refused when it is already committed;
    otherwise the transaction is committed, and its operations are sent
    unless there are none. *)
Lemma transaction_Commit_Cur m ctx w t r w' :
  Cur m ctx w t -> transaction_Commit env ctx w = (r, w') ->
  (alreadyCommitted t = true /\ r = (false, [], Some ErrAlreadyCommitted) /\ w' = w)
  \/ (alreadyCommitted t = false /\
      Cur m ctx w' {| kvOps := kvOps t; alreadyCommitted := true |} /\
      ((kvOps t = [] /\ r = (true, [], None) /\ step m w w' [] [])
       \/ (kvOps t <> [] /\ r = replyTuple (txn_reply env (trace w) (kvOps t)) /\
           step m w w' [] [EvTxn (kvOps t)]))).
Proof.
  intros (h & p & Hw & -> & Hm). unfold transaction_Commit, Commit.
  destruct w as [hs tr c]. cbn in Hw. subst hs. cbn [txs trace cancelled].
  unfold getTxnFromContext. rewrite lookup_last_tx.
  destruct (alreadyCommitted t) eqn:Hc.
  { intros [= <- <-]. by left. }
  intros Heq. right. split; [done|].
  assert (forall tr', step m {| txs := h ++ [t]; trace := tr; cancelled := c |}
            {| txs := h ++ [ {| kvOps := kvOps t; alreadyCommitted := true |} ];
               trace := tr ++ tr'; cancelled := c |} [] tr') as Hstep.
  { intros tr'. unfold step. cbn [txs trace]. rewrite !opsFrom_last by done.
    rewrite !take_app_le by done. by rewrite app_nil_r. }
  rewrite markCommitted_last in Heq.
  destruct (kvOps t) as [|op ops] eqn:Hops; cbn in Heq; injection Heq as <- <-.
  - split; [by exists h, p|].
    left. split; [done|]. split; [done|].
    specialize (Hstep []). by rewrite app_nil_r in Hstep.
  - split; [by exists h, p|].
    right. split; [done|]. split; [done|]. apply Hstep.
Qed.

(** A fresh transaction from [context.Background()]. *)
Lemma transaction_New_Cur m w ctx w' :
  (m <= length (txs w))%nat ->
  transaction_New Background w = (ctx, w') ->
  Cur m ctx w' {| kvOps := []; alreadyCommitted := false |} /\ step m w w' [] [].
Proof.
  intros Hm. unfold transaction_New, New. cbn [getTxnFromContext].
  intros [= <- <-]. split.
  - exists (txs w), Background. done.
  - unfold step, setTxs, opsFrom. cbn [txs trace].
    rewrite take_app_le by done. rewrite drop_app_le by done.
    rewrite bind_app. cbn. by rewrite !app_nil_r.
Qed.

Lemma Cur_length m ctx w t : Cur m ctx w t -> (m <= length (txs w))%nat.
Proof. intros (h & p & -> & _ & Hm). rewrite length_app. lia. Qed.

End world_facts.

(** ** Steps of the controller *)

Section controller_facts.
Import transaction.
Variable rc : fields.RC.
Variable env : Env.

(** Two appends in a row, the second only if the first succeeded: the shape
    of [scheduleNoAudit] and [unschedule]. *)
Lemma two_appends m ctx op1 op2 w t r w' :
  Cur m ctx w t ->
  (match addOp ctx op1 w with
   | (Some err, w) => (Some err, w)
   | (None, w) => addOp ctx op2 w
   end) = (r, w') ->
  exists t' ops, Cur m ctx w' t' /\ step m w w' ops [] /\
    kvOps t' = kvOps t ++ ops /\
    ((r = None /\ ops = [op1; op2] /\ alreadyCommitted t' = false)
     \/ (r <> None /\ (ops = [] \/ ops = [op1]))) /\
    (alreadyCommitted t = false -> (length (kvOps t) + 2 <= 64)%nat -> r = None).
Proof.
  intros HC. destruct (addOp ctx op1 w) as [r1 w1] eqn:E1.
  destruct (addOp_Cur _ _ _ _ _ _ _ HC E1)
    as [(Hopen & Hlen & -> & HC1 & Hs1)|(Hfull & Hr1 & ->)].
  - intros E2.
    destruct (addOp_Cur _ _ _ _ _ _ _ HC1 E2)
      as [(_ & Hlen2 & -> & HC2 & Hs2)|(Hfull & Hr2 & ->)].
    + eexists _, [op1; op2]. split; [exact HC2|]. split.
      { apply (step_trans _ _ _ _ _ _ _ _ Hs1 Hs2). }
      split; [cbn; by rewrite <- app_assoc|]. split; [by left|]. done.
    + eexists _, [op1]. split; [exact HC1|]. split; [done|].
      split; [done|]. split; [right; split; [done|by right]|].
      intros _ Hle. cbn in Hfull. rewrite length_app in Hfull. cbn in Hfull.
      destruct Hfull as [?|?]; [done|lia].
  - destruct r1 as [e|]; [|done]. intros [= <- <-].
    exists t, []. split; [done|]. split; [apply step_refl|].
    split; [by rewrite app_nil_r|]. split; [right; split; [done|by left]|].
    intros Ho Hle. destruct Hfull as [?|?]; [congruence|lia].
Qed.

Lemma scheduleNoAudit_Cur m ctx node w t r w' :
  Cur m ctx w t -> scheduleNoAudit rc ctx node w = (r, w') ->
  exists t' ops, Cur m ctx w' t' /\
    step m w w' ops [EvLog (LogScheduling node)] /\
    kvOps t' = kvOps t ++ ops /\
    ((r = None /\ ops = scheduleOps rc node /\ alreadyCommitted t' = false)
     \/ (r <> None /\ (ops = [] \/ ops = [OpSetLabels
            (labels.MakePodLabelKey node (manifest.ID (fields.Manifest rc)))
            (computePodLabels rc)]))) /\
    (alreadyCommitted t = false -> (length (kvOps t) + 2 <= 64)%nat -> r = None).
Proof.
  intros HC. unfold scheduleNoAudit, SetLabelsTxn, SetPodTxn. intros E.
  pose proof (emit_Cur m ctx (EvLog (LogScheduling node)) w t HC) as HC0.
  destruct (two_appends _ _ _ _ _ _ _ _ HC0 E) as (t' & ops & HC' & Hs & Hk & Hr & Hok).
  exists t', ops. split; [done|]. split.
  { apply (step_trans _ _ _ _ _ _ _ _ (emit_step m _ w) Hs). }
  done.
Qed.

Lemma schedule_Cur m txn node w t r txn' w' :
  Cur m (at_ctx txn) w t -> schedule rc txn node w = (r, txn', w') ->
  at_ctx txn' = at_ctx txn /\
  exists t' ops, Cur m (at_ctx txn) w' t' /\
    step m w w' ops [EvLog (LogScheduling node)] /\
    kvOps t' = kvOps t ++ ops /\
    ((r = None /\ ops = scheduleOps rc node /\ alreadyCommitted t' = false)
     \/ (r <> None /\ intentWrites ops = [])) /\
    (alreadyCommitted t = false -> (length (kvOps t) + 2 <= 64)%nat -> r = None).
Proof.
  intros HC. unfold schedule, Context_.
  destruct (scheduleNoAudit rc (at_ctx txn) node w) as [r0 w0] eqn:E.
  destruct (scheduleNoAudit_Cur _ _ _ _ _ _ _ HC E)
    as (t' & ops & HC' & Hs & Hk & Hr & Hok).
  destruct r0 as [e|]; intros [= <- <- <-]; (split; [done|]);
    exists t', ops; (split; [done|]); (split; [done|]); (split; [done|]);
    (split; [|done]).
  - right. split; [done|].
    destruct Hr as [(? & _)|(_ & [->| ->])]; done.
  - left. destruct Hr as [(_ & ? & ?)|(? & _)]; done.
Qed.

Lemma unschedule_Cur m txn node w t r txn' w' :
  Cur m (at_ctx txn) w t -> unschedule rc txn node w = (r, txn', w') ->
  at_ctx txn' = at_ctx txn /\
  exists t' ops, Cur m (at_ctx txn) w' t' /\
    step m w w' ops [EvLog (LogUnscheduling node)] /\
    kvOps t' = kvOps t ++ ops /\
    ((r = None /\ ops = unscheduleOps rc node /\ alreadyCommitted t' = false)
     \/ (r <> None /\ (ops = [] \/
           ops = [OpDeletePod INTENT_TREE node (manifest.ID (fields.Manifest rc))]))).
Proof.
  intros HC. unfold unschedule, Context_, DeletePodTxn, RemoveLabelsTxn.
  set (w0 := logf (LogUnscheduling node) w).
  set (op1 := OpDeletePod INTENT_TREE node (manifest.ID (fields.Manifest rc))).
  set (op2 := OpRemoveLabels _ _).
  intros E.
  assert ((match addOp (at_ctx txn) op1 w0 with
           | (Some err, w) => (Some err, w)
           | (None, w) => addOp (at_ctx txn) op2 w
           end) = (r, w') /\ at_ctx txn' = at_ctx txn) as [E' Hctx].
  { destruct (addOp (at_ctx txn) op1 w0) as [[e|] w1]; [by injection E as <- <- <-|].
    destruct (addOp (at_ctx txn) op2 w1) as [[e|] w2]; by injection E as <- <- <-. }
  split; [done|].
  pose proof (emit_Cur m (at_ctx txn) (EvLog (LogUnscheduling node)) w t HC) as HC0.
  destruct (two_appends _ _ _ _ _ _ _ _ HC0 E') as (t' & ops & HC' & Hs & Hk & Hr & _).
  exists t', ops. split; [done|]. split.
  { apply (step_trans _ _ _ _ _ _ _ _ (emit_step m _ w) Hs). }
  split; [done|].
  destruct Hr as [(-> & -> & ?)|(? & ?)]; [by left|by right].
Qed.

Lemma newAuditingTransaction_Cur m nodes w txn w' :
  (m <= length (txs w))%nat ->
  newAuditingTransaction Background nodes w = (txn, w') ->
  Cur m (at_ctx txn) w' {| kvOps := []; alreadyCommitted := false |} /\
  step m w w' [] [] /\ at_start txn = nodes.
Proof.
  intros Hm. unfold newAuditingTransaction.
  destruct (transaction_New Background w) as [c w1] eqn:E.
  intros [= <- <-]. cbn.
  destruct (transaction_New_Cur m _ _ _ Hm E). done.
Qed.

(** The commit of an auditing transaction: the audit-log operation is
    appended, then everything is sent. *)
Lemma auditing_Commit_Cur m txn w t r w' :
  Cur m (at_ctx txn) w t ->
  auditing_Commit (fields.ID rc) env txn w = (r, w') ->
  let audit := OpAuditLog (fields.ID rc) (at_start txn) (Nodes_ txn) in
  exists t', Cur m (at_ctx txn) w' t' /\
    ((alreadyCommitted t = false /\ (length (kvOps t) < 64)%nat /\
      step m w w' [audit] [EvTxn (kvOps t ++ [audit])] /\
      r = replyTuple (txn_reply env (trace w) (kvOps t ++ [audit])))
     \/ ((alreadyCommitted t = true \/ (64 <= length (kvOps t))%nat) /\
         w' = w /\ exists e, r = (false, [], Some e))).
Proof.
  intros HC. unfold auditing_Commit.
  destruct (addOp _ _ w) as [r1 w1] eqn:E1.
  destruct (addOp_Cur _ _ _ _ _ _ _ HC E1)
    as [(Hopen & Hlen & -> & HC1 & Hs1)|(Hfull & Hr1 & ->)].
  - intros E2. cbn zeta.
    destruct (transaction_Commit_Cur env _ _ _ _ _ _ HC1 E2)
      as [(Hc & _)|(_ & HC2 & [(Hnil & _)|(_ & -> & Hs2)])].
    + done.
    + cbn in Hnil. by destruct (kvOps t).
    + eexists. split; [exact HC2|]. left. split; [done|]. split; [done|].
      cbn [kvOps] in *. split.
      * apply (step_trans _ _ _ _ _ _ _ _ Hs1 Hs2).
      * destruct Hs1 as (_ & _ & Htr). rewrite Htr, app_nil_r. done.
  - destruct r1 as [e|]; [|done]. intros [= <- <-]. cbn zeta.
    exists t. split; [done|]. right. split; [done|]. split; [done|]. by exists e.
Qed.

Lemma alertAndLog_Cur m ctx msg w t r w' :
  Cur m ctx w t -> alertAndLog rc env msg w = (r, w') ->
  Cur m ctx w' t /\
  exists logs, step m w w' [] (EvAlert (alertInfo rc env msg) :: logs) /\
    Forall (fun e => isAlert e = false /\ isTxn e = false) logs.
Proof.
  intros HC. unfold alertAndLog, Alert.
  destruct (alert_reply env (trace w) (alertInfo rc env msg)) as [e|];
    intros [= <- <-]; (split; [done|]).
  - exists [EvLog (LogUnableToSendAlert e)]. split.
    + eapply (step_trans _ _ _ _ [] [] [_] [_]); apply emit_step.
    + by repeat constructor.
  - exists []. split; [apply emit_step|constructor].
Qed.

Lemma auditOnly_intentWrites ops : auditOnly ops -> intentWrites ops = [].
Proof.
  induction 1 as [|op ops Hop _ IH]; [done|].
  unfold intentWrites in *. cbn. rewrite IH. by destruct op.
Qed.

Lemma auditOnly_intentDeletes ops : auditOnly ops -> intentDeletes ops = [].
Proof.
  induction 1 as [|op ops Hop _ IH]; [done|].
  unfold intentDeletes in *. cbn. rewrite IH. by destruct op.
Qed.

(** What a commit of the auditing transaction adds: at most the audit-log
    operation and one call to the store. *)
Lemma auditing_Commit_weak m txn w t r w' :
  Cur m (at_ctx txn) w t ->
  auditing_Commit (fields.ID rc) env txn w = (r, w') ->
  exists t' ops evs, Cur m (at_ctx txn) w' t' /\ step m w w' ops evs /\
    auditOnly ops /\ Forall (fun e => isAlert e = false) evs.
Proof.
  intros HC E.
  destruct (auditing_Commit_Cur _ _ _ _ _ _ HC E)
    as (t' & HC' & [(_ & _ & Hs & _)|(_ & -> & _)]).
  - eexists t', _, _. split; [done|]. split; [exact Hs|].
    split; by repeat constructor.
  - exists t', [], []. split; [done|]. split; [apply step_refl|].
    split; constructor.
Qed.

Lemma nextBatch_Cur m i txn w t :
  Cur m (at_ctx txn) w t ->
  match nextBatch rc env i txn w with
  | inl (_, w') =>
      exists t' ops evs, Cur m (at_ctx txn) w' t' /\ step m w w' ops evs /\
        auditOnly ops /\ Forall (fun e => isAlert e = false) evs
  | inr (txn', w') =>
      exists t' ops evs, Cur m (at_ctx txn') w' t' /\ step m w w' ops evs /\
        auditOnly ops /\ Forall (fun e => isAlert e = false) evs
  end.
Proof.
  intros HC. unfold nextBatch.
  destruct ((i `mod` 5 =? 0)%nat && (0 <? i)%nat).
  - destruct (auditing_Commit _ env txn w) as [r w1] eqn:E.
    destruct (auditing_Commit_weak _ _ _ _ _ _ HC E)
      as (t1 & ops & evs & HC1 & Hs1 & Ha & He).
    destruct (commitOutcome _ r) as [err|].
    + by exists t1, ops, evs.
    + destruct (newAuditingTransaction _ _ _) as [txn' w'] eqn:E'.
      apply (newAuditingTransaction_Cur m) in E' as (HC' & Hs' & _).
      * eexists _, (ops ++ []), (evs ++ []). split; [exact HC'|]. split.
        { eapply step_trans; [exact Hs1|].
          eapply (step_trans _ _ _ _ [] [] [] []); [apply cancelFunc_step|exact Hs']. }
        by rewrite !app_nil_r.
      * destruct (at_ctx txn); cbn; by eapply Cur_length.
  - exists t, [], []. split; [done|]. split; [apply step_refl|].
    split; constructor.
Qed.

(** The writes of the loop of [addPods]: intent is written on the
    candidates in their order, starting with the one at index [i]. *)
Lemma addPods_loop_writes m cn el (ps : list string) (n : nat) :
  forall (i : nat) txn w t,
  Cur m (at_ctx txn) w t ->
  match addPods_loop rc env cn el ps n i txn w with
  | (r, txn', w') =>
      exists t' ops evs, Cur m (at_ctx txn') w' t' /\ step m w w' ops evs /\
        intentWrites ops `prefix_of` drop i ps /\
        (r = None -> intentWrites ops = take n (drop i ps) /\
                     length (intentWrites ops) = n)
  end.
Proof.
  induction n as [|n IH]; intros i txn w t HC; cbn [addPods_loop].
  { exists t, [], []. split; [done|]. split; [apply step_refl|].
    split; [apply prefix_nil|]. done. }
  pose proof (nextBatch_Cur m i txn w t HC) as HB.
  destruct (nextBatch rc env i txn w) as [[err w1]|[txn1 w1]].
  { destruct HB as (t1 & ops & evs & HC1 & Hs1 & Ha & _).
    exists t1, ops, evs. split; [done|]. split; [done|].
    rewrite (auditOnly_intentWrites _ Ha). split; [apply prefix_nil|done]. }
  destruct HB as (t1 & ops1 & evs1 & HC1 & Hs1 & Ha1 & _).
  destruct (length ps <? i + 1)%nat eqn:Hlen.
  - destruct (alertAndLog rc env _ w1) as [ra w2] eqn:EA.
    destruct (alertAndLog_Cur m _ _ _ _ _ _ HC1 EA) as (HC2 & logs & Hs2 & _).
    destruct (auditing_Commit _ env txn1 w2) as [r w3] eqn:EC.
    destruct (auditing_Commit_weak _ _ _ _ _ _ HC2 EC)
      as (t3 & ops3 & evs3 & HC3 & Hs3 & Ha3 & _).
    assert (exists ops evs, step m w w3 ops evs /\ intentWrites ops = [])
      as (ops & evs & Hs & Hi).
    { eexists _, _. split.
      - eapply step_trans; [exact Hs1|]. eapply step_trans; [exact Hs2|exact Hs3].
      - unfold intentWrites. rewrite !omap_app.
        fold (intentWrites ops1). fold (intentWrites ops3).
        by rewrite (auditOnly_intentWrites _ Ha1), (auditOnly_intentWrites _ Ha3). }
    destruct (commitOutcome _ r); exists t3, ops, evs;
      (split; [done|]); (split; [done|]); rewrite Hi;
      (split; [apply prefix_nil|done]).
  - apply Nat.ltb_ge in Hlen.
    destruct (ps !! i) as [x|] eqn:Hx;
      [|apply lookup_ge_None in Hx; lia].
    cbn [default from_option id].
    destruct (schedule rc txn1 x w1) as [[rs txn2] w2] eqn:ES.
    destruct (schedule_Cur _ _ _ _ _ _ _ _ HC1 ES)
      as (Hctx & t2 & ops2 & HC2 & Hs2 & _ & Hr & _).
    rewrite <- Hctx in HC2.
    destruct Hr as [(-> & -> & _)|(Hr & Hi2)].
    + specialize (IH (S i) txn2 w2 t2 HC2).
      destruct (addPods_loop rc env cn el ps n (S i) txn2 w2) as [[r txn3] w3].
      destruct IH as (t3 & ops3 & evs3 & HC3 & Hs3 & Hp3 & Hok3).
      eexists t3, _, _. split; [done|]. split.
      { eapply step_trans; [exact Hs1|]. eapply step_trans; [exact Hs2|exact Hs3]. }
      assert (intentWrites (ops1 ++ scheduleOps rc x ++ ops3) = x :: intentWrites ops3)
        as ->.
      { unfold intentWrites. rewrite !omap_app. fold (intentWrites ops1).
        by rewrite (auditOnly_intentWrites _ Ha1). }
      rewrite (drop_S _ _ _ Hx). split.
      * by apply prefix_cons.
      * intros Hnone. destruct (Hok3 Hnone) as [Heq Hl]. rewrite Heq at 1.
        split; [done|]. cbn. by rewrite Hl.
    + destruct rs as [e|]; [|done].
      eexists t2, _, _. split; [done|]. split.
      { eapply step_trans; [exact Hs1|exact Hs2]. }
      assert (intentWrites (ops1 ++ ops2) = []) as ->.
      { unfold intentWrites. rewrite omap_app. fold (intentWrites ops1).
        fold (intentWrites ops2).
        by rewrite (auditOnly_intentWrites _ Ha1), Hi2. }
      split; [apply prefix_nil|done].
Qed.

Lemma ListNodes_spec (s : gset string) :
  (forall n, n ∈ ListNodes s <-> n ∈ s) /\ NoDup (ListNodes s) /\
  StronglySorted String.le (ListNodes s).
Proof.
  unfold ListNodes. split; [|split].
  - intros n. rewrite merge_sort_Permutation. apply elem_of_elements.
  - rewrite merge_sort_Permutation. apply NoDup_elements.
  - apply StronglySorted_merge_sort; apply _.
Qed.

Lemma opsFrom_all (w : World) : opsFrom (length (txs w)) w = [].
Proof. unfold opsFrom. by rewrite drop_all. Qed.

Lemma step_from_start (w w' : World) ops evs :
  step (length (txs w)) w w' ops evs ->
  opsFrom (length (txs w)) w' = ops /\ take (length (txs w)) (txs w') = txs w /\
  trace w' = trace w ++ evs.
Proof.
  intros (Ht & Ho & He). rewrite opsFrom_all in Ho.
  rewrite firstn_all in Ht. done.
Qed.

(** C7. In a pass of [addPods], the candidates are the eligible nodes that
    are not current ones, listed without repetition in increasing
    (lexicographic) order of hostname, and the [i]-th intent write of the
    pass is on the [i]-th candidate of that list. A pass that succeeds has
    made as many of them as there were pods to schedule. *)
Theorem addPods_sorted_order (current : PodLocations) (eligible : list NodeName)
    (w : World) :
  let candidates :=
    ListNodes (Difference (NewNodeSet eligible) (NewNodeSet (Nodes current))) in
  let '(err, w') := addPods rc env current eligible w in
  let scheduled := intentWrites (opsFrom (length (txs w)) w') in
  (forall n, n ∈ candidates <-> n ∈ eligible /\ n ∉ Nodes current) /\
  NoDup candidates /\ StronglySorted String.le candidates /\
  (forall i n, scheduled !! i = Some n -> candidates !! i = Some n) /\
  (err = None ->
   length scheduled =
     Z.to_nat (fields.ReplicasDesired rc - Z.of_nat (length (Nodes current)))).
Proof.
  intros candidates.
  destruct (ListNodes_spec (Difference (NewNodeSet eligible) (NewNodeSet (Nodes current))))
    as (Hin & Hnd & Hsorted). fold candidates in Hin, Hnd, Hsorted.
  assert (forall n, n ∈ candidates <-> n ∈ eligible /\ n ∉ Nodes current) as Hin'.
  { intros n. rewrite Hin. unfold Difference, NewNodeSet.
    rewrite elem_of_difference, !elem_of_list_to_set. done. }
  unfold addPods. fold candidates.
  set (n0 := Z.to_nat _).
  set (w0 := logf _ w).
  destruct (newAuditingTransaction Background (Nodes current) w0) as [txn w1] eqn:EN.
  apply (newAuditingTransaction_Cur (length (txs w))) in EN as (HC1 & Hs1 & _);
    [|done].
  pose proof (addPods_loop_writes (length (txs w)) (Nodes current) eligible
                candidates n0 0 txn w1 _ HC1) as HL.
  destruct (addPods_loop rc env (Nodes current) eligible candidates n0 0 txn w1)
    as [[r txn2] w2].
  destruct HL as (t2 & ops2 & evs2 & HC2 & Hs2 & Hpre & Hok).
  rewrite drop_0 in Hpre, Hok.
  pose proof (step_trans _ _ _ _ _ _ _ _ (emit_step (length (txs w)) _ w)
                (step_trans _ _ _ _ _ _ _ _ Hs1 Hs2)) as Hs.
  cbn [app] in Hs.
  destruct r as [e|].
  - apply (fun H => step_trans _ _ _ _ _ _ _ _ H (cancelFunc_step _ (at_ctx txn2) w2))
      in Hs.
    apply step_from_start in Hs as (-> & _ & _). rewrite app_nil_r.
    split; [done|]. split; [done|]. split; [done|]. split; [|done].
    intros i n Hi. by eapply prefix_lookup_Some.
  - destruct (auditing_Commit (fields.ID rc) env txn2 w2) as [rc3 w3] eqn:EC.
    destruct (auditing_Commit_weak _ _ _ _ _ _ HC2 EC)
      as (t3 & ops3 & evs3 & HC3 & Hs3 & Ha3 & _).
    pose proof (step_trans _ _ _ _ _ _ _ _
                  (step_trans _ _ _ _ _ _ _ _ Hs Hs3)
                  (cancelFunc_step _ (at_ctx txn2) w3)) as Hs'.
    apply step_from_start in Hs' as (-> & _ & _). rewrite app_nil_r.
    assert (intentWrites (ops2 ++ ops3) = intentWrites ops2) as ->.
    { unfold intentWrites. rewrite omap_app. fold (intentWrites ops3).
      by rewrite (auditOnly_intentWrites _ Ha3), app_nil_r. }
    split; [done|]. split; [done|]. split; [done|]. split.
    + intros i n Hi. by eapply prefix_lookup_Some.
    + intros _. by destruct (Hok eq_refl).
Qed.

Lemma PopAny_spec (k : nat) (s : gset string) :
  match PopAny k s with
  | ((n, true), s') => n ∈ s /\ s' = s ∖ {[ n ]}
  | ((_, false), s') => s = ∅ /\ s' = s
  end.
Proof.
  unfold PopAny.
  destruct (elements s !! (k `mod` length (elements s))%nat) as [n|] eqn:Hl.
  - split; [|done]. apply elem_of_elements. by eapply list_elem_of_lookup_2.
  - split; [|done]. apply lookup_ge_None in Hl.
    destruct (elements s) as [|x l] eqn:He.
    + apply leibniz_equiv. by apply elements_empty_inv.
    + pose proof (Nat.mod_upper_bound k (length (x :: l))) as Hb.
      cbn [length] in *. lia.
Qed.

(** The deletions of the loop of [removePods]: first on nodes of
    [preferred], then on nodes of [rest], and on one of [rest] only when all
    of [preferred] have had theirs. *)
Lemma removePods_loop_deletes m current (n : nat) :
  forall (i : nat) (preferred rest : gset string) txn w t,
  Cur m (at_ctx txn) w t ->
  match removePods_loop rc env current preferred rest n i txn w with
  | (r, txn', w') =>
      exists t' ops evs, Cur m (at_ctx txn') w' t' /\ step m w w' ops evs /\
        exists ps rs, intentDeletes ops = ps ++ rs /\
          (forall x, x ∈ ps -> x ∈ preferred) /\
          (forall x, x ∈ rs -> x ∈ rest) /\
          (rs <> [] -> forall x, x ∈ preferred -> x ∈ ps)
  end.
Proof.
  induction n as [|n IH]; intros i preferred rest txn w t HC; cbn [removePods_loop].
  { exists t, [], []. split; [done|]. split; [apply step_refl|].
    exists [], []. split; [done|]. split; [by intros ? ?%elem_of_nil|].
    split; [by intros ? ?%elem_of_nil|done]. }
  pose proof (nextBatch_Cur m i txn w t HC) as HB.
  destruct (nextBatch rc env i txn w) as [[err w1]|[txn1 w1]].
  { destruct HB as (t1 & ops & evs & HC1 & Hs1 & Ha & _).
    exists t1, ops, evs. split; [done|]. split; [done|].
    rewrite (auditOnly_intentDeletes _ Ha).
    exists [], []. split; [done|]. split; [by intros ? ?%elem_of_nil|].
    split; [by intros ? ?%elem_of_nil|done]. }
  destruct HB as (t1 & ops1 & evs1 & HC1 & Hs1 & Ha1 & _).
  (* which node is popped, and from which set *)
  pose proof (PopAny_spec (pick env (trace w1)) preferred) as HP.
  destruct (PopAny (pick env (trace w1)) preferred) as [[x1 ok1] preferred'].
  assert (forall x ok preferred' rest' (r : option error) txn2 w2,
            (ok = true ->
             (x ∈ preferred /\ preferred' = preferred ∖ {[ x ]} /\ rest' = rest)
             \/ (preferred = ∅ /\ preferred' = preferred /\ x ∈ rest
                 /\ rest' = rest ∖ {[ x ]})) ->
            (ok = false -> preferred = ∅) ->
            (if negb ok
             then
               let '(r, w) := auditing_Commit (fields.ID rc) env txn1 w1 in
               match commitOutcome "could not schedule pods" r with
               | Some err => (Some err, txn1, w)
               | None => (Some (Errorf (cannotUnschedule rc current)), txn1, w)
               end
             else
               match unschedule rc txn1 x w1 with
               | (Some err, txn, w) => (Some err, txn, w)
               | (None, txn, w) =>
                   removePods_loop rc env current preferred' rest' n (S i) txn w
               end) = (r, txn2, w2) ->
            exists t' ops evs, Cur m (at_ctx txn2) w2 t' /\ step m w w2 ops evs /\
              exists ps rs, intentDeletes ops = ps ++ rs /\
                (forall y, y ∈ ps -> y ∈ preferred) /\
                (forall y, y ∈ rs -> y ∈ rest) /\
                (rs <> [] -> forall y, y ∈ preferred -> y ∈ ps)) as Hbody.
  { intros x ok pref' rest' r txn2 w2 Hok Hno. destruct ok; cbn [negb].
    - (* unschedule x *)
      destruct (unschedule rc txn1 x w1) as [[ru txn3] w3] eqn:EU.
      destruct (unschedule_Cur _ _ _ _ _ _ _ _ HC1 EU)
        as (Hctx & t3 & ops3 & HC3 & Hs3 & _ & Hr).
      rewrite <- Hctx in HC3.
      assert (exists d, intentDeletes (ops1 ++ ops3) = d /\
                (d = [] \/ d = [x]) /\ (ru = None -> d = [x])) as (d & Hd & Hd' & Hdn).
      { unfold intentDeletes. rewrite omap_app. fold (intentDeletes ops1).
        rewrite (auditOnly_intentDeletes _ Ha1). eexists. split; [done|].
        destruct Hr as [(-> & -> & _)|(? & [->| ->])]; cbn; [by split; [right|]|..];
          (split; [auto|done]). }
      destruct ru as [e|].
      + intros [= <- <- <-]. exists t3, (ops1 ++ ops3), (evs1 ++ [EvLog (LogUnscheduling x)]).
        split; [done|]. split; [by eapply step_trans|]. rewrite Hd.
        destruct (Hok eq_refl) as [(Hx & _ & _)|(Hempty & _ & Hx & _)].
        * exists d, []. rewrite app_nil_r. split; [done|].
          split; [|split; [by intros ? ?%elem_of_nil|done]].
          intros y Hy. destruct Hd' as [->| ->]; [by apply elem_of_nil in Hy|].
          by apply list_elem_of_singleton in Hy as ->.
        * exists [], d. split; [done|]. split; [by intros ? ?%elem_of_nil|].
          split; [|intros _ y; rewrite Hempty; set_solver].
          intros y Hy. destruct Hd' as [->| ->]; [by apply elem_of_nil in Hy|].
          by apply list_elem_of_singleton in Hy as ->.
      + rewrite (Hdn eq_refl) in Hd. clear Hd' Hdn d. intros E.
        specialize (IH (S i) pref' rest' txn3 w3 t3 HC3). rewrite E in IH.
        destruct IH as (t4 & ops4 & evs4 & HC4 & Hs4 & ps & rs & Hi4 & Hps & Hrs & Hall).
        exists t4, ((ops1 ++ ops3) ++ ops4), ((evs1 ++ [EvLog (LogUnscheduling x)]) ++ evs4).
        split; [done|]. split.
        { eapply step_trans; [|exact Hs4]. by eapply step_trans. }
        unfold intentDeletes in *. rewrite omap_app, Hd, Hi4.
        destruct (Hok eq_refl) as [(Hx & -> & ->)|(Hempty & -> & Hx & ->)].
        * exists (x :: ps), rs. split; [done|]. split; [|split].
          -- intros y [->|Hy]%elem_of_cons; [done|].
             specialize (Hps y Hy). by apply elem_of_difference in Hps as [? _].
          -- done.
          -- intros Hne y Hy. destruct (decide (y = x)) as [->|Hneq];
               [by left|]. right. apply Hall; [done|].
             apply elem_of_difference. split; [done|]. by intros ?%elem_of_singleton.
        * assert (ps = []) as ->.
          { destruct ps as [|y ps]; [done|].
            specialize (Hps y ltac:(by left)). rewrite Hempty in Hps.
            by apply not_elem_of_empty in Hps. }
          exists [], (x :: rs). split; [done|].
          split; [by intros ? ?%elem_of_nil|]. split.
          -- intros y [->|Hy]%elem_of_cons; [done|].
             specialize (Hrs y Hy). by apply elem_of_difference in Hrs as [? _].
          -- intros _ y. rewrite Hempty. set_solver.
    - (* nothing left to pop *)
      destruct (auditing_Commit _ env txn1 w1) as [rc3 w3] eqn:EC.
      destruct (auditing_Commit_weak _ _ _ _ _ _ HC1 EC)
        as (t3 & ops3 & evs3 & HC3 & Hs3 & Ha3 & _).
      intros E.
      assert (txn2 = txn1 /\ w2 = w3) as [-> ->].
      { by destruct (commitOutcome _ rc3); injection E as <- <- <-. }
      exists t3, (ops1 ++ ops3), (evs1 ++ evs3).
      split; [done|]. split; [by eapply step_trans|].
      unfold intentDeletes. rewrite omap_app.
      fold (intentDeletes ops1). fold (intentDeletes ops3).
      rewrite (auditOnly_intentDeletes _ Ha1), (auditOnly_intentDeletes _ Ha3).
      exists [], []. split; [done|]. split; [by intros ? ?%elem_of_nil|].
      split; [by intros ? ?%elem_of_nil|done]. }
  destruct ok1.
  - destruct HP as [Hx ->].
    destruct (if negb true then _ else _) as [[r txn2] w2] eqn:E.
    eapply (Hbody x1 true _ rest); [|done|exact E]. intros _. by left.
  - destruct HP as [Hempty ->].
    pose proof (PopAny_spec (pick env (trace w1)) rest) as HP2.
    destruct (PopAny (pick env (trace w1)) rest) as [[x2 ok2] rest'].
    destruct (if negb ok2 then _ else _) as [[r txn2] w2] eqn:E.
    eapply (Hbody x2 ok2 preferred rest'); [| |exact E].
    + intros ->. destruct HP2 as [Hx ->]. by right.
    + done.
Qed.

(** C8. In a pass of [removePods] with a positive number of pods to
    remove: whenever the intent of a current node that is eligible is
    deleted, the intent of every current node that is not eligible has been
    deleted earlier in the pass. *)
Theorem removePods_prefers_ineligible (current : PodLocations)
    (eligible : list NodeName) (w : World) (p r : NodeName) (j : nat) :
  (0 < Z.of_nat (length current) - fields.ReplicasDesired rc)%Z ->
  p ∈ Nodes current -> p ∉ eligible ->
  r ∈ Nodes current -> r ∈ eligible ->
  intentDeletes (opsFrom (length (txs w)) (removePods rc env current eligible w).2) !! j
    = Some r ->
  exists i, (i < j)%nat /\
    intentDeletes (opsFrom (length (txs w)) (removePods rc env current eligible w).2) !! i
      = Some p.
Proof.
  intros _ Hp Hpe Hr Hre.
  unfold removePods.
  set (preferred := Difference (NewNodeSet (Nodes current)) (NewNodeSet eligible)).
  set (rest := Difference (NewNodeSet (Nodes current)) preferred).
  set (n0 := Z.to_nat _).
  set (w0 := logf _ w).
  assert (p ∈ preferred) as Hpp.
  { unfold preferred, Difference, NewNodeSet.
    rewrite elem_of_difference, !elem_of_list_to_set. done. }
  assert (r ∉ preferred) as Hrp.
  { unfold preferred, Difference, NewNodeSet.
    rewrite elem_of_difference, !elem_of_list_to_set. tauto. }
  destruct (newAuditingTransaction Background (Nodes current) w0) as [txn w1] eqn:EN.
  apply (newAuditingTransaction_Cur (length (txs w))) in EN as (HC1 & Hs1 & _);
    [|done].
  pose proof (removePods_loop_deletes (length (txs w)) current n0 0 preferred rest
                txn w1 _ HC1) as HL.
  destruct (removePods_loop rc env current preferred rest n0 0 txn w1)
    as [[res txn2] w2].
  destruct HL as (t2 & ops2 & evs2 & HC2 & Hs2 & ps & rs & Hd & Hps & Hrs & Hall).
  pose proof (step_trans _ _ _ _ _ _ _ _ (emit_step (length (txs w)) _ w)
                (step_trans _ _ _ _ _ _ _ _ Hs1 Hs2)) as Hs.
  cbn [app] in Hs.
  assert (exists w3, (match res with
            | Some err => (Some err, cancelFunc (at_ctx txn2) w2)
            | None =>
                let '(r, w) := auditing_Commit (fields.ID rc) env txn2 w2 in
                (commitOutcome "could not schedule pods" r, cancelFunc (at_ctx txn2) w)
            end).2 = w3 /\
            intentDeletes (opsFrom (length (txs w)) w3) = ps ++ rs)
    as (w3 & -> & Hw3).
  { destruct res as [e|].
    - cbn [snd]. eexists. split; [done|].
      apply (fun H => step_trans _ _ _ _ _ _ _ _ H (cancelFunc_step _ (at_ctx txn2) w2))
        in Hs.
      apply step_from_start in Hs as (-> & _ & _). by rewrite app_nil_r.
    - destruct (auditing_Commit (fields.ID rc) env txn2 w2) as [rc3 w3] eqn:EC.
      destruct (auditing_Commit_weak _ _ _ _ _ _ HC2 EC)
        as (t3 & ops3 & evs3 & HC3 & Hs3 & Ha3 & _).
      cbn [snd]. eexists. split; [done|].
      pose proof (step_trans _ _ _ _ _ _ _ _
                    (step_trans _ _ _ _ _ _ _ _ Hs Hs3)
                    (cancelFunc_step _ (at_ctx txn2) w3)) as Hs'.
      apply step_from_start in Hs' as (-> & _ & _). rewrite app_nil_r.
      unfold intentDeletes in *. rewrite omap_app, Hd.
      fold (intentDeletes ops3).
      by rewrite (auditOnly_intentDeletes _ Ha3), app_nil_r. }
  rewrite Hw3. intros Hj.
  apply lookup_app_Some in Hj as [Hj|[Hlen Hj]].
  { apply list_elem_of_lookup_2, Hps in Hj. done. }
  assert (rs <> []) as Hne by (intros ->; by rewrite lookup_nil in Hj).
  destruct (list_elem_of_lookup_1 _ _ (Hall Hne p Hpp)) as [i Hi].
  exists i. split.
  - apply lookup_lt_Some in Hi. lia.
  - by apply lookup_app_l_Some.
Qed.

Lemma transaction_Commit_weak m ctx w t r w' :
  Cur m ctx w t -> transaction_Commit env ctx w = (r, w') ->
  exists t' evs, Cur m ctx w' t' /\ step m w w' [] evs.
Proof.
  intros HC E.
  destruct (transaction_Commit_Cur env _ _ _ _ _ _ HC E)
    as [(_ & _ & ->)|(_ & HC' & [(_ & _ & Hs)|(_ & _ & Hs)])].
  - exists t, []. split; [done|apply step_refl].
  - by eexists _, _.
  - by eexists _, _.
Qed.

Lemma nextContext_Cur m i ctx w t :
  Cur m ctx w t ->
  match nextContext env i ctx w with
  | inl (_, w') => exists t' evs, Cur m ctx w' t' /\ step m w w' [] evs
  | inr (ctx', w') => exists t' evs, Cur m ctx' w' t' /\ step m w w' [] evs
  end.
Proof.
  intros HC. unfold nextContext.
  destruct ((i `mod` 5 =? 0)%nat && (0 <? i)%nat).
  - destruct (transaction_Commit env ctx w) as [r w1] eqn:E.
    destruct (transaction_Commit_weak _ _ _ _ _ _ HC E) as (t1 & evs & HC1 & Hs1).
    destruct (commitOutcome _ r) as [err|].
    + by exists t1, evs.
    + destruct (transaction_New Background (cancelFunc ctx w1)) as [ctx' w'] eqn:E'.
      apply (transaction_New_Cur m) in E' as (HC' & Hs').
      * eexists _, _. split; [exact HC'|].
        apply (step_trans _ _ _ _ _ _ _ _ Hs1
                 (step_trans _ _ _ _ _ _ _ _ (cancelFunc_step _ ctx w1) Hs')).
      * destruct ctx; cbn; by eapply Cur_length.
  - exists t, []. split; [done|apply step_refl].
Qed.

(** The writes of the loop of [ensureConsistency], when the intent store
    answers with [stored] throughout. *)
Lemma ensureConsistency_loop_writes m
    (stored : NodeName -> PodID -> option manifest.Manifest * option error)
    (pods : PodLocations) :
  (forall tr node pod, pod_reply env tr INTENT_TREE node pod = stored node pod) ->
  forall (i : nat) ctx w t,
  Cur m ctx w t ->
  match ensureConsistency_loop rc env (manifest.SHA (fields.Manifest rc)).1
          pods i ctx w with
  | (r, ctx', w') =>
      exists t' ops evs, Cur m ctx' w' t' /\ step m w w' ops evs /\
        ops `prefix_of` (pods ≫= repair rc stored) /\
        (r = None -> ops = pods ≫= repair rc stored)
  end.
Proof.
  intros Hstored.
  induction pods as [|pod pods IH]; intros i ctx w t HC; cbn [ensureConsistency_loop].
  { exists t, [], []. split; [done|]. split; [apply step_refl|]. done. }
  pose proof (nextContext_Cur m i ctx w t HC) as HB.
  destruct (nextContext env i ctx w) as [[err w1]|[ctx1 w1]].
  { destruct HB as (t1 & evs & HC1 & Hs1).
    exists t1, [], evs. split; [done|]. split; [done|].
    split; [apply prefix_nil|done]. }
  destruct HB as (t1 & evs1 & HC1 & Hs1).
  unfold Pod. rewrite Hstored.
  set (w2 := emit (EvPod INTENT_TREE (Node pod) (PodID_ pod)) w1).
  assert (Cur m ctx1 w2 t1) as HC2 by done.
  assert (step m w w2 [] (evs1 ++ [EvPod INTENT_TREE (Node pod) (PodID_ pod)])) as Hs2.
  { apply (step_trans _ _ _ _ [] [] _ _ Hs1). apply emit_step. }
  rewrite bind_cons.
  unfold repair at 1 3. unfold stale.
  destruct (stored (Node pod) (PodID_ pod)) as [intent err] eqn:Est. cbn [fst].
  destruct (match err with
            | Some e => negb (isNoCurrentManifest e)
            | None => false
            end) eqn:Hret.
  { exists t1, [], (evs1 ++ [EvPod INTENT_TREE (Node pod) (PodID_ pod)]).
    split; [done|]. split; [done|]. split; [apply prefix_nil|].
    intros ->. discriminate Hret. }
  (* the two ways the iteration can go on *)
  assert (forall w3 evs3, Cur m ctx1 w3 t1 -> step m w w3 [] evs3 ->
            match ensureConsistency_loop rc env (manifest.SHA (fields.Manifest rc)).1
                    pods (S i) ctx1 w3 with
            | (r, ctx', w') =>
                exists t' ops evs, Cur m ctx' w' t' /\ step m w w' ops evs /\
                  ops `prefix_of` ([] ++ pods ≫= repair rc stored) /\
                  (r = None -> ops = [] ++ pods ≫= repair rc stored)
            end) as Hskip.
  { intros w3 evs3 HC3 Hs3. specialize (IH (S i) ctx1 w3 t1 HC3).
    destruct (ensureConsistency_loop rc env _ pods (S i) ctx1 w3) as [[r ctx6] w6].
    destruct IH as (t6 & ops6 & evs6 & HC6 & Hs6 & Hp6 & Hok6).
    eexists t6, _, _. split; [done|]. split.
    { apply (step_trans _ _ _ _ _ _ _ _ Hs3 Hs6). }
    done. }
  assert (forall w3 evs3 intentSHA, Cur m ctx1 w3 t1 -> step m w w3 [] evs3 ->
            match
              (let (o, w5) := scheduleNoAudit rc ctx1 (Node pod)
                                (logf (LogInconsistency (Node pod) intentSHA) w3) in
               match o with
               | Some err0 => (Some err0, ctx1, cancelFunc ctx1 w5)
               | None =>
                   ensureConsistency_loop rc env (manifest.SHA (fields.Manifest rc)).1
                     pods (S i) ctx1 w5
               end)
            with
            | (r, ctx', w') =>
                exists t' ops evs, Cur m ctx' w' t' /\ step m w w' ops evs /\
                  ops `prefix_of` (scheduleOps rc (Node pod) ++ pods ≫= repair rc stored) /\
                  (r = None -> ops = scheduleOps rc (Node pod) ++ pods ≫= repair rc stored)
            end) as Hwrite.
  { intros w3 evs3 intentSHA HC3 Hs3.
    set (w4 := logf _ w3).
    destruct (scheduleNoAudit rc ctx1 (Node pod) w4) as [rs w5] eqn:ES.
    assert (Cur m ctx1 w4 t1) as HC4 by done.
    destruct (scheduleNoAudit_Cur _ _ _ _ _ _ _ HC4 ES)
      as (t5 & ops5 & HC5 & Hs5 & _ & Hr & _).
    assert (step m w w5 ops5 ((evs3 ++ [EvLog (LogInconsistency (Node pod) intentSHA)])
                              ++ [EvLog (LogScheduling (Node pod))])) as Hs.
    { apply (step_trans _ _ _ _ [] _ _ _
               (step_trans _ _ _ _ [] [] _ _ Hs3 (emit_step m _ w3)) Hs5). }
    destruct rs as [e|].
    + eexists t5, _, _. split; [by apply cancelFunc_Cur|]. split.
      { apply (step_trans _ _ _ _ _ _ _ _ Hs (cancelFunc_step _ ctx1 w5)). }
      rewrite app_nil_r. split; [|done].
      destruct Hr as [(? & _)|(_ & [->| ->])]; [done|apply prefix_nil|].
      unfold scheduleOps. cbn [app]. apply prefix_cons, prefix_nil.
    + destruct Hr as [(_ & -> & _)|(? & _)]; [|done].
      specialize (IH (S i) ctx1 w5 t5 HC5).
      destruct (ensureConsistency_loop rc env _ pods (S i) ctx1 w5) as [[r ctx6] w6].
      destruct IH as (t6 & ops6 & evs6 & HC6 & Hs6 & Hp6 & Hok6).
      eexists t6, _, _. split; [done|]. split.
      { apply (step_trans _ _ _ _ _ _ _ _ Hs Hs6). }
      split; [by apply prefix_app|]. intros Hn. by rewrite (Hok6 Hn). }
  destruct intent as [m0|]; [|by eapply Hwrite].
  destruct (manifest.SHA m0) as [intentSHA herr]. cbn [fst].
  assert (exists w3 evs3, (match herr with
                           | Some e => logf (LogCouldNotHash (Node pod) e) w2
                           | None => w2
                           end) = w3 /\ Cur m ctx1 w3 t1 /\ step m w w3 [] evs3)
    as (w3 & evs3 & -> & HC3 & Hs3).
  { destruct herr as [e|].
    - eexists _, _. split; [done|]. split; [done|].
      eapply (step_trans _ _ _ _ [] []); [exact Hs2|apply emit_step].
    - by eexists _, _. }
  destruct (String.eqb intentSHA _); cbn [negb].
  - by eapply Hskip.
  - by eapply Hwrite.
Qed.

(** C2, amended. With an intent store that answers with [stored] throughout
    the pass, the operations that [ensureConsistency] adds are, placement by
    placement in the order of [current]: a label write of the computed pod
    labels followed by an intent write of the RC's manifest when the stored
    intent is absent or hashes differently, and nothing otherwise. A pass
    that fails has added a prefix of them. *)
Theorem ensureConsistency_repairs
    (stored : NodeName -> PodID -> option manifest.Manifest * option error)
    (current : PodLocations) (w : World) :
  (forall tr node pod, pod_reply env tr INTENT_TREE node pod = stored node pod) ->
  opsFrom (length (txs w)) (ensureConsistency rc env current w).2
    `prefix_of` (current ≫= repair rc stored) /\
  ((ensureConsistency rc env current w).1 = None ->
   opsFrom (length (txs w)) (ensureConsistency rc env current w).2
     = current ≫= repair rc stored).
Proof.
  intros Hstored. unfold ensureConsistency.
  pose proof (ensureConsistency_loop_writes (length (txs w)) stored current Hstored)
    as HL.
  destruct (manifest.SHA (fields.Manifest rc)) as [sha [e|]].
  { cbn [fst snd]. rewrite opsFrom_all. split; [apply prefix_nil|done]. }
  cbn [fst] in HL.
  destruct (transaction_New Background w) as [ctx w1] eqn:EN.
  apply (transaction_New_Cur (length (txs w))) in EN as (HC1 & Hs1); [|done].
  specialize (HL 0%nat ctx w1 _ HC1).
  destruct (ensureConsistency_loop rc env sha current 0 ctx w1) as [[r ctx2] w2].
  destruct HL as (t2 & ops2 & evs2 & HC2 & Hs2 & Hpre & Hok).
  pose proof (step_trans _ _ _ _ _ _ _ _ Hs1 Hs2) as Hs. cbn [app] in Hs.
  destruct r as [e|].
  - cbn [fst snd].
    apply (fun H => step_trans _ _ _ _ _ _ _ _ H (cancelFunc_step _ ctx2 w2)) in Hs.
    apply step_from_start in Hs as (-> & _ & _). rewrite app_nil_r. done.
  - destruct (transaction_Commit env ctx2 w2) as [r3 w3] eqn:EC. cbn [fst snd].
    destruct (transaction_Commit_weak _ _ _ _ _ _ HC2 EC) as (t3 & evs3 & HC3 & Hs3).
    pose proof (step_trans _ _ _ _ _ _ _ _
                  (step_trans _ _ _ _ _ _ _ _ Hs Hs3)
                  (cancelFunc_step _ ctx2 w3)) as Hs'.
    apply step_from_start in Hs' as (-> & _ & _). rewrite !app_nil_r.
    split; [done|]. intros _. by apply Hok.
Qed.

(** *** Label writes *)

Lemma grows_refl P w : grows P w w.
Proof. intros op ?. by left. Qed.

Lemma grows_trans P w1 w2 w3 : grows P w1 w2 -> grows P w2 w3 -> grows P w1 w3.
Proof.
  intros H12 H23 op Hop. destruct (H23 op Hop) as [H|H]; [|by right].
  by apply H12.
Qed.

Lemma grows_same_txs P w w' : txs w' = txs w -> grows P w w'.
Proof. intros Heq op. unfold opsFrom. rewrite Heq. by left. Qed.

Lemma elem_of_insert_inv {A} (l : list A) (i : nat) (x y : A) :
  y ∈ <[ i := x ]> l -> y = x \/ y ∈ l.
Proof.
  intros [j Hj]%list_elem_of_lookup.
  apply list_lookup_insert_Some in Hj as [(_ & -> & _)|(_ & Hj)]; [by left|].
  right. by eapply list_elem_of_lookup_2.
Qed.

Lemma addOp_grows (P : KVTxnOp -> Prop) ctx op w :
  P op -> grows P w (addOp ctx op w).2.
Proof.
  intros HP. unfold addOp, Add.
  destruct ctx as [|p l]; [by apply grows_same_txs|].
  destruct (txs w !! l) as [t|] eqn:Hl; [|by apply grows_same_txs].
  destruct (alreadyCommitted t); [by apply grows_same_txs|].
  destruct (64 <=? length (kvOps t))%nat; [by apply grows_same_txs|].
  intros op'. unfold opsFrom, setTxs. cbn [snd txs]. rewrite !drop_0.
  intros (t' & Hop & [->|Ht']%elem_of_insert_inv)%list_elem_of_bind.
  - cbn [kvOps] in Hop. apply elem_of_app in Hop as [Hop|Hop].
    + left. apply list_elem_of_bind. exists t. split; [done|].
      by eapply list_elem_of_lookup_2.
    + right. by apply list_elem_of_singleton in Hop as ->.
  - left. apply list_elem_of_bind. by exists t'.
Qed.

Lemma markCommitted_ops ctx (h : list tx) :
  markCommitted ctx h ≫= kvOps = h ≫= kvOps.
Proof.
  unfold markCommitted. destruct ctx as [|p l]; [done|].
  destruct (h !! l) as [t|] eqn:Hl; [|done].
  rewrite <- (take_drop_middle h l t Hl) at 2.
  rewrite insert_take_drop by (by eapply lookup_lt_Some).
  by rewrite !bind_app, !bind_cons.
Qed.

Lemma transaction_Commit_grows P ctx w : grows P w (transaction_Commit env ctx w).2.
Proof.
  unfold transaction_Commit, Commit.
  destruct (getTxnFromContext ctx (txs w)) as [[t|] e]; [|by apply grows_same_txs].
  destruct (alreadyCommitted t); [by apply grows_same_txs|].
  destruct (kvOps t); cbn [Txn txner snd];
    intros op; unfold opsFrom; cbn [txs]; rewrite !drop_0, markCommitted_ops; by left.
Qed.

Lemma transaction_New_grows P w : grows P w (transaction_New Background w).2.
Proof.
  unfold transaction_New, New. cbn. intros op. unfold opsFrom, setTxs. cbn [txs].
  rewrite !drop_0, bind_app. cbn. rewrite !app_nil_r. by left.
Qed.

Lemma auditing_Commit_grows P txn w :
  (forall a b c, P (OpAuditLog a b c)) ->
  grows P w (auditing_Commit (fields.ID rc) env txn w).2.
Proof.
  intros HP. unfold auditing_Commit.
  pose proof (addOp_grows P (at_ctx txn)
                (OpAuditLog (fields.ID rc) (at_start txn) (Nodes_ txn)) w (HP _ _ _)) as H1.
  destruct (addOp _ _ w) as [[e|] w1]; [done|]. cbn [snd] in H1.
  eapply grows_trans; [exact H1|]. apply transaction_Commit_grows.
Qed.

Lemma scheduleNoAudit_grows ctx node w :
  grows (writesPodLabels rc) w (scheduleNoAudit rc ctx node w).2.
Proof.
  unfold scheduleNoAudit, SetLabelsTxn, SetPodTxn.
  set (w0 := logf _ w).
  pose proof (addOp_grows (writesPodLabels rc) ctx
                (OpSetLabels (labels.MakePodLabelKey node (manifest.ID (fields.Manifest rc)))
                   (computePodLabels rc)) w0) as H1.
  destruct (addOp ctx (OpSetLabels _ _) w0) as [[e|] w1]; cbn [snd] in *.
  - apply H1. by intros ? ? [= _ <-].
  - eapply grows_trans; [apply H1; by intros ? ? [= _ <-]|].
    by apply addOp_grows.
Qed.

Lemma unschedule_grows txn node w :
  grows (writesPodLabels rc) w (unschedule rc txn node w).2.
Proof.
  unfold unschedule, DeletePodTxn, RemoveLabelsTxn, Context_.
  set (w0 := logf _ w).
  pose proof (addOp_grows (writesPodLabels rc) (at_ctx txn)
                (OpDeletePod INTENT_TREE node (manifest.ID (fields.Manifest rc))) w0
                ltac:(done)) as H1.
  destruct (addOp (at_ctx txn) (OpDeletePod _ _ _) w0) as [[e|] w1]; cbn [snd] in *;
    [done|].
  pose proof (addOp_grows (writesPodLabels rc) (at_ctx txn)
                (OpRemoveLabels
                   (labels.MakePodLabelKey node (manifest.ID (fields.Manifest rc)))
                   (map_to_list (computePodLabels rc)).*1) w1 ltac:(done)) as H2.
  destruct (addOp (at_ctx txn) (OpRemoveLabels _ _) w1) as [[e|] w2]; cbn [snd] in *;
    by eapply grows_trans.
Qed.

(** C10. The label map that [computePodLabels] builds has [pod_id] set to
    the manifest's ID and [replication_controller_id] set to the RC's ID,
    whatever [PodLabels] holds under these two keys, and is [PodLabels] under
    every other key; and every label write found in a transaction after
    [scheduleNoAudit], [schedule] or [finalizeCompleteTransfer] that was not
    there before the call writes exactly this map. *)
Theorem pod_label_writes_carry_reserved_labels :
  computePodLabels rc !! rcstore.PodIDLabel = Some (manifest.ID (fields.Manifest rc)) /\
  computePodLabels rc !! RCIDLabel = Some (fields.ID rc) /\
  (forall k, k <> rcstore.PodIDLabel -> k <> RCIDLabel ->
             computePodLabels rc !! k = fields.PodLabels rc !! k) /\
  (forall ctx node w,
     grows (writesPodLabels rc) w (scheduleNoAudit rc ctx node w).2) /\
  (forall txn node w,
     grows (writesPodLabels rc) w (schedule rc txn node w).2) /\
  (forall newNode oldNode w,
     grows (writesPodLabels rc) w (finalizeCompleteTransfer rc env newNode oldNode w).2).
Proof.
  split; [|split; [|split; [|split; [|split]]]].
  - unfold computePodLabels. rewrite lookup_insert_ne by done.
    by rewrite lookup_insert_eq.
  - unfold computePodLabels. by rewrite lookup_insert_eq.
  - intros k H1 H2. unfold computePodLabels. by rewrite !lookup_insert_ne.
  - apply scheduleNoAudit_grows.
  - intros txn node w. unfold schedule.
    pose proof (scheduleNoAudit_grows (Context_ txn) node w) as H.
    by destruct (scheduleNoAudit rc (Context_ txn) node w) as [[e|] w1].
  - intros newNode oldNode w. unfold finalizeCompleteTransfer.
    assert (grows (writesPodLabels rc) w (CurrentPods rc env w).2) as H0.
    { unfold CurrentPods. destruct (matches_reply _ _ _) as [? [?|]];
        by apply grows_same_txs. }
    destruct (CurrentPods rc env w) as [[current [e|]] w0]; cbn [snd] in *; [done|].
    unfold newAuditingTransaction.
    pose proof (transaction_New_grows (writesPodLabels rc) w0) as H1.
    destruct (transaction_New Background w0) as [c w1]. cbn [snd] in H1.
    set (txn := AddNode newNode _).
    unfold SetLabelsTxn.
    pose proof (addOp_grows (writesPodLabels rc) (Context_ txn)
                  (OpSetLabels (labels.MakePodLabelKey newNode
                                  (manifest.ID (fields.Manifest rc)))
                     (computePodLabels rc)) w1 ltac:(by intros ? ? [= _ <-])) as H2.
    destruct (addOp (Context_ txn) (OpSetLabels _ _) w1) as [[e|] w2]; cbn [snd] in H2.
    { eapply grows_trans; [|by apply grows_same_txs; destruct (at_ctx txn)].
      eauto using grows_trans. }
    pose proof (unschedule_grows txn oldNode w2) as H3.
    destruct (unschedule rc txn oldNode w2) as [[[e|] txn3] w3]; cbn [snd] in H3.
    { eapply grows_trans; [|by apply grows_same_txs; destruct (at_ctx txn3)].
      eauto using grows_trans. }
    pose proof (auditing_Commit_grows (writesPodLabels rc) txn3 w3 ltac:(done)) as H4.
    destruct (auditing_Commit (fields.ID rc) env txn3 w3) as [r4 w4]. cbn [snd] in *.
    eapply grows_trans; [|by apply grows_same_txs; destruct (at_ctx txn3)].
    eauto using grows_trans.
Qed.

(** *** Running out of candidates *)

Lemma batch_due (i q : nat) :
  (i = 0 /\ q = 0 \/ 5 * q < i <= 5 * q + 5)%nat ->
  ((i `mod` 5 =? 0)%nat && (0 <? i)%nat) = true -> i = (5 * q + 5)%nat.
Proof.
  intros H [H1 H2]%andb_true_iff. apply Nat.eqb_eq in H1. apply Nat.ltb_lt in H2.
  pose proof (Nat.div_mod_eq i 5). lia.
Qed.

Lemma batch_not_due (i q : nat) :
  (i = 0 /\ q = 0 \/ 5 * q < i <= 5 * q + 5)%nat ->
  ((i `mod` 5 =? 0)%nat && (0 <? i)%nat) = false -> (5 * q <= i < 5 * q + 5)%nat.
Proof.
  intros H Hb. apply andb_false_iff in Hb as [H1|H2].
  - apply Nat.eqb_neq in H1. pose proof (Nat.div_mod_eq i 5).
    pose proof (Nat.mod_upper_bound i 5).
    assert (i <> 5 * q + 5)%nat; [|lia].
    intros ->. apply H1. replace (5 * q + 5)%nat with ((q + 1) * 5)%nat by lia.
    apply Nat.Div0.mod_mul.
  - apply Nat.ltb_ge in H2. lia.
Qed.

Lemma full_batches (c q : nat) : (5 * q + 5 <= c)%nat -> (q < c / 5)%nat.
Proof.
  intros. pose proof (Nat.div_mod_eq c 5). pose proof (Nat.mod_upper_bound c 5). lia.
Qed.

Lemma last_batch (c q : nat) : (5 * q <= c < 5 * q + 5)%nat -> (5 * (c / 5) = 5 * q)%nat.
Proof.
  intros. pose proof (Nat.div_mod_eq c 5). pose proof (Nat.mod_upper_bound c 5). lia.
Qed.

Lemma commitOutcome_accepted what r :
  accepts r -> commitOutcome what (replyTuple r) = None.
Proof. intros [Hok Herr]. unfold commitOutcome, replyTuple. by rewrite Hok, Herr. Qed.

(** The batch step when the store takes the running transaction. *)
Lemma nextBatch_accepted m i txn w t :
  Cur m (at_ctx txn) w t -> alreadyCommitted t = false ->
  (length (kvOps t) < 64)%nat ->
  accepts (txn_reply env (trace w)
             (kvOps t ++ [OpAuditLog (fields.ID rc) (at_start txn) (Nodes_ txn)])) ->
  ((i `mod` 5 =? 0)%nat && (0 <? i)%nat) = true ->
  exists txn' w', nextBatch rc env i txn w = inr (txn', w') /\
    Cur m (at_ctx txn') w' {| kvOps := []; alreadyCommitted := false |} /\
    trace w' = trace w ++
      [EvTxn (kvOps t ++ [OpAuditLog (fields.ID rc) (at_start txn) (Nodes_ txn)])].
Proof.
  intros HC Hopen Hlen Hacc Hb. unfold nextBatch. rewrite Hb.
  destruct (auditing_Commit (fields.ID rc) env txn w) as [r w1] eqn:EC.
  destruct (auditing_Commit_Cur _ _ _ _ _ _ HC EC)
    as (t1 & HC1 & [(_ & _ & Hs1 & ->)|([?|?] & _)]); [|congruence|lia].
  rewrite (commitOutcome_accepted _ _ Hacc).
  destruct (newAuditingTransaction _ _ _) as [txn' w'] eqn:EN.
  apply (newAuditingTransaction_Cur m) in EN as (HC' & Hs' & _).
  - exists txn', w'. split; [done|]. split; [done|].
    destruct Hs' as (_ & _ & ->). destruct Hs1 as (_ & _ & <-).
    rewrite app_nil_r. by destruct (at_ctx txn).
  - destruct (at_ctx txn); cbn; by eapply Cur_length.
Qed.

(** With fewer candidates than pods to schedule, the loop of [addPods]
    ends in an error, whatever the collaborators do. *)
Lemma addPods_loop_fails cn el ps (n : nat) : forall (i : nat) txn w,
  (i <= length ps)%nat -> (length ps < i + n)%nat ->
  (addPods_loop rc env cn el ps n i txn w).1.1 <> None.
Proof.
  induction n as [|n IH]; intros i txn w Hi Hn; [lia|]. cbn [addPods_loop].
  destruct (nextBatch rc env i txn w) as [[err w1]|[txn1 w1]]; [done|].
  destruct (length ps <? i + 1)%nat eqn:Hlen.
  - destruct (alertAndLog rc env _ w1) as [ra w2].
    destruct (auditing_Commit _ env txn1 w2) as [r w3].
    by destruct (commitOutcome _ r).
  - apply Nat.ltb_ge in Hlen.
    destruct (schedule rc txn1 _ w1) as [[[e|] txn2] w2]; [done|].
    apply IH; lia.
Qed.

Lemma intentWrites_app ops1 ops2 :
  intentWrites (ops1 ++ ops2) = intentWrites ops1 ++ intentWrites ops2.
Proof. apply omap_app. Qed.

(** The loop of [addPods] from index [i] on, when the candidates run out
    before the desired count is met and the store takes the batches that
    come before that. [q] batches have been committed, and the running
    transaction holds the schedulings made since. *)
Lemma addPods_loop_capacity m cn el (ps : list string) (base : list Event) :
  (forall evs ops,
     (length (List.filter isTxn evs) < length ps / 5)%nat ->
     accepts (txn_reply env (base ++ evs) ops)) ->
  forall (n i q : nat) txn w t evs,
  (i <= length ps)%nat -> (length ps < i + n)%nat ->
  Cur m (at_ctx txn) w t -> alreadyCommitted t = false ->
  (i = 0 /\ q = 0 \/ 5 * q < i <= 5 * q + 5)%nat ->
  length (kvOps t) = (2 * (i - 5 * q))%nat ->
  intentWrites (kvOps t) = take (i - 5 * q) (drop (5 * q) ps) ->
  trace w = base ++ evs ->
  length (List.filter isTxn evs) = q ->
  Forall (fun e => isAlert e = false) evs ->
  match addPods_loop rc env cn el ps n i txn w with
  | (r, _, w') =>
      r <> None /\
      exists pre post ops,
        trace w' = base ++ pre
                   ++ [EvAlert (alertInfo rc env (notEnoughNodes rc cn el (length ps)))]
                   ++ post ++ [EvTxn ops] /\
        Forall (fun e => isAlert e = false) pre /\
        Forall (fun e => isAlert e = false /\ isTxn e = false) post /\
        intentWrites ops = drop (5 * (length ps / 5)) ps
  end.
Proof.
  intros Hstore.
  induction n as [|n IH]; intros i q txn w t evs Hi Hn HC Hopen Hq Hlen Hops Htr Hcount Hal;
    [lia|].
  cbn [addPods_loop].
  (* the batch step *)
  assert (exists q' txn1 w1 t1 evs1,
            nextBatch rc env i txn w = inr (txn1, w1) /\
            Cur m (at_ctx txn1) w1 t1 /\ alreadyCommitted t1 = false /\
            (5 * q' <= i < 5 * q' + 5)%nat /\
            length (kvOps t1) = (2 * (i - 5 * q'))%nat /\
            intentWrites (kvOps t1) = take (i - 5 * q') (drop (5 * q') ps) /\
            trace w1 = base ++ evs1 /\
            length (List.filter isTxn evs1) = q' /\
            Forall (fun e => isAlert e = false) evs1)
    as (q' & txn1 & w1 & t1 & evs1 & -> & HC1 & Hopen1 & Hq' & Hlen1 & Hops1
        & Htr1 & Hcount1 & Hal1).
  { destruct ((i `mod` 5 =? 0)%nat && (0 <? i)%nat) eqn:Hb.
    - pose proof (batch_due _ _ Hq Hb) as ->.
      destruct (nextBatch_accepted m (5 * q + 5) txn w t HC Hopen ltac:(lia))
        as (txn1 & w1 & -> & HC1 & Htr1); [|done|].
      { rewrite Htr. apply Hstore. rewrite Hcount. apply full_batches. lia. }
      exists (q + 1)%nat, txn1, w1, {| kvOps := []; alreadyCommitted := false |},
        (evs ++ [EvTxn (kvOps t ++
                   [OpAuditLog (fields.ID rc) (at_start txn) (Nodes_ txn)])]).
      split; [done|]. split; [done|].
      split; [done|]. split; [lia|].
      replace (5 * q + 5 - 5 * (q + 1))%nat with 0%nat by lia.
      split; [done|]. split; [done|]. split.
      { rewrite Htr1, Htr, <- app_assoc. done. }
      split.
      + rewrite List.filter_app, length_app, Hcount. cbn. lia.
      + apply Forall_app. split; [done|]. by repeat constructor.
    - exists q, txn, w, t, evs. unfold nextBatch. rewrite Hb.
      pose proof (batch_not_due _ _ Hq Hb). done. }
  destruct (length ps <? i + 1)%nat eqn:Hfew.
  - (* the candidates have run out *)
    apply Nat.ltb_lt in Hfew. assert (i = length ps) as -> by lia.
    destruct (alertAndLog rc env _ w1) as [ra w2] eqn:EA.
    destruct (alertAndLog_Cur m _ _ _ _ _ _ HC1 EA) as (HC2 & logs & Hs2 & Hlogs).
    destruct (auditing_Commit _ env txn1 w2) as [r w3] eqn:EC.
    destruct (auditing_Commit_Cur _ _ _ _ _ _ HC2 EC)
      as (t3 & HC3 & [(_ & _ & Hs3 & _)|([?|?] & _)]); [|congruence|lia].
    assert (trace w3 = base ++ evs1
              ++ [EvAlert (alertInfo rc env (notEnoughNodes rc cn el (length ps)))]
              ++ logs ++ [EvTxn (kvOps t1 ++
                    [OpAuditLog (fields.ID rc) (at_start txn1) (Nodes_ txn1)])]) as Htr3.
    { destruct Hs3 as (_ & _ & ->). destruct Hs2 as (_ & _ & ->).
      rewrite Htr1. cbn [app]. by rewrite <- !app_assoc. }
    assert (intentWrites (kvOps t1 ++
              [OpAuditLog (fields.ID rc) (at_start txn1) (Nodes_ txn1)])
            = drop (5 * (length ps / 5)) ps) as Hiw.
    { rewrite (last_batch _ _ Hq'), intentWrites_app, Hops1.
      change (intentWrites [OpAuditLog (fields.ID rc) (at_start txn1) (Nodes_ txn1)])
        with (@nil string).
      rewrite app_nil_r. apply take_ge. rewrite length_drop. lia. }
    destruct (commitOutcome _ r); (split; [done|]);
      exists evs1, logs,
        (kvOps t1 ++ [OpAuditLog (fields.ID rc) (at_start txn1) (Nodes_ txn1)]);
      done.
  - (* one more scheduling *)
    apply Nat.ltb_ge in Hfew.
    destruct (ps !! i) as [x|] eqn:Hx; [|apply lookup_ge_None in Hx; lia].
    cbn [default from_option id].
    destruct (schedule rc txn1 x w1) as [[rs txn2] w2] eqn:ES.
    destruct (schedule_Cur _ _ _ _ _ _ _ _ HC1 ES)
      as (Hctx & t2 & ops2 & HC2 & Hs2 & Hk2 & Hr & Hok).
    rewrite <- Hctx in HC2.
    specialize (Hok Hopen1 ltac:(lia)). subst rs.
    destruct Hr as [(_ & -> & Hopen2)|(? & _)]; [|done].
    specialize (IH (S i) q' txn2 w2 t2 (evs1 ++ [EvLog (LogScheduling x)])).
    destruct (addPods_loop rc env cn el ps n (S i) txn2 w2) as [[r txn3] w3].
    apply IH; try done; try lia.
    + rewrite Hk2, length_app, Hlen1.
      change (length (scheduleOps rc x)) with 2%nat. lia.
    + rewrite Hk2, intentWrites_app, Hops1.
      change (intentWrites (scheduleOps rc x)) with [x].
      replace (S i - 5 * q')%nat with (S (i - 5 * q')) by lia.
      symmetry. apply take_S_r. rewrite lookup_drop. rewrite <- Hx. f_equal. lia.
    + destruct Hs2 as (_ & _ & ->). rewrite Htr1. by rewrite <- app_assoc.
    + rewrite List.filter_app, length_app, Hcount1. cbn. lia.
    + apply Forall_app. split; [done|]. by repeat constructor.
Qed.

(** C9. In a pass of [addPods] with fewer candidates than pods to schedule,
    the pass ends in an error; and when the store takes the batches
    committed before the loop index reaches the number [c] of candidates
    (there are [c / 5] of them), the pass gets there, sends one alert that
    carries the RC's ID, the controller's hostname, the pod ID, the node
    selector and the counts, then commits the running transaction: the
    schedulings made since the last batch, with the audit record. Nothing
    follows that commit, and no other alert is sent. *)
Theorem addPods_insufficient_capacity (current : PodLocations)
    (eligible : list NodeName) (w : World) :
  let candidates :=
    ListNodes (Difference (NewNodeSet eligible) (NewNodeSet (Nodes current))) in
  let c := length candidates in
  (c < Z.to_nat (fields.ReplicasDesired rc - Z.of_nat (length (Nodes current))))%nat ->
  (addPods rc env current eligible w).1 <> None /\
  ((forall evs ops,
      (length (List.filter isTxn evs) < c / 5)%nat ->
      accepts (txn_reply env (trace w ++ evs) ops)) ->
   exists pre post ops,
     trace (addPods rc env current eligible w).2
       = trace w ++ pre
         ++ [EvAlert (alertInfo rc env
                        (notEnoughNodes rc (Nodes current) eligible c))]
         ++ post ++ [EvTxn ops] /\
     Forall (fun e => isAlert e = false) pre /\
     Forall (fun e => isAlert e = false /\ isTxn e = false) post /\
     intentWrites ops = drop (5 * (c / 5)) candidates).
Proof.
  intros candidates c Hc. unfold addPods. fold candidates.
  set (n0 := Z.to_nat _) in *.
  set (w0 := logf _ w).
  destruct (newAuditingTransaction Background (Nodes current) w0) as [txn w1] eqn:EN.
  pose proof EN as EN'.
  apply (newAuditingTransaction_Cur 0) in EN' as (HC1 & Hs1 & _); [|lia].
  pose proof (addPods_loop_fails (Nodes current) eligible candidates n0 0 txn w1
                ltac:(lia) ltac:(fold c; lia)) as Hfail.
  split.
  - destruct (addPods_loop rc env (Nodes current) eligible candidates n0 0 txn w1)
      as [[[e|] txn2] w2]; done.
  - intros Hstore.
    pose proof (addPods_loop_capacity 0 (Nodes current) eligible candidates (trace w)
                  Hstore n0 0 0 txn w1 _ [EvLog (LogNeedSchedule
                     (fields.ReplicasDesired rc - Z.of_nat (length (Nodes current)))
                     (elements (Difference (NewNodeSet eligible)
                                  (NewNodeSet (Nodes current)))))]
                  ltac:(lia) ltac:(fold c; lia) HC1 eq_refl ltac:(lia) eq_refl eq_refl)
      as HL.
    destruct (addPods_loop rc env (Nodes current) eligible candidates n0 0 txn w1)
      as [[r txn2] w2].
    destruct HL as (Hr & pre & post & ops & Htr & Hpre & Hpost & Hiw).
    + destruct Hs1 as (_ & _ & ->). by rewrite app_nil_r.
    + done.
    + by repeat constructor.
    + destruct r as [e|]; [|done]. cbn [snd].
      exists pre, post, ops. split; [|done].
      by destruct (at_ctx txn2).
Qed.

End controller_facts.

(** Scaling "rc1" down from n1, n2, n3 to one replica when only n2 and n3 are
    eligible: the second deletion is on n3, and n1 has gone before it. *)
Lemma removePods_prefers_ineligible_witness :
  exists i, (i < 1)%nat /\
    intentDeletes
      (opsFrom (length (txs fleet.start))
         (removePods (fleet.rc1 1 false fields.CattleStrategy)
            (fleet.env1 [] [] fleet.consistent fleet.noStatus)
            (fleet.on ["n1"; "n2"; "n3"]) ["n2"; "n3"] fleet.start).2) !! i
      = Some "n1".
Proof.
  apply (removePods_prefers_ineligible (fleet.rc1 1 false fields.CattleStrategy)
           (fleet.env1 [] [] fleet.consistent fleet.noStatus)
           (fleet.on ["n1"; "n2"; "n3"]) ["n2"; "n3"] fleet.start "n1" "n3" 1).
  - vm_compute. reflexivity.
  - apply (bool_decide_unpack _). vm_compute. exact I.
  - apply (bool_decide_unpack _). vm_compute. exact I.
  - apply (bool_decide_unpack _). vm_compute. exact I.
  - apply (bool_decide_unpack _). vm_compute. exact I.
  - vm_compute. reflexivity.
Defined.

(** C2, as stated, fails where it says that no label operation is added:
    with the intent of n1 out of date, the pass succeeds and its first
    operation is a label write, before the intent write. *)
Lemma ensureConsistency_writes_labels :
  let run := ensureConsistency (fleet.rc1 1 false fields.CattleStrategy)
               (fleet.env1 ["n1"] ["n1"] fleet.outdatedOnN1 fleet.noStatus)
               (fleet.on ["n1"]) fleet.start in
  run.1 = None /\
  opsFrom 0 run.2
    = [ OpSetLabels "n1/web"
          (computePodLabels (fleet.rc1 1 false fields.CattleStrategy));
        OpSetPod INTENT_TREE "n1" (fleet.web "aaa") ] /\
  isSetLabels <$> opsFrom 0 run.2 = [true; false].
Proof. vm_compute. done. Qed.

(** The amended claim on three placements, the first of which is out of
    date. *)
Lemma ensureConsistency_repairs_witness :
  let rc := fleet.rc1 3 false fields.CattleStrategy in
  let run := ensureConsistency rc
               (fleet.env1 ["n1"; "n2"; "n3"] ["n1"; "n2"; "n3"]
                  fleet.outdatedOnN1 fleet.noStatus)
               (fleet.on ["n1"; "n2"; "n3"]) fleet.start in
  opsFrom 0 run.2
    `prefix_of` (fleet.on ["n1"; "n2"; "n3"]
                 ≫= repair rc (fun node _ => fleet.outdatedOnN1 node)) /\
  (run.1 = None ->
   opsFrom 0 run.2
     = fleet.on ["n1"; "n2"; "n3"]
       ≫= repair rc (fun node _ => fleet.outdatedOnN1 node)).
Proof.
  apply (ensureConsistency_repairs (fleet.rc1 3 false fields.CattleStrategy)
           (fleet.env1 ["n1"; "n2"; "n3"] ["n1"; "n2"; "n3"]
              fleet.outdatedOnN1 fleet.noStatus)
           (fun node _ => fleet.outdatedOnN1 node)
           (fleet.on ["n1"; "n2"; "n3"]) fleet.start).
  intros tr node pod. reflexivity.
Defined.

(** ** The disabled controller and the pinned controller *)

(** A disabled RC: the pass logs its first line and returns [nil]. *)
Lemma meetDesires_disabled (rc : fields.RC) (env : Env) (w : World) :
  fields.Disabled rc = true ->
  meetDesires rc env w =
    (None, logf (LogHandlingUpdate (fields.ReplicasDesired rc) true) w).
Proof. intros H. unfold meetDesires. by rewrite H. Qed.

(** C3, at a disabled RC with a transfer from n1 to n9 under way: the pass
    returns [nil] having done nothing but log one line: no write, no read of
    the current placement, and no step about the transfer either. The status
    store is not consulted, and it reports the transfer in progress after the
    pass as it did before. *)
Lemma meetDesires_disabled_leaves_transfer :
  let rc := fleet.rc1 1 true fields.CattleStrategy in
  let env := fleet.env1 ["n1"] ["n2"] fleet.consistent fleet.transferring in
  meetDesires rc env fleet.start
    = (None, {| txs := []; trace := [EvLog (LogHandlingUpdate 1 true)];
                cancelled := [] |}) /\
  (isNodeTransferInProgress rc env fleet.start).1 = (true, None) /\
  (isNodeTransferInProgress rc env (meetDesires rc env fleet.start).2).1 = (true, None).
Proof. vm_compute. done. Qed.

(** C4, at a pinned RC whose only pod is on n1 while only n2 is eligible,
    with no transfer in progress and an alerter that works:
    [updateAllocationsAndReschedule] sends its one alert, writes nothing, and
    returns what [Alert] returned, which is [nil]; so does [transferNodes],
    and the whole pass ends without an error. *)
Lemma pinned_ineligible_returns_nil :
  let rc := fleet.rc1 1 false fields.PinnedStrategy in
  let env := fleet.env1 ["n1"] ["n2"] fleet.consistent fleet.noStatus in
  checkForIneligible (fleet.on ["n1"]) ["n2"] = ["n1"] /\
  (updateAllocationsAndReschedule rc env ["n1"] fleet.start).1 = ("", None) /\
  (transferNodes rc env ["n1"] fleet.start).1 = None /\
  (meetDesires rc env fleet.start).1 = None /\
  length (List.filter isAlert (trace (meetDesires rc env fleet.start).2))
    = 1%nat /\
  List.filter isTxn (trace (meetDesires rc env fleet.start).2) = [] /\
  opsFrom 0 (meetDesires rc env fleet.start).2 = [].
Proof. vm_compute. done. Qed.

(** ** Concrete passes of [addPods] *)

(** Scaling "rc1" up from nothing to three replicas with n1 to n4 eligible,
    given in another order: the third intent write is on n3, the third
    candidate. *)
Lemma addPods_sorted_order_witness :
  let rc := fleet.rc1 3 false fields.CattleStrategy in
  let env := fleet.env1 [] ["n4"; "n2"; "n3"; "n1"] fleet.consistent fleet.noStatus in
  intentWrites
    (opsFrom 0 (addPods rc env [] ["n4"; "n2"; "n3"; "n1"] fleet.start).2)
    = ["n1"; "n2"; "n3"] /\
  ListNodes (Difference (NewNodeSet ["n4"; "n2"; "n3"; "n1"]) (NewNodeSet (Nodes [])))
    !! 2%nat = Some "n3".
Proof.
  intros rc env.
  pose proof (addPods_sorted_order rc env [] ["n4"; "n2"; "n3"; "n1"] fleet.start) as H.
  cbv zeta in H.
  destruct (addPods rc env [] ["n4"; "n2"; "n3"; "n1"] fleet.start) as [err w'] eqn:E.
  destruct H as (_ & _ & _ & Hidx & _).
  assert (intentWrites (opsFrom 0 w') = ["n1"; "n2"; "n3"]) as Hw.
  { apply (f_equal snd) in E. cbn [snd] in E. rewrite <- E. vm_compute. reflexivity. }
  split; [exact Hw|].
  apply Hidx. change (length (txs fleet.start)) with 0%nat. rewrite Hw. reflexivity.
Defined.

(** Seven replicas wanted and five candidates: the first batch of five is
    committed, then the alert goes out and the running transaction, which
    holds no scheduling, is committed with its audit record. *)
Lemma addPods_insufficient_capacity_witness :
  let rc := fleet.rc1 7 false fields.CattleStrategy in
  let eligible := ["n1"; "n2"; "n3"; "n4"; "n5"] in
  let env := fleet.env1 [] eligible fleet.consistent fleet.noStatus in
  let candidates := ListNodes (Difference (NewNodeSet eligible) (NewNodeSet (Nodes []))) in
  (addPods rc env [] eligible fleet.start).1 <> None /\
  exists pre post ops,
    trace (addPods rc env [] eligible fleet.start).2
      = trace fleet.start ++ pre
        ++ [EvAlert (alertInfo rc env
                       (notEnoughNodes rc (Nodes []) eligible (length candidates)))]
        ++ post ++ [EvTxn ops] /\
    Forall (fun e => isAlert e = false) pre /\
    Forall (fun e => isAlert e = false /\ isTxn e = false) post /\
    intentWrites ops = drop (5 * (length candidates / 5)) candidates.
Proof.
  intros rc eligible env candidates.
  destruct (addPods_insufficient_capacity rc env [] eligible fleet.start) as [Herr Hrun].
  - vm_compute. lia.
  - split; [exact Herr|]. apply Hrun.
    intros evs ops _. split; reflexivity.
Defined.

(** On "rc1", whose user labels set [pod_id] to "mine", the computed labels
    carry the manifest's ID under that key. *)
Lemma pod_label_writes_carry_reserved_labels_witness :
  let rc := fleet.rc1 1 false fields.CattleStrategy in
  fields.PodLabels rc !! "pod_id" = Some "mine" /\
  computePodLabels rc !! "pod_id" = Some "web" /\
  computePodLabels rc !! "replication_controller_id" = Some "rc1" /\
  computePodLabels rc !! "team" = Some "infra".
Proof.
  intros rc.
  destruct (pod_label_writes_carry_reserved_labels rc
              (fleet.env1 [] [] fleet.consistent fleet.noStatus))
    as (Hpod & Hrc & Hother & _).
  split; [reflexivity|]. split; [exact Hpod|]. split; [exact Hrc|].
  rewrite Hother; [reflexivity|discriminate|discriminate].
Defined.

(** * Further properties of the controller *)

(** ** What a pass may add to the transactions *)

Section pass_grows.
Import transaction.
Variable rc : fields.RC.
Variable env : Env.
Variable P : KVTxnOp -> Prop.

Lemma two_appends_grows ctx op1 op2 w :
  P op1 -> P op2 ->
  grows P w (match addOp ctx op1 w with
             | (Some err, w) => (Some err, w)
             | (None, w) => addOp ctx op2 w
             end).2.
Proof.
  intros H1 H2. pose proof (addOp_grows P ctx op1 w H1) as G1.
  destruct (addOp ctx op1 w) as [[e|] w1]; cbn [snd] in *; [done|].
  eapply grows_trans; [exact G1|]. by apply addOp_grows.
Qed.

Lemma scheduleNoAudit_grows_any ctx node w :
  Forall P (scheduleOps rc node) ->
  grows P w (scheduleNoAudit rc ctx node w).2.
Proof.
  intros H. apply Forall_cons in H as [H1 H2]. apply Forall_cons in H2 as [H2 _].
  unfold scheduleNoAudit, SetLabelsTxn, SetPodTxn.
  eapply grows_trans; [|by apply two_appends_grows].
  by apply grows_same_txs.
Qed.

Lemma schedule_grows_any txn node w :
  Forall P (scheduleOps rc node) ->
  grows P w (schedule rc txn node w).2.
Proof.
  intros H. unfold schedule.
  pose proof (scheduleNoAudit_grows_any (Context_ txn) node w H) as G.
  by destruct (scheduleNoAudit rc (Context_ txn) node w) as [[e|] w1].
Qed.

Lemma unschedule_grows_any txn node w :
  Forall P (unscheduleOps rc node) ->
  grows P w (unschedule rc txn node w).2.
Proof.
  intros H. apply Forall_cons in H as [H1 H2]. apply Forall_cons in H2 as [H2 _].
  unfold unschedule, DeletePodTxn, RemoveLabelsTxn, Context_.
  set (w0 := logf _ w).
  pose proof (two_appends_grows (at_ctx txn) _ _ w0 H1 H2) as G.
  destruct (addOp (at_ctx txn) (OpDeletePod _ _ _) w0) as [[e|] w1]; cbn [snd] in *;
    [exact G|].
  destruct (addOp (at_ctx txn) (OpRemoveLabels _ _) w1) as [[e|] w2]; exact G.
Qed.

Lemma cancelFunc_grows ctx w : grows P w (cancelFunc ctx w).
Proof. apply grows_same_txs. by destruct ctx. Qed.

Lemma alertAndLog_grows msg w : grows P w (alertAndLog rc env msg w).2.
Proof.
  unfold alertAndLog, Alert.
  destruct (alert_reply env (trace w) (alertInfo rc env msg)); by apply grows_same_txs.
Qed.

Hypothesis Haudit : forall a b c, P (OpAuditLog a b c).

Lemma nextBatch_grows i txn w :
  match nextBatch rc env i txn w with
  | inl (_, w') => grows P w w'
  | inr (_, w') => grows P w w'
  end.
Proof.
  unfold nextBatch.
  destruct ((i `mod` 5 =? 0)%nat && (0 <? i)%nat); [|apply grows_refl].
  pose proof (auditing_Commit_grows rc env P txn w Haudit) as G.
  destruct (auditing_Commit (fields.ID rc) env txn w) as [r w1]. cbn [snd] in G.
  destruct (commitOutcome _ r); [done|].
  unfold newAuditingTransaction.
  pose proof (transaction_New_grows P (cancelFunc (at_ctx txn) w1)) as G2.
  destruct (transaction_New Background (cancelFunc (at_ctx txn) w1)) as [c w2].
  cbn [snd] in G2.
  eapply grows_trans; [exact G|]. eapply grows_trans; [apply cancelFunc_grows|done].
Qed.

Lemma commit_and_fail_grows txn w (err : error) :
  grows P w (let '(r, w) := auditing_Commit (fields.ID rc) env txn w in
             match commitOutcome "could not schedule pods" r with
             | Some err => (Some err, txn, w)
             | None => (Some err, txn, w)
             end).2.
Proof.
  pose proof (auditing_Commit_grows rc env P txn w Haudit) as G.
  destruct (auditing_Commit (fields.ID rc) env txn w) as [r w1].
  by destruct (commitOutcome _ r).
Qed.

Lemma addPods_loop_grows cn el ps (n : nat) :
  (forall node, Forall P (scheduleOps rc node)) ->
  forall i txn w, grows P w (addPods_loop rc env cn el ps n i txn w).2.
Proof.
  intros Hs. induction n as [|n IH]; intros i txn w; cbn [addPods_loop];
    [apply grows_refl|].
  pose proof (nextBatch_grows i txn w) as G1.
  destruct (nextBatch rc env i txn w) as [[err w1]|[txn1 w1]]; [done|].
  eapply grows_trans; [exact G1|].
  destruct (length ps <? i + 1)%nat.
  - pose proof (alertAndLog_grows (notEnoughNodes rc cn el i) w1) as G2.
    destruct (alertAndLog rc env _ w1) as [ra w2]. cbn [snd] in G2.
    eapply grows_trans; [exact G2|]. apply commit_and_fail_grows.
  - pose proof (schedule_grows_any txn1 (default "" (ps !! i)) w1 (Hs _)) as G2.
    destruct (schedule rc txn1 _ w1) as [[[e|] txn2] w2]; cbn [snd] in G2; [done|].
    eapply grows_trans; [exact G2|]. apply IH.
Qed.

Lemma addPods_grows current eligible w :
  (forall node, Forall P (scheduleOps rc node)) ->
  grows P w (addPods rc env current eligible w).2.
Proof.
  intros Hs. unfold addPods, newAuditingTransaction.
  set (w0 := logf _ w).
  pose proof (transaction_New_grows P w0) as G0.
  destruct (transaction_New Background w0) as [c w1]. cbn [snd] in G0.
  set (txn := {| at_ctx := c |}).
  pose proof (addPods_loop_grows (Nodes current) eligible
                (ListNodes (Difference (NewNodeSet eligible) (NewNodeSet (Nodes current))))
                (Z.to_nat (fields.ReplicasDesired rc - Z.of_nat (length (Nodes current))))
                Hs 0 txn w1) as G1.
  destruct (addPods_loop rc env _ _ _ _ 0 txn w1) as [[[e|] txn2] w2]; cbn [snd] in *.
  - eapply grows_trans; [|apply cancelFunc_grows].
    eapply grows_trans; [|exact G1]. eapply grows_trans; [|exact G0].
    by apply grows_same_txs.
  - pose proof (auditing_Commit_grows rc env P txn2 w2 Haudit) as G2.
    destruct (auditing_Commit (fields.ID rc) env txn2 w2) as [r w3]. cbn [snd] in *.
    eapply grows_trans; [|apply cancelFunc_grows].
    eapply grows_trans; [|exact G2].
    eapply grows_trans; [|exact G1]. eapply grows_trans; [|exact G0].
    by apply grows_same_txs.
Qed.

Lemma removePods_loop_grows current (n : nat) :
  (forall node, Forall P (unscheduleOps rc node)) ->
  forall i preferred rest txn w,
    grows P w (removePods_loop rc env current preferred rest n i txn w).2.
Proof.
  intros Hu. induction n as [|n IH]; intros i preferred rest txn w;
    cbn [removePods_loop]; [apply grows_refl|].
  pose proof (nextBatch_grows i txn w) as G1.
  destruct (nextBatch rc env i txn w) as [[err w1]|[txn1 w1]]; [done|].
  eapply grows_trans; [exact G1|].
  destruct (PopAny (pick env (trace w1)) preferred) as [[x1 ok1] preferred'].
  destruct (if ok1 then (x1, ok1, rest) else PopAny (pick env (trace w1)) rest)
    as [[x ok] rest'].
  destruct ok; cbn [negb].
  - pose proof (unschedule_grows_any txn1 x w1 (Hu _)) as G2.
    destruct (unschedule rc txn1 x w1) as [[[e|] txn2] w2]; cbn [snd] in G2; [done|].
    eapply grows_trans; [exact G2|]. apply IH.
  - apply commit_and_fail_grows.
Qed.

Lemma removePods_grows current eligible w :
  (forall node, Forall P (unscheduleOps rc node)) ->
  grows P w (removePods rc env current eligible w).2.
Proof.
  intros Hu. unfold removePods, newAuditingTransaction.
  set (w0 := logf _ w).
  pose proof (transaction_New_grows P w0) as G0.
  destruct (transaction_New Background w0) as [c w1]. cbn [snd] in G0.
  set (txn := {| at_ctx := c |}).
  set (preferred := Difference _ (NewNodeSet eligible)).
  pose proof (removePods_loop_grows current
                (Z.to_nat (Z.of_nat (length current) - fields.ReplicasDesired rc))
                Hu 0 preferred (Difference (NewNodeSet (Nodes current)) preferred)
                txn w1) as G1.
  destruct (removePods_loop rc env _ _ _ _ 0 txn w1) as [[[e|] txn2] w2]; cbn [snd] in *.
  - eapply grows_trans; [|apply cancelFunc_grows].
    eapply grows_trans; [|exact G1]. eapply grows_trans; [|exact G0].
    by apply grows_same_txs.
  - pose proof (auditing_Commit_grows rc env P txn2 w2 Haudit) as G2.
    destruct (auditing_Commit (fields.ID rc) env txn2 w2) as [r w3]. cbn [snd] in *.
    eapply grows_trans; [|apply cancelFunc_grows].
    eapply grows_trans; [|exact G2].
    eapply grows_trans; [|exact G1]. eapply grows_trans; [|exact G0].
    by apply grows_same_txs.
Qed.

End pass_grows.

Section pass_grows_more.
Import transaction.
Variable rc : fields.RC.
Variable env : Env.
Variable P : KVTxnOp -> Prop.
Hypothesis Hschedule : forall node, Forall P (scheduleOps rc node).
Hypothesis Haudit : forall a b c, P (OpAuditLog a b c).
Hypothesis Hstatus : forall a b c, P (OpCASStatus a b c).

Lemma nextContext_grows i ctx w :
  match nextContext env i ctx w with
  | inl (_, w') => grows P w w'
  | inr (_, w') => grows P w w'
  end.
Proof.
  unfold nextContext.
  destruct ((i `mod` 5 =? 0)%nat && (0 <? i)%nat); [|apply grows_refl].
  pose proof (transaction_Commit_grows env P ctx w) as G.
  destruct (transaction_Commit env ctx w) as [r w1]. cbn [snd] in G.
  destruct (commitOutcome _ r); [done|].
  pose proof (transaction_New_grows P (cancelFunc ctx w1)) as G2.
  destruct (transaction_New Background (cancelFunc ctx w1)) as [c w2].
  cbn [snd] in G2.
  eapply grows_trans; [exact G|]. eapply grows_trans; [apply cancelFunc_grows|done].
Qed.

Lemma ensureConsistency_loop_grows sha (pods : PodLocations) :
  forall i ctx w, grows P w (ensureConsistency_loop rc env sha pods i ctx w).2.
Proof.
  induction pods as [|pod pods IH]; intros i ctx w; cbn [ensureConsistency_loop];
    [apply grows_refl|].
  pose proof (nextContext_grows i ctx w) as G1.
  destruct (nextContext env i ctx w) as [[err w1]|[ctx1 w1]]; [done|].
  eapply grows_trans; [exact G1|].
  unfold Pod.
  destruct (pod_reply env (trace w1) INTENT_TREE (Node pod) (PodID_ pod))
    as [intent err].
  set (w2 := emit _ w1).
  assert (grows P w1 w2) as G2 by (by apply grows_same_txs).
  destruct (match err with
            | Some e => negb (isNoCurrentManifest e)
            | None => false
            end); [done|].
  eapply grows_trans; [exact G2|].
  assert (forall w3 intentSHA, grows P w2 w3 ->
            grows P w2
              (let (o, w5) := scheduleNoAudit rc ctx1 (Node pod)
                                (logf (LogInconsistency (Node pod) intentSHA) w3) in
               match o with
               | Some err0 => (Some err0, ctx1, cancelFunc ctx1 w5)
               | None => ensureConsistency_loop rc env sha pods (S i) ctx1 w5
               end).2) as Hwrite.
  { intros w3 intentSHA G3.
    pose proof (scheduleNoAudit_grows_any rc P ctx1 (Node pod)
                  (logf (LogInconsistency (Node pod) intentSHA) w3) (Hschedule _)) as G4.
    destruct (scheduleNoAudit rc ctx1 (Node pod) _) as [[e|] w5]; cbn [snd] in *.
    - eapply grows_trans; [exact G3|]. eapply grows_trans; [|apply cancelFunc_grows].
      eapply grows_trans; [|exact G4]. by apply grows_same_txs.
    - eapply grows_trans; [exact G3|].
      eapply grows_trans; [|apply IH].
      eapply grows_trans; [|exact G4]. by apply grows_same_txs. }
  destruct intent as [m0|]; [|apply Hwrite, grows_refl].
  destruct (manifest.SHA m0) as [intentSHA herr].
  assert (grows P w2 (match herr with
                      | Some e => logf (LogCouldNotHash (Node pod) e) w2
                      | None => w2
                      end)) as G3.
  { destruct herr; [by apply grows_same_txs|apply grows_refl]. }
  destruct (String.eqb intentSHA sha).
  - eapply grows_trans; [exact G3|]. apply IH.
  - by apply Hwrite.
Qed.

Lemma ensureConsistency_grows current w :
  grows P w (ensureConsistency rc env current w).2.
Proof.
  unfold ensureConsistency.
  destruct (manifest.SHA (fields.Manifest rc)) as [sha [e|]]; [apply grows_refl|].
  pose proof (transaction_New_grows P w) as G0.
  destruct (transaction_New Background w) as [ctx w1]. cbn [snd] in G0.
  pose proof (ensureConsistency_loop_grows sha current 0 ctx w1) as G1.
  destruct (ensureConsistency_loop rc env sha current 0 ctx w1) as [[[e|] ctx2] w2];
    cbn [snd] in *.
  - eapply grows_trans; [|apply cancelFunc_grows]. by eapply grows_trans.
  - pose proof (transaction_Commit_grows env P ctx2 w2) as G2.
    destruct (transaction_Commit env ctx2 w2) as [r w3]. cbn [snd] in *.
    eapply grows_trans; [|apply cancelFunc_grows].
    eapply grows_trans; [|exact G2]. by eapply grows_trans.
Qed.

Lemma grows_emit e w w' : grows P (emit e w) w' -> grows P w w'.
Proof. intros G. eapply grows_trans; [|exact G]. by apply grows_same_txs. Qed.

Lemma transaction_MustCommit_grows ctx w :
  grows P w (transaction_MustCommit env ctx w).2.
Proof.
  pose proof (transaction_Commit_grows env P ctx w) as G.
  unfold transaction_MustCommit, MustCommit, transaction_Commit in *.
  destruct (Commit ctx (txner env) (txs w) (trace w)) as [[[[ok errs] err] h] tr].
  cbn [snd] in *.
  destruct err; [|destruct ok]; intros op Hop; apply G; exact Hop.
Qed.

Lemma updateAllocations_grows ineligible w :
  grows P w (updateAllocations rc env ineligible w).2.
Proof.
  unfold updateAllocations. destruct ineligible as [|oldNode rest]; [apply grows_refl|].
  destruct (deallocate_reply env (trace w) [oldNode]); [by apply grows_same_txs|].
  set (w1 := emit _ w).
  apply (grows_trans P _ w1); [by apply grows_same_txs|].
  destruct (allocate_reply env (trace w1) 1%Z) as [newNodes err].
  set (w2 := emit _ w1).
  apply (grows_trans P _ w2); [by apply grows_same_txs|].
  assert (grows P w2 (let '(_, w) := alertAndLog rc env
                         ("Unable to allocate nodes over grpc: " +:+ error_string err) w2 in
                      ("", Some (Errorf ("Unable to allocate nodes over grpc: "
                                          +:+ error_string err)), w)).2) as Galert.
  { pose proof (alertAndLog_grows rc env P
                  ("Unable to allocate nodes over grpc: " +:+ error_string err) w2) as G.
    by destruct (alertAndLog rc env _ w2). }
  destruct err as [e|]; [exact Galert|].
  destruct newNodes as [|newNode others]; [exact Galert|].
  pose proof (transaction_New_grows P w2) as G0.
  destruct (transaction_New Background w2) as [writeCtx w3]. cbn [snd] in G0.
  unfold CASTxn.
  set (op := OpCASStatus _ _ _).
  pose proof (addOp_grows P writeCtx op w3 (Hstatus _ _ _)) as G1.
  destruct (addOp writeCtx op w3) as [[e|] w4]; cbn [snd] in *.
  { eapply grows_trans; [|apply cancelFunc_grows]. by eapply grows_trans. }
  pose proof (transaction_MustCommit_grows writeCtx w4) as G2.
  destruct (transaction_MustCommit env writeCtx w4) as [[e|] w5]; cbn [snd] in *;
    (eapply grows_trans; [|apply cancelFunc_grows]);
    eauto using grows_trans.
Qed.

Lemma scheduleWithoutLabel_grows newNode w :
  grows P w (scheduleWithoutLabel rc env newNode w).2.
Proof.
  unfold scheduleWithoutLabel.
  pose proof (transaction_New_grows P w) as G0.
  destruct (transaction_New Background w) as [writeCtx w1]. cbn [snd] in G0.
  unfold SetPodTxn.
  assert (P (OpSetPod INTENT_TREE newNode (fields.Manifest rc))) as HP.
  { pose proof (Hschedule newNode) as H. apply Forall_cons in H as [_ H].
    by apply Forall_cons in H as [H _]. }
  pose proof (addOp_grows P writeCtx _ (logf (LogScheduling newNode) w1) HP) as G1.
  destruct (addOp writeCtx _ (logf (LogScheduling newNode) w1)) as [[e|] w2];
    cbn [snd] in *.
  { eapply grows_trans; [|apply cancelFunc_grows].
    eapply grows_trans; [exact G0|]. by eapply grows_emit. }
  pose proof (transaction_Commit_grows env P writeCtx w2) as G2.
  destruct (transaction_Commit env writeCtx w2) as [r w3]. cbn [snd] in *.
  eapply grows_trans; [|apply cancelFunc_grows].
  eapply grows_trans; [exact G0|]. eapply grows_emit. by eapply grows_trans.
Qed.

Lemma updateAllocationsAndReschedule_grows ineligible w :
  grows P w (updateAllocationsAndReschedule rc env ineligible w).2.
Proof.
  unfold updateAllocationsAndReschedule.
  destruct (negb _).
  - pose proof (alertAndLog_grows rc env P
                  ("Non-cattle RC has scheduled " +:+ pretty (length ineligible)
                   +:+ " ineligible nodes: " +:+ String.concat " " ineligible) w) as G.
    by destruct (alertAndLog rc env _ w).
  - pose proof (updateAllocations_grows ineligible w) as G1.
    destruct (updateAllocations rc env ineligible w) as [[newNode [e|]] w1];
      cbn [snd] in *; [done|].
    pose proof (scheduleWithoutLabel_grows newNode w1) as G2.
    destruct (scheduleWithoutLabel rc env newNode w1) as [[e|] w2]; cbn [snd] in *;
      by eapply grows_trans.
Qed.

Lemma isNodeTransferInProgress_grows w :
  grows P w (isNodeTransferInProgress rc env w).2.
Proof.
  unfold isNodeTransferInProgress.
  destruct (status_reply env (trace w) (fields.ID rc)) as [status [e|]];
    [destruct (negb (IsNoStatus e))|]; by apply grows_same_txs.
Qed.

Lemma transferNodes_grows ineligible w :
  grows P w (transferNodes rc env ineligible w).2.
Proof.
  unfold transferNodes.
  pose proof (isNodeTransferInProgress_grows w) as G1.
  destruct (isNodeTransferInProgress rc env w) as [[[|] [e|]] w1]; cbn [snd] in *;
    try done.
  pose proof (updateAllocationsAndReschedule_grows ineligible w1) as G2.
  destruct (updateAllocationsAndReschedule rc env ineligible w1) as [[newNode [e|]] w2];
    cbn [snd] in *; by eapply grows_trans.
Qed.

Lemma CurrentPods_grows w : grows P w (CurrentPods rc env w).2.
Proof.
  unfold CurrentPods.
  destruct (matches_reply env (trace w) _) as [ms [e|]]; by apply grows_same_txs.
Qed.

(** A whole pass, given what [removePods] may add when it is reached. *)
Lemma meetDesires_grows w :
  (forall current eligible w0 w1 w',
     CurrentPods rc env w0 = ((current, None), w1) ->
     (fields.ReplicasDesired rc <? Z.of_nat (length current))%Z = true ->
     grows P w' (removePods rc env current eligible w').2) ->
  (forall ineligible w', grows P w' (transferNodes rc env ineligible w').2) ->
  grows P w (meetDesires rc env w).2.
Proof.
  intros Hremove Htransfer. unfold meetDesires.
  set (w0 := logf _ w).
  apply (grows_trans P _ w0); [by apply grows_same_txs|].
  destruct (fields.Disabled rc); [apply grows_refl|].
  pose proof (CurrentPods_grows w0) as G1.
  destruct (CurrentPods rc env w0) as [[current [e|]] w1] eqn:EC; cbn [snd] in *; [done|].
  eapply grows_trans; [exact G1|].
  unfold eligibleNodes.
  destruct (eligible_reply env (trace w1)) as [eligible [e|]];
    [by apply grows_same_txs|].
  set (w2 := emit _ w1). set (w3 := logf _ w2).
  apply (grows_trans P _ w3); [by apply grows_same_txs|].
  assert (exists err nodesChanged w4,
            (if (Z.of_nat (length current) <? fields.ReplicasDesired rc)%Z
             then let '(err, w) := addPods rc env current eligible w3 in (err, true, w)
             else if (fields.ReplicasDesired rc <? Z.of_nat (length current))%Z
                  then let '(err, w) := removePods rc env current eligible w3 in
                       (err, true, w)
                  else (None, false, logf LogTakingNoAction w3))
            = (err, nodesChanged, w4) /\ grows P w3 w4)
    as (err & nodesChanged & w4 & -> & G4).
  { destruct (Z.of_nat (length current) <? fields.ReplicasDesired rc)%Z.
    - pose proof (addPods_grows rc env P Haudit current eligible w3 Hschedule) as G.
      destruct (addPods rc env current eligible w3) as [err w4]. by eexists _, _, _.
    - destruct (fields.ReplicasDesired rc <? Z.of_nat (length current))%Z eqn:Hlt.
      + pose proof (Hremove current eligible w0 w1 w3 EC Hlt) as G.
        destruct (removePods rc env current eligible w3) as [err w4]. by eexists _, _, _.
      + eexists _, _, _. split; [done|]. by apply grows_same_txs. }
  eapply grows_trans; [exact G4|].
  destruct err as [e|]; [apply grows_refl|].
  assert (exists current' err' w5,
            (if nodesChanged then CurrentPods rc env w4 else (current, None, w4))
            = (current', err', w5) /\ grows P w4 w5)
    as (current' & err' & w5 & -> & G5).
  { destruct nodesChanged.
    - pose proof (CurrentPods_grows w4) as G.
      destruct (CurrentPods rc env w4) as [[c' e'] w5]. by eexists _, _, _.
    - eexists _, _, _. split; [done|apply grows_refl]. }
  eapply grows_trans; [exact G5|].
  destruct err' as [e|]; [apply grows_refl|].
  assert (exists err'' w6,
            (if (0 <? length (checkForIneligible current' eligible))%nat
             then transferNodes rc env (checkForIneligible current' eligible) w5
             else (None, w5)) = (err'', w6) /\ grows P w5 w6)
    as (err'' & w6 & -> & G6).
  { destruct (0 <? length (checkForIneligible current' eligible))%nat.
    - pose proof (Htransfer (checkForIneligible current' eligible) w5) as G.
      destruct (transferNodes rc env _ w5) as [e'' w6]. by eexists _, _.
    - eexists _, _. split; [done|apply grows_refl]. }
  eapply grows_trans; [exact G6|].
  destruct err'' as [e|]; [apply grows_refl|].
  apply ensureConsistency_grows.
Qed.

End pass_grows_more.

(** ** Whole passes *)

Section pass_properties.
Import transaction.
Variable rc : fields.RC.
Variable env : Env.

Lemma scheduleOps_write_labels node : Forall (writesPodLabels rc) (scheduleOps rc node).
Proof.
  unfold scheduleOps. repeat constructor; [by intros ? ? [= _ <-]|done].
Qed.

(** X1. Every label write that a reconciliation pass leaves in a
    transaction, and that was not there before the pass, writes the map of
    [computePodLabels]: whichever of scheduling, unscheduling, transfer and
    consistency repair the pass goes through. *)
Theorem meetDesires_label_writes (w : World) :
  grows (writesPodLabels rc) w (meetDesires rc env w).2.
Proof.
  apply meetDesires_grows.
  - apply scheduleOps_write_labels.
  - done.
  - intros current eligible _ _ w' _ _. apply removePods_grows; [done|].
    intros node. unfold unscheduleOps. by repeat constructor.
  - intros ineligible w'. apply transferNodes_grows; [|done].
    apply scheduleOps_write_labels.
Qed.

Lemma locations_length (ms : list (PodLocation + error)) :
  (length (locations ms).1 <= length ms)%nat.
Proof.
  induction ms as [|[l|e] ms IH]; cbn; [lia| |lia].
  destruct (locations ms) as [ls [e|]]; cbn in *; lia.
Qed.

(** X2. A pass that never finds more pods than desired takes no pod off a
    node: no intent-delete and no label-remove is added to any transaction. *)
Theorem meetDesires_removes_only_to_scale_down (w : World) :
  (forall tr selector,
     (Z.of_nat (length (matches_reply env tr selector).1) <= fields.ReplicasDesired rc)%Z) ->
  grows (fun op => isRemoval op = false) w (meetDesires rc env w).2.
Proof.
  intros Hfew. apply meetDesires_grows.
  - intros node. unfold scheduleOps. by repeat constructor.
  - done.
  - intros current eligible w0 w1 w' EC Hlt. exfalso.
    apply Z.ltb_lt in Hlt. unfold CurrentPods in EC.
    specialize (Hfew (trace w0) (RCIDLabel +:+ "=" +:+ fields.ID rc)).
    destruct (matches_reply env (trace w0) _) as [ms [e|]]; [done|].
    pose proof (locations_length ms) as Hl.
    destruct (locations ms) as [ls e'] eqn:El. injection EC as -> -> _.
    cbn [fst] in *. lia.
  - intros ineligible w'. apply transferNodes_grows; [|done].
    intros node. unfold scheduleOps. by repeat constructor.
Qed.

(** X3. A pass of an RC whose allocation strategy is not cattle adds no
    write of the RC status (no node transfer is recorded), whatever nodes
    are ineligible. *)
Theorem meetDesires_pinned_writes_no_status (w : World) :
  fields.AllocationStrategy rc <> fields.CattleStrategy ->
  grows (fun op => isStatusWrite op = false) w (meetDesires rc env w).2.
Proof.
  intros Hpinned. apply meetDesires_grows.
  - intros node. unfold scheduleOps. by repeat constructor.
  - done.
  - intros current eligible _ _ w' _ _. apply removePods_grows; [done|].
    intros node. unfold unscheduleOps. by repeat constructor.
  - intros ineligible w'. unfold transferNodes.
    pose proof (isNodeTransferInProgress_grows rc env
                  (fun op => isStatusWrite op = false) w') as G1.
    destruct (isNodeTransferInProgress rc env w') as [[[|] [e|]] w1]; cbn [snd] in *;
      try done.
    unfold updateAllocationsAndReschedule.
    destruct (fields.AllocationStrategy rc); [done|]. cbn [fields.Strategy_eqb negb].
    pose proof (alertAndLog_grows rc env (fun op => isStatusWrite op = false)
                  ("Non-cattle RC has scheduled " +:+ pretty (length ineligible)
                   +:+ " ineligible nodes: " +:+ String.concat " " ineligible) w1) as G2.
    destruct (alertAndLog rc env _ w1) as [[e|] w2]; cbn [snd] in *;
      by eapply grows_trans.
Qed.

End pass_properties.

(** A pass that scales "rc1" up from one pod to three with its intents up to
    date removes nothing. *)
Lemma meetDesires_removes_only_to_scale_down_witness :
  grows (fun op => isRemoval op = false) fleet.start
    (meetDesires (fleet.rc1 3 false fields.CattleStrategy)
       (fleet.env1 ["n1"] ["n1"; "n2"; "n3"] fleet.consistent fleet.noStatus)
       fleet.start).2.
Proof.
  apply (meetDesires_removes_only_to_scale_down
           (fleet.rc1 3 false fields.CattleStrategy)
           (fleet.env1 ["n1"] ["n1"; "n2"; "n3"] fleet.consistent fleet.noStatus)
           fleet.start).
  intros tr selector. vm_compute. discriminate.
Defined.

(** A pinned "rc1" with its pod on the ineligible n1 records no transfer. *)
Lemma meetDesires_pinned_writes_no_status_witness :
  grows (fun op => isStatusWrite op = false) fleet.start
    (meetDesires (fleet.rc1 1 false fields.PinnedStrategy)
       (fleet.env1 ["n1"] ["n2"] fleet.consistent fleet.noStatus)
       fleet.start).2.
Proof.
  apply (meetDesires_pinned_writes_no_status
           (fleet.rc1 1 false fields.PinnedStrategy)
           (fleet.env1 ["n1"] ["n2"] fleet.consistent fleet.noStatus)
           fleet.start).
  discriminate.
Defined.

(** ** The transfer of a pod off an ineligible node *)

Section transfer_facts.
Import transaction.
Variable rc : fields.RC.
Variable env : Env.

Lemma transaction_MustCommit_Cur m ctx w t r w' :
  Cur m ctx w t -> alreadyCommitted t = false -> kvOps t <> [] ->
  transaction_MustCommit env ctx w = (r, w') ->
  Cur m ctx w' {| kvOps := kvOps t; alreadyCommitted := true |} /\
  step m w w' [] [EvTxn (kvOps t)] /\
  (r = None <-> accepts (txn_reply env (trace w) (kvOps t))).
Proof.
  intros HC Hopen Hne E.
  destruct (transaction_Commit env ctx w) as [rc0 w0] eqn:EC.
  assert (w' = w0 /\ r = match rc0 with
                         | (_, _, Some e) => Some e
                         | (true, _, None) => None
                         | (false, errs, None) =>
                             Some (Errorf ("transaction rolled back: "
                                           +:+ TxnErrorsToString errs))
                         end) as [-> ->].
  { unfold transaction_MustCommit, MustCommit, transaction_Commit in *.
    destruct (Commit ctx (txner env) (txs w) (trace w)) as [[[[ok errs] err] h] tr].
    injection EC as <- <-. destruct err, ok; by injection E as <- <-. }
  destruct (transaction_Commit_Cur env _ _ _ _ _ _ HC EC)
    as [(? & _)|(_ & HC' & [(? & _)|(_ & -> & Hs)])]; [congruence|done|].
  split; [done|]. split; [done|]. unfold replyTuple, accepts.
  destruct (txn_reply env (trace w) (kvOps t)) as [[|] errs [e|]]; cbn;
    split; intros H; try done; by destruct H.
Qed.



Lemma updateAllocations_step m (ineligible : list NodeName) (w w' : World)
    (newNode : NodeName) :
  (m <= length (txs w))%nat ->
  updateAllocations rc env ineligible w = ((newNode, None), w') ->
  exists oldNode rest,
    ineligible = oldNode :: rest /\
    let cas := OpCASStatus (fields.ID rc) 0
                 {| rcstatus.NodeTransfer_ :=
                      Some {| rcstatus.OldNode := oldNode;
                              rcstatus.NewNode := newNode |} |} in
    let asked := [EvDeallocateNodes [oldNode]; EvAllocateNodes 1] in
    step m w w' [cas] (asked ++ [EvTxn [cas]]) /\
    deallocate_reply env (trace w) [oldNode] = None /\
    head (allocate_reply env (trace w ++ [EvDeallocateNodes [oldNode]]) 1).1
      = Some newNode /\
    accepts (txn_reply env (trace w ++ asked) [cas]).
Proof.
  intros Hm. unfold updateAllocations. destruct ineligible as [|oldNode rest]; [done|].
  intros E. exists oldNode, rest. split; [done|]. cbn zeta.
  destruct (deallocate_reply env (trace w) [oldNode]) as [e|] eqn:ED; [done|].
  set (w1 := emit (EvDeallocateNodes [oldNode]) w) in *.
  destruct (allocate_reply env (trace w1) 1) as [newNodes aerr] eqn:EAl.
  set (w2 := emit (EvAllocateNodes 1) w1) in *.
  assert (aerr = None /\ exists others, newNodes = newNode :: others /\
          (let status := {| rcstatus.NodeTransfer_ :=
                      Some {| rcstatus.OldNode := oldNode;
                              rcstatus.NewNode := newNode |} |} in
           let '(writeCtx, w) := transaction_New Background w2 in
           match CASTxn writeCtx (fields.ID rc) 0 status w with
           | (Some e, w) => (("", Some (Errorf ("Could not write new node to store: "
                                      +:+ error_string (Some e)))),
                   cancelFunc writeCtx w)
           | (None, w) =>
               match transaction_MustCommit env writeCtx w with
               | (Some e, w) => (("", Some (Errorf ("Could not commit CASTxn: "
                                          +:+ error_string (Some e)))),
                       cancelFunc writeCtx w)
               | (None, w) => ((newNode, None), cancelFunc writeCtx w)
               end
           end) = ((newNode, None), w')) as (-> & others & -> & E').
  { destruct aerr as [e|], newNodes as [|n others];
      try (by destruct (alertAndLog rc env _ w2)).
    cbn zeta in E.
    destruct (transaction_New Background w2) as [writeCtx w3].
    destruct (CASTxn writeCtx _ _ _ w3) as [[e|] w4] eqn:ECas; [done|].
    destruct (transaction_MustCommit env writeCtx w4) as [[e|] w5] eqn:EM; [done|].
    injection E as -> <-. split; [done|]. exists others. split; [done|].
    cbn zeta. by rewrite ECas, EM. }
  clear E. cbn zeta in E'. unfold CASTxn in E'.
  set (cas := OpCASStatus _ _ _) in *.
  destruct (transaction_New Background w2) as [ctx w3] eqn:EN.
  apply (transaction_New_Cur m) in EN as (HC3 & Hs3); [|done].
  destruct (addOp ctx cas w3) as [ra w4] eqn:EA.
  destruct (addOp_Cur _ _ _ _ _ _ _ HC3 EA)
    as [(_ & _ & -> & HC4 & Hs4)|([?|Hlen] & _)]; [|done|cbn in Hlen; lia].
  destruct (transaction_MustCommit env ctx w4) as [rm w5] eqn:EM.
  destruct (transaction_MustCommit_Cur _ _ _ _ _ _ HC4 eq_refl ltac:(done) EM)
    as (HC5 & Hs5 & Hacc).
  destruct rm as [e|]; [done|]. injection E' as <-.
  cbn [kvOps app] in *.
  pose proof (step_trans _ _ _ _ _ _ _ _ (emit_step m _ w)
               (step_trans _ _ _ _ _ _ _ _ (emit_step m _ w1)
                 (step_trans _ _ _ _ _ _ _ _ Hs3
                   (step_trans _ _ _ _ _ _ _ _ Hs4
                     (step_trans _ _ _ _ _ _ _ _ Hs5
                        (cancelFunc_step _ ctx w5)))))) as Hs.
  cbn [app] in *.
  split; [done|]. split; [done|]. split.
  { change (trace w1) with (trace w ++ [EvDeallocateNodes [oldNode]]) in EAl.
    by rewrite EAl. }
  apply proj1 in Hacc. specialize (Hacc eq_refl).
  destruct Hs4 as (_ & _ & Ht4). destruct Hs3 as (_ & _ & Ht3).
  rewrite Ht4, Ht3 in Hacc. rewrite !app_nil_r in Hacc.
  unfold w2, w1, emit in Hacc. cbn [trace] in Hacc. by rewrite <- app_assoc in Hacc.
Qed.

(** X5. When [updateAllocations] returns a node without error, the list of
    ineligible nodes was not empty; its head, and no other node, has been
    deallocated; one node has been requested from the scheduler after that,
    and the node returned is the first one it answered with; and the one
    transaction the function made holds a single compare-and-set of the RC
    status at index 0, recording the transfer from the old node to the new
    one, which the store took. *)
Theorem updateAllocations_records_transfer (ineligible : list NodeName) (w w' : World)
    (newNode : NodeName) :
  updateAllocations rc env ineligible w = ((newNode, None), w') ->
  exists oldNode rest,
    ineligible = oldNode :: rest /\
    let cas := OpCASStatus (fields.ID rc) 0
                 {| rcstatus.NodeTransfer_ :=
                      Some {| rcstatus.OldNode := oldNode;
                              rcstatus.NewNode := newNode |} |} in
    let asked := [EvDeallocateNodes [oldNode]; EvAllocateNodes 1] in
    trace w' = trace w ++ asked ++ [EvTxn [cas]] /\
    opsFrom (length (txs w)) w' = [cas] /\
    deallocate_reply env (trace w) [oldNode] = None /\
    head (allocate_reply env (trace w ++ [EvDeallocateNodes [oldNode]]) 1).1
      = Some newNode /\
    accepts (txn_reply env (trace w ++ asked) [cas]).
Proof.
  intros E.
  destruct (updateAllocations_step (length (txs w)) _ _ _ _ ltac:(done) E)
    as (oldNode & rest & -> & Hs & Hd & Ha & Hacc).
  exists oldNode, rest. split; [done|]. cbn zeta.
  apply step_from_start in Hs as (Ho & _ & Htr). done.
Qed.

(** X6. [updateAllocations] asks nothing of anyone when there is no
    ineligible node; it requests no node when the deallocation of the old
    one fails; and when the allocation fails or answers with no node, it
    sends one alert and creates no transaction. In each of the three cases it
    returns an error and no operation is added. *)
Theorem updateAllocations_gives_up (ineligible : list NodeName) (w : World) :
  let r := updateAllocations rc env ineligible w in
  match ineligible with
  | [] => r = (("", Some (Errorf "Need at least one ineligible node to transfer from, had 0")), w)
  | oldNode :: _ =>
      match deallocate_reply env (trace w) [oldNode] with
      | Some e =>
          r.1.2 <> None /\ txs r.2 = txs w /\
          trace r.2 = trace w ++ [EvDeallocateNodes [oldNode]]
      | None =>
          match allocate_reply env (trace w ++ [EvDeallocateNodes [oldNode]]) 1 with
          | (newNode :: _, None) => True
          | (_, err) =>
              r.1.2 <> None /\ txs r.2 = txs w /\
              exists logs,
                trace r.2 = trace w ++ [EvDeallocateNodes [oldNode]; EvAllocateNodes 1;
                                        EvAlert (alertInfo rc env
                                          ("Unable to allocate nodes over grpc: "
                                           +:+ error_string err))] ++ logs /\
                Forall (fun e => quiet e = true) logs
          end
      end
  end.
Proof.
  cbn zeta. unfold updateAllocations. destruct ineligible as [|oldNode rest]; [done|].
  destruct (deallocate_reply env (trace w) [oldNode]) as [e|] eqn:ED; [done|].
  change (trace (emit (EvDeallocateNodes [oldNode]) w))
    with (trace w ++ [EvDeallocateNodes [oldNode]]).
  destruct (allocate_reply env _ 1) as [newNodes aerr].
  assert (forall msg w0, let r := alertAndLog rc env msg w0 in
            txs r.2 = txs w0 /\ exists logs,
              trace r.2 = trace w0 ++ [EvAlert (alertInfo rc env msg)] ++ logs /\
              Forall (fun e => quiet e = true) logs) as HA.
  { intros msg w0. unfold alertAndLog, Alert.
    destruct (alert_reply env (trace w0) (alertInfo rc env msg)) as [e|]; cbn.
    - split; [done|]. exists [EvLog (LogUnableToSendAlert e)].
      rewrite <- app_assoc. split; [done|]. by repeat constructor.
    - split; [done|]. exists []. done. }
  destruct aerr as [e|], newNodes as [|n others]; try done;
    match goal with
    | |- context [alertAndLog rc env ?msg ?w0] =>
        destruct (HA msg w0) as (Ht & logs & Htr & Hq);
        destruct (alertAndLog rc env msg w0) as [ra w3]; cbn [fst snd] in *;
        (split; [done|]); (split; [done|]); exists logs; split; [|done];
        rewrite Htr; cbn [trace emit]; by rewrite <- !app_assoc
    end.
Qed.


(** X7. [transferNodes] does nothing while a transfer is recorded in the RC
    status: when the status store answers, without error or with the "no
    status" error, a status that holds a node transfer, [transferNodes]
    returns [nil] after that one read, whatever the ineligible nodes are. *)
Theorem transferNodes_waits_for_transfer (ineligible : list NodeName) (w : World)
    (status : rcstatus.Status) (err : option error) :
  status_reply env (trace w) (fields.ID rc) = (status, err) ->
  (forall e, err = Some e -> IsNoStatus e = true) ->
  is_Some (rcstatus.NodeTransfer_ status) ->
  transferNodes rc env ineligible w = (None, emit (EvStatusGet (fields.ID rc)) w).
Proof.
  intros Hstatus Herr Htransfer.
  unfold transferNodes, isNodeTransferInProgress. rewrite Hstatus.
  destruct err as [e|].
  - rewrite (Herr e eq_refl). cbn [negb]. by rewrite (bool_decide_eq_true_2 _ Htransfer).
  - by rewrite (bool_decide_eq_true_2 _ Htransfer).
Qed.


End transfer_facts.

(** ** Batches *)

Section batch_facts.
Import transaction.
Variable rc : fields.RC.
Variable env : Env.

Lemma txnsWithin_app k evs1 evs2 :
  txnsWithin k evs1 -> txnsWithin k evs2 -> txnsWithin k (evs1 ++ evs2).
Proof. intros H1 H2. apply Forall_app. done. Qed.

Lemma accepts_later (w : World) (evs0 : list Event) :
  (forall evs ops, accepts (txn_reply env (trace w ++ evs) ops)) ->
  forall evs ops, accepts (txn_reply env ((trace w ++ evs0) ++ evs) ops).
Proof. intros H evs ops. rewrite <- app_assoc. apply H. Qed.

Lemma accepts_now (w : World) :
  (forall evs ops, accepts (txn_reply env (trace w ++ evs) ops)) ->
  forall ops, accepts (txn_reply env (trace w) ops).
Proof. intros H ops. specialize (H [] ops). by rewrite app_nil_r in H. Qed.

(** The commit of an open auditing transaction that has room for the audit
    record. *)
Lemma auditing_Commit_open m txn w t :
  Cur m (at_ctx txn) w t -> alreadyCommitted t = false ->
  (length (kvOps t) < 64)%nat ->
  let audit := OpAuditLog (fields.ID rc) (at_start txn) (Nodes_ txn) in
  exists w' t',
    auditing_Commit (fields.ID rc) env txn w
    = (replyTuple (txn_reply env (trace w) (kvOps t ++ [audit])), w') /\
    Cur m (at_ctx txn) w' t' /\
    step m w w' [audit] [EvTxn (kvOps t ++ [audit])].
Proof.
  intros HC Hopen Hlen audit.
  destruct (auditing_Commit (fields.ID rc) env txn w) as [r w'] eqn:EC.
  destruct (auditing_Commit_Cur rc env _ _ _ _ _ _ HC EC)
    as (t' & HC' & [(_ & _ & Hs & ->)|([?|?] & _)]); [|congruence|lia].
  by exists w', t'.
Qed.

(** The batch step on an open transaction that holds the [2 * (i - 5 * q)]
    operations of the iterations since the [q]-th commit. *)
Lemma nextBatch_open m i q txn w t :
  Cur m (at_ctx txn) w t -> alreadyCommitted t = false ->
  (i = 0 /\ q = 0 \/ 5 * q < i <= 5 * q + 5)%nat ->
  length (kvOps t) = (2 * (i - 5 * q))%nat ->
  match nextBatch rc env i txn w with
  | inl (_, w') =>
      exists ops, step m w w' (drop (length (kvOps t)) ops) [EvTxn ops] /\
        (length ops <= 11)%nat /\
        ~ accepts (txn_reply env (trace w) ops)
  | inr (txn', w') =>
      exists q' t' ops evs, Cur m (at_ctx txn') w' t' /\ alreadyCommitted t' = false /\
        (5 * q' <= i < 5 * q' + 5)%nat /\
        length (kvOps t') = (2 * (i - 5 * q'))%nat /\
        step m w w' ops evs /\ auditOnly ops /\
        txnsWithin 11 evs /\ Forall (fun e => isAlert e = false) evs
  end.
Proof.
  intros HC Hopen Hq Hlen. unfold nextBatch.
  destruct ((i `mod` 5 =? 0)%nat && (0 <? i)%nat) eqn:Hb.
  - pose proof (batch_due _ _ Hq Hb) as ->.
    destruct (auditing_Commit_open m txn w t HC Hopen ltac:(lia))
      as (w1 & t1 & -> & HC1 & Hs1).
    set (audit := OpAuditLog _ _ _) in *.
    assert (length (kvOps t ++ [audit]) <= 11)%nat as Hsz.
    { rewrite length_app. cbn. lia. }
    destruct (commitOutcome _ _) as [err|] eqn:Hout.
    + exists (kvOps t ++ [audit]). rewrite drop_app_length.
      split; [done|]. split; [done|].
      intros Hacc. by rewrite (commitOutcome_accepted _ _ Hacc) in Hout.
    + destruct (newAuditingTransaction _ _ _) as [txn' w'] eqn:EN.
      apply (newAuditingTransaction_Cur m) in EN as (HC' & Hs' & _).
      * exists (q + 1)%nat, {| kvOps := []; alreadyCommitted := false |},
          [audit], [EvTxn (kvOps t ++ [audit])].
        split; [done|]. split; [done|]. split; [lia|].
        split; [cbn; lia|]. split.
        { apply (step_trans _ _ _ _ _ _ _ _ Hs1).
          apply (step_trans _ _ _ _ [] [] [] [] (cancelFunc_step _ _ _) Hs'). }
        split; [by repeat constructor|].
        split; [by apply Forall_singleton|]. by apply Forall_singleton.
      * destruct (at_ctx txn); cbn; by eapply Cur_length.
  - pose proof (batch_not_due _ _ Hq Hb).
    exists q, t, [], []. split; [done|]. split; [done|]. split; [done|].
    split; [done|]. split; [apply step_refl|].
    split; [constructor|]. split; constructor.
Qed.

Lemma not_txn_within k logs :
  Forall (fun e => isAlert e = false /\ isTxn e = false) logs -> txnsWithin k logs.
Proof. intros H. eapply Forall_impl; [exact H|]. intros [] [_ ?]; done. Qed.

(** The loop of [addPods] on an open transaction: every call to the store
    carries at most 11 operations (five schedulings and the audit record);
    and when the store takes every transaction and the candidates suffice,
    the loop ends without error. *)
Lemma addPods_loop_batches m cn el (ps : list string) (n : nat) :
  forall (i q : nat) txn w t,
  Cur m (at_ctx txn) w t -> alreadyCommitted t = false ->
  (i = 0 /\ q = 0 \/ 5 * q < i <= 5 * q + 5)%nat ->
  length (kvOps t) = (2 * (i - 5 * q))%nat ->
  match addPods_loop rc env cn el ps n i txn w with
  | (r, txn', w') =>
      exists evs, trace w' = trace w ++ evs /\ txnsWithin 11 evs /\
        (r = None ->
         Forall (fun e => isAlert e = false) evs /\
         exists t', Cur m (at_ctx txn') w' t' /\ alreadyCommitted t' = false /\
                    (length (kvOps t') <= 10)%nat) /\
        ((forall evs ops, accepts (txn_reply env (trace w ++ evs) ops)) ->
         (i + n <= length ps)%nat -> r = None)
  end.
Proof.
  induction n as [|n IH]; intros i q txn w t HC Hopen Hq Hlen; cbn [addPods_loop].
  { exists []. rewrite app_nil_r. split; [done|]. split; [constructor|].
    split; [|done]. intros _. split; [constructor|]. exists t.
    split; [done|]. split; [done|]. lia. }
  pose proof (nextBatch_open m i q txn w t HC Hopen Hq Hlen) as HB.
  destruct (nextBatch rc env i txn w) as [[err w1]|[txn1 w1]].
  { destruct HB as (ops & (_ & _ & Htr) & Hsz & Hrej).
    exists [EvTxn ops]. split; [done|]. split; [by apply Forall_singleton|].
    split; [done|]. intros Hstore _. destruct Hrej. by apply accepts_now. }
  destruct HB as (q' & t1 & ops1 & evs1 & HC1 & Hopen1 & Hq' & Hlen1 & Hs1 & _ & Hw1 & Hal1).
  destruct Hs1 as (_ & _ & Htr1).
  destruct (length ps <? i + 1)%nat eqn:Hfew.
  - apply Nat.ltb_lt in Hfew.
    destruct (alertAndLog rc env _ w1) as [ra w2] eqn:EA.
    destruct (alertAndLog_Cur rc env m _ _ _ _ _ _ HC1 EA) as (HC2 & logs & Hs2 & Hlogs).
    destruct (auditing_Commit_open m txn1 w2 t1 HC2 Hopen1 ltac:(lia))
      as (w3 & t3 & -> & HC3 & Hs3).
    set (audit := OpAuditLog _ _ _) in *.
    assert (exists evs, trace w3 = trace w ++ evs /\ txnsWithin 11 evs)
      as (evs & Htr & Hw).
    { eexists. split.
      - destruct Hs3 as (_ & _ & ->). destruct Hs2 as (_ & _ & ->).
        rewrite Htr1. by rewrite <- !app_assoc.
      - apply txnsWithin_app; [done|].
        apply txnsWithin_app; [constructor; [done|by apply not_txn_within]|].
        apply Forall_singleton. rewrite length_app. cbn. lia. }
    destruct (commitOutcome _ _); exists evs;
      (split; [done|]); (split; [done|]); (split; [done|]); intros; lia.
  - apply Nat.ltb_ge in Hfew.
    destruct (ps !! i) as [x|] eqn:Hx; [|apply lookup_ge_None in Hx; lia].
    cbn [default from_option id].
    destruct (schedule rc txn1 x w1) as [[rs txn2] w2] eqn:ES.
    destruct (schedule_Cur rc _ _ _ _ _ _ _ _ HC1 ES)
      as (Hctx & t2 & ops2 & HC2 & Hs2 & Hk2 & Hr & Hok).
    rewrite <- Hctx in HC2.
    specialize (Hok Hopen1 ltac:(lia)). subst rs.
    destruct Hr as [(_ & -> & Hopen2)|(? & _)]; [|done].
    destruct Hs2 as (_ & _ & Htr2).
    specialize (IH (S i) q' txn2 w2 t2 HC2 Hopen2 ltac:(lia)).
    destruct (addPods_loop rc env cn el ps n (S i) txn2 w2) as [[r txn3] w3].
    destruct IH as (evs3 & Htr3 & Hw3 & Hnone & Hacc).
    { rewrite Hk2, length_app, Hlen1.
      change (length (scheduleOps rc x)) with 2%nat. lia. }
    exists (evs1 ++ [EvLog (LogScheduling x)] ++ evs3).
    split; [by rewrite Htr3, Htr2, Htr1, <- !app_assoc|].
    split; [apply txnsWithin_app; [done|]; apply txnsWithin_app;
            [by apply Forall_singleton|done]|].
    split.
    + intros Hn. destruct (Hnone Hn) as (Ha & Ht'). split; [|done].
      apply Forall_app; split; [done|]. apply Forall_app; split; [|done].
      by apply Forall_singleton.
    + intros Hstore Hn. apply Hacc; [|lia].
      rewrite Htr2, Htr1. intros evs ops. rewrite <- !app_assoc. apply Hstore.
Qed.

(** X8. Every call to the store that a pass of [addPods] makes carries at
    most 11 operations: the two of each of up to five schedulings, and the
    audit record. *)
Theorem addPods_batches_of_five (current : PodLocations) (eligible : list NodeName)
    (w : World) :
  exists evs, trace (addPods rc env current eligible w).2 = trace w ++ evs /\
              txnsWithin 11 evs.
Proof.
  unfold addPods.
  set (ps := ListNodes _). set (n0 := Z.to_nat _). set (w0 := logf _ w).
  destruct (newAuditingTransaction Background (Nodes current) w0) as [txn w1] eqn:EN.
  apply (newAuditingTransaction_Cur 0) in EN as (HC1 & (_ & _ & Htr1) & _); [|lia].
  pose proof (addPods_loop_batches 0 (Nodes current) eligible ps n0 0 0 txn w1 _
                HC1 eq_refl ltac:(lia) eq_refl) as HL.
  destruct (addPods_loop rc env (Nodes current) eligible ps n0 0 txn w1)
    as [[r txn2] w2].
  destruct HL as (evs & Htr & Hw & Hnone & _).
  assert (trace w2 = trace w ++ [EvLog (LogNeedSchedule
            (fields.ReplicasDesired rc - Z.of_nat (length (Nodes current)))
            (elements (Difference (NewNodeSet eligible) (NewNodeSet (Nodes current)))))]
            ++ evs) as Htr2.
  { rewrite Htr, Htr1, app_nil_r. unfold w0, logf, emit. cbn [trace].
    by rewrite <- app_assoc. }
  destruct r as [e|].
  - eexists. cbn [snd]. split.
    + destruct (at_ctx txn2); exact Htr2.
    + apply txnsWithin_app; [by apply Forall_singleton|done].
  - destruct (Hnone eq_refl) as (_ & t2 & HC2 & Hopen2 & Hlen2).
    destruct (auditing_Commit_open 0 txn2 w2 t2 HC2 Hopen2 ltac:(lia))
      as (w3 & t3 & -> & HC3 & (_ & _ & Htr3)).
    eexists. cbn [snd]. split.
    + assert (trace (cancelFunc (at_ctx txn2) w3) = trace w3) as ->
        by by destruct (at_ctx txn2).
      rewrite Htr3, Htr2. by rewrite <- !app_assoc.
    + apply txnsWithin_app; [by apply Forall_singleton|].
      apply txnsWithin_app; [done|]. apply Forall_singleton.
      rewrite length_app. cbn. lia.
Qed.

(** X9. When there are at least as many candidates as pods to schedule and
    the store takes every transaction, a pass of [addPods] returns [nil]: it
    has written intent on the first candidates, in their order, as many as
    there were pods to schedule, and has sent no alert. *)
Theorem addPods_succeeds (current : PodLocations) (eligible : list NodeName)
    (w : World) :
  let candidates :=
    ListNodes (Difference (NewNodeSet eligible) (NewNodeSet (Nodes current))) in
  let toSchedule :=
    Z.to_nat (fields.ReplicasDesired rc - Z.of_nat (length (Nodes current))) in
  (toSchedule <= length candidates)%nat ->
  (forall evs ops, accepts (txn_reply env (trace w ++ evs) ops)) ->
  let r := addPods rc env current eligible w in
  r.1 = None /\
  intentWrites (opsFrom (length (txs w)) r.2) = take toSchedule candidates /\
  exists evs, trace r.2 = trace w ++ evs /\ Forall (fun e => isAlert e = false) evs.
Proof.
  intros ps n0 Hn Hstore. cbn zeta. unfold addPods. fold ps. fold n0.
  set (w0 := logf _ w).
  destruct (newAuditingTransaction Background (Nodes current) w0) as [txn w1] eqn:EN.
  apply (newAuditingTransaction_Cur (length (txs w))) in EN as (HC1 & Hs1 & _); [|done].
  pose proof (addPods_loop_batches _ (Nodes current) eligible ps n0 0 0 txn w1 _
                HC1 eq_refl ltac:(lia) eq_refl) as HL.
  pose proof (addPods_loop_writes rc env (length (txs w)) (Nodes current) eligible
                ps n0 0 txn w1 _ HC1) as HW.
  destruct (addPods_loop rc env (Nodes current) eligible ps n0 0 txn w1)
    as [[r txn2] w2].
  destruct HL as (evs & Htr & Hw & Hnone & Hacc).
  destruct HW as (t2' & ops2 & evs2 & _ & Hs2 & _ & Hok).
  assert (trace w1 = trace w ++ [EvLog (LogNeedSchedule
            (fields.ReplicasDesired rc - Z.of_nat (length (Nodes current)))
            (elements (Difference (NewNodeSet eligible) (NewNodeSet (Nodes current)))))])
    as Htr1.
  { destruct Hs1 as (_ & _ & ->). by rewrite app_nil_r. }
  assert (r = None) as ->.
  { apply Hacc; [|lia]. rewrite Htr1. intros. rewrite <- app_assoc. apply Hstore. }
  destruct (Hnone eq_refl) as (Hal & t2 & HC2 & Hopen2 & Hlen2).
  destruct (Hok eq_refl) as (Hiw & _). rewrite drop_0 in Hiw.
  destruct (auditing_Commit_open _ txn2 w2 t2 HC2 Hopen2 ltac:(lia))
    as (w3 & t3 & -> & HC3 & Hs3).
  set (audit := OpAuditLog _ _ _) in *. cbn [fst snd].
  split.
  { apply commitOutcome_accepted.
    rewrite Htr, Htr1, <- app_assoc. apply Hstore. }
  pose proof (step_trans _ _ _ _ _ _ _ _ (emit_step (length (txs w)) _ w)
                (step_trans _ _ _ _ _ _ _ _ Hs1
                   (step_trans _ _ _ _ _ _ _ _ Hs2
                      (step_trans _ _ _ _ _ _ _ _ Hs3
                         (cancelFunc_step _ (at_ctx txn2) w3))))) as Hs.
  apply step_from_start in Hs as (-> & _ & Htr'). split.
  - cbn [app]. rewrite intentWrites_app, Hiw. cbn. by rewrite app_nil_r.
  - eexists. split; [exact Htr'|].
    destruct Hs2 as (_ & _ & Htr2). rewrite Htr in Htr2.
    apply app_inv_head in Htr2 as <-.
    cbn [app]. constructor; [done|].
    apply Forall_app; split; [done|]. by apply Forall_singleton.
Qed.

End batch_facts.

(** ** Scaling down *)

Section removePods_facts.
Import transaction.
Variable rc : fields.RC.
Variable env : Env.

Lemma unschedule_open m txn node w t :
  Cur m (at_ctx txn) w t -> alreadyCommitted t = false ->
  (length (kvOps t) + 2 <= 64)%nat ->
  exists txn' w' t',
    unschedule rc txn node w = (None, txn', w') /\
    at_ctx txn' = at_ctx txn /\ Cur m (at_ctx txn) w' t' /\
    alreadyCommitted t' = false /\
    kvOps t' = kvOps t ++ unscheduleOps rc node /\
    step m w w' (unscheduleOps rc node) [EvLog (LogUnscheduling node)].
Proof.
  intros HC Hopen Hlen.
  destruct (unschedule rc txn node w) as [[r txn'] w'] eqn:E.
  destruct (unschedule_Cur rc _ _ _ _ _ _ _ _ HC E)
    as (Hctx & t' & ops & HC' & Hs & Hk & Hr).
  assert (r = None) as ->.
  { revert E. unfold unschedule, Context_, DeletePodTxn, RemoveLabelsTxn.
    set (w0 := logf (LogUnscheduling node) w).
    pose proof (emit_Cur m (at_ctx txn) (EvLog (LogUnscheduling node)) w t HC) as HC0.
    fold (logf (LogUnscheduling node) w) in HC0. fold w0 in HC0.
    destruct (addOp (at_ctx txn) _ w0) as [r1 w1] eqn:E1.
    destruct (addOp_Cur _ _ _ _ _ _ _ HC0 E1)
      as [(_ & _ & -> & HC1 & _)|([?|?] & _)]; [|congruence|lia].
    destruct (addOp (at_ctx txn) _ w1) as [r2 w2] eqn:E2.
    destruct (addOp_Cur _ _ _ _ _ _ _ HC1 E2)
      as [(_ & _ & -> & _)|([?|Hl] & _)]; [|done|].
    - by intros [= <- _ _].
    - cbn in Hl. rewrite length_app in Hl. cbn in Hl. lia. }
  destruct Hr as [(_ & -> & Hopen')|(? & _)]; [|done].
  by exists txn', w', t'.
Qed.

Lemma intentDeletes_app ops1 ops2 :
  intentDeletes (ops1 ++ ops2) = intentDeletes ops1 ++ intentDeletes ops2.
Proof. apply omap_app. Qed.

(** What the two pops at the head of an iteration of [removePods] give. *)
Lemma pops_spec (k : nat) (preferred rest : gset string) :
  let '((x1, ok1), preferred') := PopAny k preferred in
  let '((x, ok), rest') :=
    if ok1 then ((x1, ok1), rest) else PopAny k rest in
  if ok
  then (x ∈ preferred /\ preferred' = preferred ∖ {[ x ]} /\ rest' = rest)
       \/ (preferred = ∅ /\ preferred' = preferred /\ x ∈ rest /\ rest' = rest ∖ {[ x ]})
  else preferred = ∅ /\ rest = ∅ /\ preferred' = preferred /\ rest' = rest.
Proof.
  pose proof (PopAny_spec k preferred) as HP.
  destruct (PopAny k preferred) as [[x1 [|]] preferred'].
  - left. by destruct HP.
  - destruct HP as [-> ->].
    pose proof (PopAny_spec k rest) as HP2.
    destruct (PopAny k rest) as [[x2 [|]] rest'].
    + right. by destruct HP2.
    + by destruct HP2.
Qed.

Lemma size_pop (s : gset string) (x : string) : x ∈ s -> size s = S (size (s ∖ {[ x ]})).
Proof.
  intros Hx. rewrite (size_difference s {[ x ]}) by set_solver.
  rewrite size_singleton. assert (size s <> 0); [|lia].
  apply size_non_empty_iff. set_solver.
Qed.

(** The loop of [removePods] on an open transaction. *)
Lemma removePods_loop_batches m current (n : nat) :
  forall (i q : nat) (preferred rest : gset string) txn w t,
  Cur m (at_ctx txn) w t -> alreadyCommitted t = false ->
  (i = 0 /\ q = 0 \/ 5 * q < i <= 5 * q + 5)%nat ->
  length (kvOps t) = (2 * (i - 5 * q))%nat ->
  match removePods_loop rc env current preferred rest n i txn w with
  | (r, txn', w') =>
      exists ops evs, step m w w' ops evs /\ txnsWithin 11 evs /\
        Forall (fun e => isAlert e = false) evs /\
        (r = None ->
         length (intentDeletes ops) = n /\
         exists t', Cur m (at_ctx txn') w' t' /\ alreadyCommitted t' = false /\
                    (length (kvOps t') <= 10)%nat) /\
        ((forall evs ops, accepts (txn_reply env (trace w ++ evs) ops)) ->
         ((n <= size preferred + size rest)%nat -> r = None) /\
         ((size preferred + size rest < n)%nat ->
          r = Some (Errorf (cannotUnschedule rc current)) /\
          length (intentDeletes ops) = (size preferred + size rest)%nat))
  end.
Proof.
  induction n as [|n IH]; intros i q preferred rest txn w t HC Hopen Hq Hlen;
    cbn [removePods_loop].
  { exists [], []. split; [apply step_refl|]. split; [constructor|].
    split; [constructor|]. split.
    - intros _. split; [done|]. exists t. split; [done|]. split; [done|]. lia.
    - intros _. split; [done|lia]. }
  pose proof (nextBatch_open rc env m i q txn w t HC Hopen Hq Hlen) as HB.
  destruct (nextBatch rc env i txn w) as [[err w1]|[txn1 w1]].
  { destruct HB as (ops & Hs & Hsz & Hrej).
    eexists _, [EvTxn ops]. split; [exact Hs|]. split; [by apply Forall_singleton|].
    split; [by apply Forall_singleton|]. split; [done|].
    intros Hstore. destruct Hrej. by apply accepts_now. }
  destruct HB as (q' & t1 & ops1 & evs1 & HC1 & Hopen1 & Hq' & Hlen1 & Hs1 & Ha1 & Hw1 & Hal1).
  pose proof (pops_spec (pick env (trace w1)) preferred rest) as HP.
  destruct (PopAny (pick env (trace w1)) preferred) as [[x1 ok1] preferred'].
  destruct (if ok1 then _ else _) as [[x ok] rest'].
  destruct ok; cbn [negb].
  - (* one more unscheduling *)
    destruct (unschedule_open m txn1 x w1 t1 HC1 Hopen1 ltac:(lia))
      as (txn2 & w2 & t2 & -> & Hctx & HC2 & Hopen2 & Hk2 & Hs2).
    rewrite <- Hctx in HC2.
    specialize (IH (S i) q' preferred' rest' txn2 w2 t2 HC2 Hopen2 ltac:(lia)).
    destruct (removePods_loop rc env current preferred' rest' n (S i) txn2 w2)
      as [[r txn3] w3].
    destruct IH as (ops3 & evs3 & Hs3 & Hw3 & Hal3 & Hnone & Hacc).
    { rewrite Hk2, length_app, Hlen1.
      change (length (unscheduleOps rc x)) with 2%nat. lia. }
    assert (intentDeletes (ops1 ++ unscheduleOps rc x ++ ops3)
            = x :: intentDeletes ops3) as Hd.
    { rewrite !intentDeletes_app, (auditOnly_intentDeletes _ Ha1). done. }
    assert (size preferred + size rest = S (size preferred' + size rest'))%nat as Hsize.
    { destruct HP as [(Hx & -> & ->)|(-> & -> & Hx & ->)].
      - rewrite (size_pop _ _ Hx). lia.
      - rewrite (size_pop _ _ Hx). lia. }
    eexists (ops1 ++ unscheduleOps rc x ++ ops3),
            (evs1 ++ [EvLog (LogUnscheduling x)] ++ evs3).
    split.
    { eapply step_trans; [exact Hs1|]. eapply step_trans; [exact Hs2|exact Hs3]. }
    split; [apply txnsWithin_app; [done|]; apply txnsWithin_app;
            [by apply Forall_singleton|done]|].
    split; [apply Forall_app; split; [done|]; apply Forall_app; split;
            [by apply Forall_singleton|done]|].
    rewrite Hd, Hsize. cbn [length]. split.
    + intros Hn. destruct (Hnone Hn) as (Hl & Ht'). split; [by rewrite Hl|done].
    + intros Hstore.
      destruct Hacc as [Hok Hfail].
      { destruct Hs2 as (_ & _ & ->). destruct Hs1 as (_ & _ & ->).
        intros evs ops. rewrite <- !app_assoc. apply Hstore. }
      split; [intros; apply Hok; lia|].
      intros Hn. destruct Hfail as [-> ->]; [lia|]. done.
  - (* nothing left to pop *)
    destruct HP as (-> & -> & _ & _).
    destruct (auditing_Commit_open rc env m txn1 w1 t1 HC1 Hopen1 ltac:(lia))
      as (w3 & t3 & -> & HC3 & Hs3).
    set (audit := OpAuditLog _ _ _) in *.
    assert (exists r,
      (match commitOutcome "could not schedule pods"
               (replyTuple (txn_reply env (trace w1) (kvOps t1 ++ [audit]))) with
       | Some err => (Some err, txn1, w3)
       | None => (Some (Errorf (cannotUnschedule rc current)), txn1, w3)
       end) = (Some r, txn1, w3) /\
      (accepts (txn_reply env (trace w1) (kvOps t1 ++ [audit])) ->
       r = Errorf (cannotUnschedule rc current))) as (r & -> & Hr).
    { destruct (commitOutcome _ _) as [e|] eqn:Hout.
      - exists e. split; [done|]. intros Hacc.
        by rewrite (commitOutcome_accepted _ _ Hacc) in Hout.
      - by eexists. }
    exists (ops1 ++ [audit]), (evs1 ++ [EvTxn (kvOps t1 ++ [audit])]).
    split; [by eapply step_trans|].
    split; [apply txnsWithin_app; [done|]; apply Forall_singleton;
            rewrite length_app; cbn; lia|].
    split; [apply Forall_app; split; [done|]; by apply Forall_singleton|].
    split; [done|].
    intros Hstore. rewrite size_empty. split; [lia|]. intros _.
    split.
    + f_equal. apply Hr. destruct Hs1 as (_ & _ & ->). apply Hstore.
    + rewrite intentDeletes_app, (auditOnly_intentDeletes _ Ha1). done.
Qed.

(** With more pods to remove than there are nodes to pop, the loop ends in
    an error, whatever the collaborators do. *)
Lemma removePods_loop_fails current (n : nat) :
  forall (i : nat) (preferred rest : gset string) txn w,
  (size preferred + size rest < n)%nat ->
  (removePods_loop rc env current preferred rest n i txn w).1.1 <> None.
Proof.
  induction n as [|n IH]; intros i preferred rest txn w Hn; [lia|].
  cbn [removePods_loop].
  destruct (nextBatch rc env i txn w) as [[err w1]|[txn1 w1]]; [done|].
  pose proof (pops_spec (pick env (trace w1)) preferred rest) as HP.
  destruct (PopAny (pick env (trace w1)) preferred) as [[x1 ok1] preferred'].
  destruct (if ok1 then _ else _) as [[x ok] rest'].
  destruct ok; cbn [negb].
  - destruct (unschedule rc txn1 x w1) as [[[e|] txn2] w2]; [done|].
    apply IH.
    destruct HP as [(Hx & -> & ->)|(-> & -> & Hx & ->)];
      rewrite (size_pop _ _ Hx) in Hn; lia.
  - destruct (auditing_Commit _ env txn1 w1) as [r w3].
    by destruct (commitOutcome _ r).
Qed.

(** The nodes whose intent the loop deletes are distinct nodes of the two
    sets. *)
Lemma removePods_loop_distinct m current (n : nat) :
  forall (i : nat) (preferred rest : gset string) txn w t,
  Cur m (at_ctx txn) w t -> preferred ## rest ->
  match removePods_loop rc env current preferred rest n i txn w with
  | (r, txn', w') =>
      exists t' ops evs, Cur m (at_ctx txn') w' t' /\ step m w w' ops evs /\
        NoDup (intentDeletes ops) /\
        (forall x, x ∈ intentDeletes ops -> x ∈ preferred ∪ rest)
  end.
Proof.
  induction n as [|n IH]; intros i preferred rest txn w t HC Hdisj;
    cbn [removePods_loop].
  { exists t, [], []. split; [done|]. split; [apply step_refl|].
    split; [constructor|]. by intros ? ?%elem_of_nil. }
  pose proof (nextBatch_Cur rc env m i txn w t HC) as HB.
  destruct (nextBatch rc env i txn w) as [[err w1]|[txn1 w1]].
  { destruct HB as (t1 & ops & evs & HC1 & Hs1 & Ha & _).
    exists t1, ops, evs. split; [done|]. split; [done|].
    rewrite (auditOnly_intentDeletes _ Ha).
    split; [constructor|]. by intros ? ?%elem_of_nil. }
  destruct HB as (t1 & ops1 & evs1 & HC1 & Hs1 & Ha1 & _).
  pose proof (pops_spec (pick env (trace w1)) preferred rest) as HP.
  destruct (PopAny (pick env (trace w1)) preferred) as [[x1 ok1] preferred'].
  destruct (if ok1 then _ else _) as [[x ok] rest'].
  destruct ok; cbn [negb].
  - destruct (unschedule rc txn1 x w1) as [[ru txn2] w2] eqn:EU.
    destruct (unschedule_Cur rc _ _ _ _ _ _ _ _ HC1 EU)
      as (Hctx & t2 & ops2 & HC2 & Hs2 & _ & Hr).
    rewrite <- Hctx in HC2.
    assert (x ∈ preferred ∪ rest /\ (x ∉ preferred' ∪ rest') /\
            preferred' ## rest' /\ (preferred' ∪ rest' ⊆ preferred ∪ rest))
      as (Hx & Hnx & Hdisj' & Hsub).
    { destruct HP as [(Hx & -> & ->)|(-> & -> & Hx & ->)].
      - split; [apply elem_of_union; by left|]. split; [|split].
        + intros [H|H]%elem_of_union; [|exact (Hdisj x Hx H)].
          apply elem_of_difference in H as [_ H]. by apply H, elem_of_singleton.
        + intros y [Hy _]%elem_of_difference Hy2. exact (Hdisj y Hy Hy2).
        + intros y [[Hy _]%elem_of_difference|Hy]%elem_of_union;
            apply elem_of_union; auto.
      - split; [apply elem_of_union; by right|]. split; [|split].
        + intros [H|H]%elem_of_union; [by apply not_elem_of_empty in H|].
          apply elem_of_difference in H as [_ H]. by apply H, elem_of_singleton.
        + intros y Hy. by apply not_elem_of_empty in Hy.
        + intros y [Hy|[Hy _]%elem_of_difference]%elem_of_union;
            apply elem_of_union; auto. }
    destruct ru as [e|].
    + exists t2, (ops1 ++ ops2), (evs1 ++ [EvLog (LogUnscheduling x)]).
      split; [done|]. split; [by eapply step_trans|].
      rewrite intentDeletes_app, (auditOnly_intentDeletes _ Ha1). cbn [app].
      destruct Hr as [(? & _)|(_ & [->| ->])]; [done|..]; cbn.
      * split; [constructor|]. by intros ? ?%elem_of_nil.
      * split; [apply NoDup_singleton|]. by intros ? ->%list_elem_of_singleton.
    + destruct Hr as [(_ & -> & _)|(? & _)]; [|done].
      specialize (IH (S i) preferred' rest' txn2 w2 t2 HC2 Hdisj').
      destruct (removePods_loop rc env current preferred' rest' n (S i) txn2 w2)
        as [[r txn3] w3].
      destruct IH as (t3 & ops3 & evs3 & HC3 & Hs3 & Hnd & Hin).
      exists t3, (ops1 ++ unscheduleOps rc x ++ ops3),
        (evs1 ++ [EvLog (LogUnscheduling x)] ++ evs3).
      split; [done|]. split.
      { eapply step_trans; [exact Hs1|]. eapply step_trans; [exact Hs2|exact Hs3]. }
      rewrite !intentDeletes_app, (auditOnly_intentDeletes _ Ha1). cbn [app].
      change (intentDeletes (unscheduleOps rc x)) with [x]. cbn [app].
      split.
      * constructor; [|done]. intros Hx'. apply Hnx. by apply Hin.
      * intros y [->|Hy]%elem_of_cons; [done|]. apply Hsub. by apply Hin.
  - destruct (auditing_Commit _ env txn1 w1) as [rc3 w3] eqn:EC.
    destruct (auditing_Commit_weak rc env _ _ _ _ _ _ HC1 EC)
      as (t3 & ops3 & evs3 & HC3 & Hs3 & Ha3 & _).
    assert (exists r, (match commitOutcome "could not schedule pods" rc3 with
                       | Some err => (Some err, txn1, w3)
                       | None => (Some (Errorf (cannotUnschedule rc current)), txn1, w3)
                       end) = (r, txn1, w3)) as (r & ->).
    { destruct (commitOutcome _ rc3); by eexists. }
    exists t3, (ops1 ++ ops3), (evs1 ++ evs3).
    split; [done|]. split; [by eapply step_trans|].
    rewrite intentDeletes_app, (auditOnly_intentDeletes _ Ha1),
      (auditOnly_intentDeletes _ Ha3).
    split; [constructor|]. by intros ? ?%elem_of_nil.
Qed.

End removePods_facts.

Section removePods_pass.
Import transaction.
Variable rc : fields.RC.
Variable env : Env.

Lemma step_unique m w w' ops ops' evs evs' :
  step m w w' ops evs -> step m w w' ops' evs' -> ops = ops' /\ evs = evs'.
Proof.
  intros (_ & Ho & He) (_ & Ho' & He'). rewrite Ho in Ho'. rewrite He in He'.
  by apply app_inv_head in Ho', He'.
Qed.

Lemma size_preferred_rest (c e : gset string) :
  (size (Difference c e) + size (Difference c (Difference c e)))%nat = size c.
Proof.
  unfold Difference. rewrite <- size_union.
  - f_equal. apply set_eq. intros x.
    rewrite elem_of_union, !elem_of_difference.
    destruct (decide (x ∈ e)); tauto.
  - intros x. rewrite !elem_of_difference. tauto.
Qed.

(** One pass of [removePods], seen from outside. *)
Lemma removePods_run (current : PodLocations) (eligible : list NodeName) (w : World) :
  let nodes := NewNodeSet (Nodes current) in
  let toUnschedule := Z.to_nat (Z.of_nat (length current) - fields.ReplicasDesired rc) in
  let r := removePods rc env current eligible w in
  let deleted := intentDeletes (opsFrom (length (txs w)) r.2) in
  exists evs, trace r.2 = trace w ++ evs /\ txnsWithin 11 evs /\
    Forall (fun e => isAlert e = false) evs /\
    NoDup deleted /\ (forall x, x ∈ deleted -> x ∈ Nodes current) /\
    (r.1 = None -> length deleted = toUnschedule) /\
    ((size nodes < toUnschedule)%nat -> r.1 <> None) /\
    ((forall evs ops, accepts (txn_reply env (trace w ++ evs) ops)) ->
     ((toUnschedule <= size nodes)%nat -> r.1 = None) /\
     ((size nodes < toUnschedule)%nat ->
      r.1 = Some (Errorf (cannotUnschedule rc current)) /\
      length deleted = size nodes)).
Proof.
  intros nodes n0. cbn zeta. unfold removePods.
  set (preferred := Difference (NewNodeSet (Nodes current)) (NewNodeSet eligible)).
  set (rest := Difference (NewNodeSet (Nodes current)) preferred).
  fold n0. set (w0 := logf _ w).
  assert (size preferred + size rest = size nodes)%nat as Hsize
    by apply size_preferred_rest.
  assert (preferred ## rest) as Hdisj.
  { intros x Hp. unfold rest, Difference. rewrite elem_of_difference. tauto. }
  assert (forall x, x ∈ preferred ∪ rest -> x ∈ Nodes current) as Hcur.
  { intros x [H|H]%elem_of_union; apply elem_of_difference in H as [H _];
      by apply elem_of_list_to_set in H. }
  destruct (newAuditingTransaction Background (Nodes current) w0) as [txn w1] eqn:EN.
  apply (newAuditingTransaction_Cur (length (txs w))) in EN as (HC1 & Hs1 & _); [|done].
  pose proof (removePods_loop_batches rc env _ current n0 0 0 preferred rest txn w1 _
                HC1 eq_refl ltac:(lia) eq_refl) as HL.
  pose proof (removePods_loop_distinct rc env _ current n0 0 preferred rest txn w1 _
                HC1 Hdisj) as HD.
  pose proof (removePods_loop_fails rc env current n0 0 preferred rest txn w1) as HF.
  destruct (removePods_loop rc env current preferred rest n0 0 txn w1)
    as [[r txn2] w2].
  destruct HL as (ops & evs & Hs2 & Hw & Hal & Hnone & Hacc).
  destruct HD as (_ & ops' & evs' & _ & Hs2' & Hnd & Hin).
  destruct (step_unique _ _ _ _ _ _ _ Hs2 Hs2') as [<- <-]. clear Hs2'.
  rewrite Hsize in Hacc, HF. cbn [fst] in HF.
  assert (trace w1 = trace w ++ [EvLog (LogNeedUnschedule
            (Z.of_nat (length current) - fields.ReplicasDesired rc) current)]) as Htr1.
  { destruct Hs1 as (_ & _ & ->). by rewrite app_nil_r. }
  pose proof (step_trans _ _ _ _ _ _ _ _ (emit_step (length (txs w)) _ w)
                (step_trans _ _ _ _ _ _ _ _ Hs1 Hs2)) as Hs.
  cbn [app] in Hs.
  destruct r as [e|].
  - (* the loop failed *)
    cbn [fst snd].
    apply (fun H => step_trans _ _ _ _ _ _ _ _ H (cancelFunc_step _ (at_ctx txn2) w2))
      in Hs.
    apply step_from_start in Hs as (-> & _ & ->). rewrite !app_nil_r.
    eexists. split; [done|].
    split; [by constructor|]. split; [by constructor|].
    split; [done|]. split; [auto|]. split; [done|]. split; [done|].
    intros Hstore. destruct Hacc as [Hok Hfail].
    { rewrite Htr1. intros evs0 ops0. rewrite <- app_assoc. apply Hstore. }
    split; [intros Hn; by specialize (Hok Hn)|done].
  - (* the last commit *)
    destruct (Hnone eq_refl) as (Hlen & t2 & HC2 & Hopen2 & Hlen2).
    destruct (auditing_Commit_open rc env _ txn2 w2 t2 HC2 Hopen2 ltac:(lia))
      as (w3 & t3 & -> & HC3 & Hs3).
    set (audit := OpAuditLog _ _ _) in *. cbn [fst snd].
    pose proof (step_trans _ _ _ _ _ _ _ _
                  (step_trans _ _ _ _ _ _ _ _ Hs Hs3)
                  (cancelFunc_step _ (at_ctx txn2) w3)) as Hs'.
    apply step_from_start in Hs' as (-> & _ & ->). rewrite !app_nil_r.
    rewrite intentDeletes_app. change (intentDeletes [audit]) with (@nil string).
    rewrite app_nil_r.
    eexists. split; [done|].
    split.
    { constructor; [done|]. apply txnsWithin_app; [done|].
      apply Forall_singleton. rewrite length_app. cbn. lia. }
    split.
    { constructor; [done|]. apply Forall_app. split; [done|]. by apply Forall_singleton. }
    split; [done|]. split; [auto|]. split; [done|].
    split; [intros Hn; by specialize (HF Hn)|].
    intros Hstore. destruct Hacc as [Hok Hfail].
    { rewrite Htr1. intros evs0 ops0. rewrite <- app_assoc. apply Hstore. }
    split.
    + intros _. apply commitOutcome_accepted.
      destruct Hs2 as (_ & _ & ->). rewrite Htr1, <- app_assoc. apply Hstore.
    + intros Hn. by destruct (Hfail Hn).
Qed.

(** X10. Every call to the store that a pass of [removePods] makes carries
    at most 11 operations: the two of each of up to five unschedulings, and
    the audit record; and the pass sends no alert, whatever happens. *)
Theorem removePods_batches_of_five (current : PodLocations) (eligible : list NodeName)
    (w : World) :
  exists evs, trace (removePods rc env current eligible w).2 = trace w ++ evs /\
              txnsWithin 11 evs /\ Forall (fun e => isAlert e = false) evs.
Proof.
  destruct (removePods_run current eligible w) as (evs & Htr & Hw & Hal & _).
  by exists evs.
Qed.


(** X12. When the pods to remove are no more than the distinct current
    nodes and the store takes every transaction, a pass of [removePods]
    returns [nil]. *)
Theorem removePods_succeeds (current : PodLocations) (eligible : list NodeName)
    (w : World) :
  (Z.to_nat (Z.of_nat (length current) - fields.ReplicasDesired rc)
   <= size (NewNodeSet (Nodes current)))%nat ->
  (forall evs ops, accepts (txn_reply env (trace w ++ evs) ops)) ->
  (removePods rc env current eligible w).1 = None.
Proof.
  intros Hn Hstore.
  destruct (removePods_run current eligible w) as (evs & _ & _ & _ & _ & _ & _ & _ & Hacc).
  by apply Hacc.
Qed.


End removePods_pass.

(** ** Consistency repair *)

Section ensureConsistency_facts.
Import transaction.
Variable rc : fields.RC.
Variable env : Env.

(** The batch step of [ensureConsistency] on a transaction that holds at
    most the [2 * (i - 5 * q)] operations of the iterations since the
    [q]-th commit. *)
Lemma nextContext_bounded m i q ctx w t :
  Cur m ctx w t ->
  (i = 0 /\ q = 0 \/ 5 * q < i <= 5 * q + 5)%nat ->
  (length (kvOps t) <= 2 * (i - 5 * q))%nat ->
  match nextContext env i ctx w with
  | inl (_, w') =>
      exists evs, trace w' = trace w ++ evs /\ txnsWithin 10 evs /\
                  Forall (fun e => isAlert e = false) evs
  | inr (ctx', w') =>
      exists q' t' evs, Cur m ctx' w' t' /\
        (5 * q' <= i < 5 * q' + 5)%nat /\
        (length (kvOps t') <= 2 * (i - 5 * q'))%nat /\
        trace w' = trace w ++ evs /\ txnsWithin 10 evs /\
        Forall (fun e => isAlert e = false) evs
  end.
Proof.
  intros HC Hq Hlen. unfold nextContext.
  destruct ((i `mod` 5 =? 0)%nat && (0 <? i)%nat) eqn:Hb.
  - pose proof (batch_due _ _ Hq Hb) as ->.
    destruct (transaction_Commit env ctx w) as [r w1] eqn:EC.
    assert (exists evs, trace w1 = trace w ++ evs /\ txnsWithin 10 evs /\
                        Forall (fun e => isAlert e = false) evs /\
                        exists t1, Cur m ctx w1 t1) as (evs & Htr & Hw & Hal & t1 & HC1).
    { destruct (transaction_Commit_Cur env _ _ _ _ _ _ HC EC)
        as [(_ & _ & ->)|(_ & HC' & [(_ & _ & (_ & _ & Htr))|(_ & _ & (_ & _ & Htr))])].
      - exists []. rewrite app_nil_r. split; [done|]. split; [constructor|].
        split; [constructor|]. by exists t.
      - exists []. split; [done|]. split; [constructor|]. split; [constructor|].
        by eexists.
      - eexists. split; [exact Htr|]. split; [apply Forall_singleton; lia|].
        split; [by apply Forall_singleton|]. by eexists. }
    destruct (commitOutcome _ r) as [err|]; [by exists evs|].
    destruct (transaction_New Background (cancelFunc ctx w1)) as [ctx' w'] eqn:EN.
    apply (transaction_New_Cur m) in EN as (HC' & (_ & _ & Htr')).
    + exists (q + 1)%nat, {| kvOps := []; alreadyCommitted := false |}, evs.
      split; [done|]. split; [lia|]. split; [cbn; lia|].
      split; [|done]. rewrite Htr', app_nil_r. by destruct ctx.
    + destruct ctx; cbn; by eapply Cur_length.
  - pose proof (batch_not_due _ _ Hq Hb).
    exists q, t, []. rewrite app_nil_r.
    split; [done|]. split; [done|]. split; [done|]. split; [done|].
    split; constructor.
Qed.

Lemma ensureConsistency_loop_batches m sha (pods : PodLocations) :
  forall (i q : nat) ctx w t,
  Cur m ctx w t ->
  (i = 0 /\ q = 0 \/ 5 * q < i <= 5 * q + 5)%nat ->
  (length (kvOps t) <= 2 * (i - 5 * q))%nat ->
  match ensureConsistency_loop rc env sha pods i ctx w with
  | (r, ctx', w') =>
      exists evs, trace w' = trace w ++ evs /\ txnsWithin 10 evs /\
        Forall (fun e => isAlert e = false) evs /\
        (r = None -> exists t', Cur m ctx' w' t' /\ (length (kvOps t') <= 10)%nat)
  end.
Proof.
  induction pods as [|pod pods IH]; intros i q ctx w t HC Hq Hlen;
    cbn [ensureConsistency_loop].
  { exists []. rewrite app_nil_r. split; [done|]. split; [constructor|].
    split; [constructor|]. intros _. exists t. split; [done|]. lia. }
  pose proof (nextContext_bounded m i q ctx w t HC Hq Hlen) as HB.
  destruct (nextContext env i ctx w) as [[err w1]|[ctx1 w1]].
  { destruct HB as (evs & Htr & Hw & Hal). by exists evs. }
  destruct HB as (q' & t1 & evs1 & HC1 & Hq' & Hlen1 & Htr1 & Hw1 & Hal1).
  unfold Pod.
  destruct (pod_reply env (trace w1) INTENT_TREE (Node pod) (PodID_ pod))
    as [intent err].
  set (w2 := emit (EvPod INTENT_TREE (Node pod) (PodID_ pod)) w1).
  assert (Cur m ctx1 w2 t1) as HC2 by done.
  assert (trace w2 = trace w ++ evs1 ++ [EvPod INTENT_TREE (Node pod) (PodID_ pod)])
    as Htr2.
  { unfold w2, emit. cbn [trace]. by rewrite Htr1, <- app_assoc. }
  assert (txnsWithin 10 (evs1 ++ [EvPod INTENT_TREE (Node pod) (PodID_ pod)]) /\
          Forall (fun e => isAlert e = false)
            (evs1 ++ [EvPod INTENT_TREE (Node pod) (PodID_ pod)])) as [Hw2 Hal2].
  { split; apply Forall_app; (split; [done|]); by apply Forall_singleton. }
  clearbody w2. clear Htr1 Hw1 Hal1.
  destruct (match err with
            | Some e => negb (isNoCurrentManifest e)
            | None => false
            end) eqn:Hret.
  { eexists. split; [exact Htr2|]. split; [done|]. split; [done|].
    intros ->. discriminate Hret. }
  (* what the rest of the iteration needs *)
  assert (forall w3 t3 evs3, Cur m ctx1 w3 t3 ->
            (length (kvOps t3) <= 2 * (S i - 5 * q'))%nat ->
            trace w3 = trace w ++ evs3 -> txnsWithin 10 evs3 ->
            Forall (fun e => isAlert e = false) evs3 ->
            match ensureConsistency_loop rc env sha pods (S i) ctx1 w3 with
            | (r, ctx', w') =>
                exists evs, trace w' = trace w ++ evs /\ txnsWithin 10 evs /\
                  Forall (fun e => isAlert e = false) evs /\
                  (r = None -> exists t', Cur m ctx' w' t' /\
                                          (length (kvOps t') <= 10)%nat)
            end) as Hnext.
  { intros w3 t3 evs3 HC3 Hlen3 Htr3 Hw3 Hal3.
    specialize (IH (S i) q' ctx1 w3 t3 HC3 ltac:(lia) Hlen3).
    destruct (ensureConsistency_loop rc env sha pods (S i) ctx1 w3) as [[r ctx6] w6].
    destruct IH as (evs6 & Htr6 & Hw6 & Hal6 & Hnone).
    exists (evs3 ++ evs6). split; [by rewrite Htr6, Htr3, <- app_assoc|].
    split; [by apply txnsWithin_app|]. split; [by apply Forall_app|]. done. }
  assert (forall w3 evs3 intentSHA, Cur m ctx1 w3 t1 ->
            trace w3 = trace w ++ evs3 -> txnsWithin 10 evs3 ->
            Forall (fun e => isAlert e = false) evs3 ->
            match
              (let (o, w5) := scheduleNoAudit rc ctx1 (Node pod)
                                (logf (LogInconsistency (Node pod) intentSHA) w3) in
               match o with
               | Some err0 => (Some err0, ctx1, cancelFunc ctx1 w5)
               | None => ensureConsistency_loop rc env sha pods (S i) ctx1 w5
               end)
            with
            | (r, ctx', w') =>
                exists evs, trace w' = trace w ++ evs /\ txnsWithin 10 evs /\
                  Forall (fun e => isAlert e = false) evs /\
                  (r = None -> exists t', Cur m ctx' w' t' /\
                                          (length (kvOps t') <= 10)%nat)
            end) as Hwrite.
  { intros w3 evs3 intentSHA HC3 Htr3 Hw3 Hal3.
    set (w4 := logf _ w3).
    destruct (scheduleNoAudit rc ctx1 (Node pod) w4) as [rs w5] eqn:ES.
    assert (Cur m ctx1 w4 t1) as HC4 by done.
    destruct (scheduleNoAudit_Cur rc _ _ _ _ _ _ _ HC4 ES)
      as (t5 & ops5 & HC5 & (_ & _ & Htr5) & Hk5 & Hr & _).
    assert (trace w5 = trace w ++ evs3 ++ [EvLog (LogInconsistency (Node pod) intentSHA);
                                           EvLog (LogScheduling (Node pod))]) as Htr5'.
    { rewrite Htr5. unfold w4, logf, emit. cbn [trace].
      rewrite Htr3, <- !app_assoc. done. }
    assert (txnsWithin 10 (evs3 ++ [EvLog (LogInconsistency (Node pod) intentSHA);
                                    EvLog (LogScheduling (Node pod))]) /\
            Forall (fun e => isAlert e = false)
              (evs3 ++ [EvLog (LogInconsistency (Node pod) intentSHA);
                        EvLog (LogScheduling (Node pod))])) as [Hw5 Hal5].
    { split; apply Forall_app; (split; [done|]); by repeat constructor. }
    destruct rs as [e|].
    + eexists. split; [by destruct ctx1; exact Htr5'|]. done.
    + destruct Hr as [(_ & -> & _)|(? & _)]; [|done].
      eapply (Hnext w5 t5 _ HC5); [|exact Htr5'|done|done].
      rewrite Hk5, length_app. change (length (scheduleOps rc (Node pod))) with 2%nat.
      lia. }
  destruct intent as [m0|]; [|by eapply Hwrite].
  destruct (manifest.SHA m0) as [intentSHA herr].
  assert (exists w3 evs3, (match herr with
                           | Some e => logf (LogCouldNotHash (Node pod) e) w2
                           | None => w2
                           end) = w3 /\ Cur m ctx1 w3 t1 /\
                          trace w3 = trace w ++ evs3 /\ txnsWithin 10 evs3 /\
                          Forall (fun e => isAlert e = false) evs3)
    as (w3 & evs3 & -> & HC3 & Htr3 & Hw3 & Hal3).
  { destruct herr as [e|].
    - eexists _, _. split; [done|]. split; [done|].
      split; [unfold logf, emit; cbn [trace]; by rewrite Htr2, <- app_assoc|].
      split; apply Forall_app; (split; [done|]); by apply Forall_singleton.
    - by eexists _, _. }
  destruct (String.eqb intentSHA sha).
  - eapply (Hnext w3 t1 _ HC3); [lia|exact Htr3|done|done].
  - by eapply Hwrite.
Qed.

(** X14. Every call to the store that [ensureConsistency] makes carries at
    most 10 operations, the two of each of up to five repairs, and the
    function sends no alert. *)
Theorem ensureConsistency_batches_of_five (current : PodLocations) (w : World) :
  exists evs, trace (ensureConsistency rc env current w).2 = trace w ++ evs /\
              txnsWithin 10 evs /\ Forall (fun e => isAlert e = false) evs.
Proof.
  unfold ensureConsistency.
  destruct (manifest.SHA (fields.Manifest rc)) as [sha [e|]].
  { exists []. rewrite app_nil_r. split; [done|]. split; constructor. }
  destruct (transaction_New Background w) as [ctx w1] eqn:EN.
  apply (transaction_New_Cur 0) in EN as (HC1 & (_ & _ & Htr1)); [|lia].
  rewrite app_nil_r in Htr1.
  pose proof (ensureConsistency_loop_batches 0 sha current 0 0 ctx w1 _ HC1
                ltac:(lia) ltac:(cbn; lia)) as HL.
  destruct (ensureConsistency_loop rc env sha current 0 ctx w1) as [[r ctx2] w2].
  destruct HL as (evs & Htr & Hw & Hal & Hnone). rewrite Htr1 in Htr.
  destruct r as [e|]; cbn [snd].
  - exists evs. split; [by destruct ctx2|done].
  - destruct (Hnone eq_refl) as (t2 & HC2 & Hlen2).
    destruct (transaction_Commit env ctx2 w2) as [r3 w3] eqn:EC. cbn [snd].
    assert (trace (cancelFunc ctx2 w3) = trace w3) as -> by by destruct ctx2.
    destruct (transaction_Commit_Cur env _ _ _ _ _ _ HC2 EC)
      as [(_ & _ & ->)|(_ & _ & [(_ & _ & (_ & _ & Htr3))|(_ & _ & (_ & _ & Htr3))])].
    + by exists evs.
    + exists evs. rewrite Htr3, app_nil_r. done.
    + exists (evs ++ [EvTxn (kvOps t2)]). rewrite Htr3, Htr, <- app_assoc.
      split; [done|].
      split; apply Forall_app; (split; [done|]); by apply Forall_singleton.
Qed.

End ensureConsistency_facts.

(** ** A converged controller *)

Section converged.
Import transaction.
Variable rc : fields.RC.
Variable env : Env.

Lemma nextContext_empty m i ctx w t :
  Cur m ctx w t -> alreadyCommitted t = false -> kvOps t = [] ->
  exists ctx' w' t', nextContext env i ctx w = inr (ctx', w') /\
    Cur m ctx' w' t' /\ alreadyCommitted t' = false /\ kvOps t' = [] /\
    step m w w' [] [].
Proof.
  intros HC Hopen Hempty. unfold nextContext.
  destruct ((i `mod` 5 =? 0)%nat && (0 <? i)%nat).
  - destruct (transaction_Commit env ctx w) as [r w1] eqn:EC.
    destruct (transaction_Commit_Cur env _ _ _ _ _ _ HC EC)
      as [(? & _)|(_ & HC1 & [(_ & -> & Hs1)|(? & _)])]; [congruence| |done].
    cbn [commitOutcome].
    destruct (transaction_New Background (cancelFunc ctx w1)) as [ctx' w'] eqn:EN.
    apply (transaction_New_Cur m) in EN as (HC' & Hs').
    + eexists ctx', w', _. split; [done|]. split; [exact HC'|].
      split; [done|]. split; [done|].
      apply (step_trans _ _ _ _ _ _ _ _ Hs1
               (step_trans _ _ _ _ _ _ _ _ (cancelFunc_step _ ctx w1) Hs')).
    + destruct ctx; cbn; by eapply Cur_length.
  - exists ctx, w, t. split; [done|]. split; [done|]. split; [done|].
    split; [done|]. apply step_refl.
Qed.

(** The loop of [ensureConsistency] over placements whose stored intent is
    the RC's manifest: nothing is written. *)
Lemma ensureConsistency_loop_settled m
    (stored : NodeName -> PodID -> option manifest.Manifest * option error)
    (pods : PodLocations) :
  (forall tr node pod, pod_reply env tr INTENT_TREE node pod = stored node pod) ->
  (forall pod, pod ∈ pods ->
     stale rc stored pod = false /\ (stored (Node pod) (PodID_ pod)).2 = None) ->
  forall (i : nat) ctx w t,
  Cur m ctx w t -> alreadyCommitted t = false -> kvOps t = [] ->
  match ensureConsistency_loop rc env (manifest.SHA (fields.Manifest rc)).1
          pods i ctx w with
  | (r, ctx', w') =>
      r = None /\
      exists t' evs, Cur m ctx' w' t' /\ alreadyCommitted t' = false /\
        kvOps t' = [] /\ step m w w' [] evs /\ Forall (fun e => quiet e = true) evs
  end.
Proof.
  intros Hstored.
  induction pods as [|pod pods IH]; intros Hsettled i ctx w t HC Hopen Hempty;
    cbn [ensureConsistency_loop].
  { split; [done|]. exists t, []. split; [done|]. split; [done|]. split; [done|].
    split; [apply step_refl|constructor]. }
  destruct (nextContext_empty m i ctx w t HC Hopen Hempty)
    as (ctx1 & w1 & t1 & -> & HC1 & Hopen1 & Hempty1 & Hs1).
  unfold Pod. rewrite Hstored.
  destruct (Hsettled pod ltac:(by left)) as [Hfresh Hnoerr].
  unfold stale in Hfresh.
  destruct (stored (Node pod) (PodID_ pod)) as [[m0|] err]; [|done].
  cbn [fst snd] in *. subst err.
  apply negb_false_iff in Hfresh.
  destruct (manifest.SHA m0) as [intentSHA herr]. cbn [fst] in Hfresh.
  rewrite Hfresh.
  set (w2 := emit (EvPod INTENT_TREE (Node pod) (PodID_ pod)) w1).
  assert (exists w3 evs3, (match herr with
                           | Some e => logf (LogCouldNotHash (Node pod) e) w2
                           | None => w2
                           end) = w3 /\ Cur m ctx1 w3 t1 /\ step m w w3 [] evs3 /\
                          Forall (fun e => quiet e = true) evs3)
    as (w3 & evs3 & -> & HC3 & Hs3 & Hq3).
  { destruct herr as [e|].
    - exists (logf (LogCouldNotHash (Node pod) e) w2),
        [EvPod INTENT_TREE (Node pod) (PodID_ pod); EvLog (LogCouldNotHash (Node pod) e)].
      split; [done|]. split; [done|]. split.
      + apply (step_trans _ _ _ _ [] [] [] [_; _] Hs1).
        apply (step_trans _ _ _ _ [] [] [_] [_] (emit_step m _ w1) (emit_step m _ w2)).
      + by repeat constructor.
    - exists w2, [EvPod INTENT_TREE (Node pod) (PodID_ pod)].
      split; [done|]. split; [done|]. split.
      + apply (step_trans _ _ _ _ [] [] [] [_] Hs1 (emit_step m _ w1)).
      + by repeat constructor. }
  specialize (IH ltac:(intros p Hp; apply Hsettled; by right) (S i) ctx1 w3 t1
                HC3 Hopen1 Hempty1).
  destruct (ensureConsistency_loop rc env _ pods (S i) ctx1 w3) as [[r ctx6] w6].
  destruct IH as (-> & t6 & evs6 & HC6 & Hopen6 & Hempty6 & Hs6 & Hq6).
  split; [done|]. exists t6, (evs3 ++ evs6). split; [done|]. split; [done|].
  split; [done|]. split.
  - apply (step_trans _ _ _ _ [] [] _ _ Hs3 Hs6).
  - by apply Forall_app.
Qed.

Lemma locations_inl (l : PodLocations) : locations (map inl l) = (l, None).
Proof. induction l as [|x l IH]; [done|]. cbn. by rewrite IH. Qed.

Lemma checkForIneligible_none (current : PodLocations) (eligible : list NodeName) :
  (forall n, n ∈ Nodes current -> n ∈ eligible) ->
  checkForIneligible current eligible = [].
Proof.
  intros H. unfold checkForIneligible.
  induction (Nodes current) as [|x l IH]; [done|].
  rewrite filter_cons. destruct (decide (x ∉ eligible)) as [Hx|_].
  - destruct Hx. apply H. by left.
  - apply IH. intros n Hn. apply H. by right.
Qed.

(** X15. A pass over a converged RC is silent. When the RC is enabled, has
    as many pods as desired, all of them on eligible nodes, and the intent
    stored for each is the RC's manifest, [meetDesires] returns [nil], adds
    no operation to any transaction, and does nothing but read and log: no
    call to the store, no alert, no allocation or deallocation. *)
Theorem meetDesires_converged_is_silent
    (current : PodLocations) (eligible : list NodeName)
    (stored : NodeName -> PodID -> option manifest.Manifest * option error)
    (w : World) :
  fields.Disabled rc = false ->
  (manifest.SHA (fields.Manifest rc)).2 = None ->
  (forall tr selector, matches_reply env tr selector = (map inl current, None)) ->
  (forall tr, eligible_reply env tr = (eligible, None)) ->
  (forall tr node pod, pod_reply env tr INTENT_TREE node pod = stored node pod) ->
  Z.of_nat (length current) = fields.ReplicasDesired rc ->
  (forall n, n ∈ Nodes current -> n ∈ eligible) ->
  (forall pod, pod ∈ current ->
     stale rc stored pod = false /\ (stored (Node pod) (PodID_ pod)).2 = None) ->
  let r := meetDesires rc env w in
  r.1 = None /\
  opsFrom (length (txs w)) r.2 = [] /\
  exists evs, trace r.2 = trace w ++ evs /\ Forall (fun e => quiet e = true) evs.
Proof.
  intros Hen Hsha Hmatches Heligible Hstored Hcount Hall Hsettled. cbn zeta.
  unfold meetDesires. rewrite Hen.
  set (w0 := logf _ w).
  unfold CurrentPods. rewrite Hmatches, locations_inl.
  set (w1 := emit (EvGetMatches _) w0).
  unfold eligibleNodes. rewrite Heligible.
  set (w2 := emit EvEligibleNodes w1).
  rewrite Hcount, Z.ltb_irrefl.
  rewrite (checkForIneligible_none _ _ Hall). cbn [length Nat.ltb Nat.leb].
  set (w3 := logf LogTakingNoAction (logf (LogCurrentlyOn current) w2)).
  assert (step (length (txs w)) w w3 []
            [EvLog (LogHandlingUpdate (fields.ReplicasDesired rc) false);
             EvGetMatches (RCIDLabel +:+ "=" +:+ fields.ID rc);
             EvEligibleNodes; EvLog (LogCurrentlyOn current);
             EvLog LogTakingNoAction]) as Hs3.
  { apply (step_trans _ _ w0 _ [] [] [_] [_; _; _; _]); [apply emit_step|].
    apply (step_trans _ _ w1 _ [] [] [_] [_; _; _]); [apply emit_step|].
    apply (step_trans _ _ w2 _ [] [] [_] [_; _]); [apply emit_step|].
    apply (step_trans _ _ (logf (LogCurrentlyOn current) w2) _ [] [] [_] [_]);
      apply emit_step. }
  clearbody w3.
  unfold ensureConsistency.
  pose proof (ensureConsistency_loop_settled (length (txs w)) stored current
                Hstored Hsettled) as HL.
  destruct (manifest.SHA (fields.Manifest rc)) as [sha serr]. cbn [fst snd] in *.
  subst serr.
  destruct (transaction_New Background w3) as [ctx w4] eqn:EN.
  apply (transaction_New_Cur (length (txs w))) in EN as (HC4 & Hs4).
  2:{ destruct Hs3 as (Ht & _ & _). rewrite firstn_all in Ht.
      rewrite <- Ht at 1. rewrite length_take. lia. }
  specialize (HL 0%nat ctx w4 _ HC4 eq_refl eq_refl).
  destruct (ensureConsistency_loop rc env sha current 0 ctx w4) as [[r ctx5] w5].
  destruct HL as (-> & t5 & evs5 & HC5 & Hopen5 & Hempty5 & Hs5 & Hq5).
  destruct (transaction_Commit env ctx5 w5) as [r6 w6] eqn:EC.
  destruct (transaction_Commit_Cur env _ _ _ _ _ _ HC5 EC)
    as [(? & _)|(_ & HC6 & [(_ & -> & Hs6)|(? & _)])]; [congruence| |done].
  cbn [fst snd commitOutcome].
  pose proof (step_trans _ _ _ _ _ _ _ _ Hs3
               (step_trans _ _ _ _ _ _ _ _ Hs4
                 (step_trans _ _ _ _ _ _ _ _ Hs5
                   (step_trans _ _ _ _ _ _ _ _ Hs6
                      (cancelFunc_step _ ctx5 w6))))) as Hs.
  apply step_from_start in Hs as (-> & _ & ->).
  split; [done|]. split; [done|]. eexists. split; [done|].
  cbn [app]. rewrite !app_nil_r. by repeat constructor.
Qed.

End converged.

(** ** Placements *)

Section placement_facts.
Import transaction.
Variable rc : fields.RC.
Variable env : Env.

(** X16. [checkForIneligible] returns the nodes of the current pods that
    are not among the eligible ones, in the order of the current pods; as a
    set they are the nodes [removePods] prefers to unschedule, and there is
    none exactly when every current node is eligible. *)
Theorem checkForIneligible_spec (current : PodLocations) (eligible : list NodeName) :
  let ineligible := checkForIneligible current eligible in
  (forall n, n ∈ ineligible <-> n ∈ Nodes current /\ n ∉ eligible) /\
  ineligible `sublist_of` Nodes current /\
  list_to_set ineligible
    = Difference (NewNodeSet (Nodes current)) (NewNodeSet eligible) /\
  ((0 <? length ineligible)%nat = false <->
   forall n, n ∈ Nodes current -> n ∈ eligible).
Proof.
  cbn zeta. unfold checkForIneligible.
  assert (forall n, n ∈ filter (fun node => node ∉ eligible) (Nodes current)
                    <-> n ∈ Nodes current /\ n ∉ eligible) as Hin.
  { intros n. rewrite list_elem_of_filter. tauto. }
  split; [done|]. split; [apply sublist_filter|]. split.
  - apply set_eq. intros n. unfold Difference, NewNodeSet.
    rewrite elem_of_difference, !elem_of_list_to_set. apply Hin.
  - split.
    + intros Hlen n Hn. destruct (decide (n ∈ eligible)) as [|Hne]; [done|].
      apply Nat.ltb_ge in Hlen.
      assert (n ∈ filter (fun node => node ∉ eligible) (Nodes current)) as Hf
        by by apply Hin.
      destruct (filter _ _); [by apply elem_of_nil in Hf|cbn in Hlen; lia].
    + intros Hall. apply Nat.ltb_ge.
      destruct (filter _ _) as [|x l]; [done|].
      destruct (proj1 (Hin x) ltac:(by left)) as [Hx Hne].
      destruct Hne. by apply Hall.
Qed.

(** X17. Through a fresh auditing transaction, [schedule] of a node followed
    by [unschedule] of the same node both succeed and add four operations:
    a label write and an intent write, then the deletion of that intent and
    the removal, under the same label key, of exactly the labels that were
    written. The node is not in the transaction's node-set afterwards. *)
Theorem unschedule_undoes_schedule (nodes : list NodeName) (node : NodeName) (w : World) :
  let '(txn, w1) := newAuditingTransaction Background nodes w in
  let '(r1, txn1, w2) := schedule rc txn node w1 in
  let '(r2, txn2, w3) := unschedule rc txn1 node w2 in
  r1 = None /\ r2 = None /\
  at_nodes txn2 = list_to_set nodes ∖ {[ node ]} /\
  exists key lbls keys,
    opsFrom (length (txs w)) w3
    = [ OpSetLabels key lbls;
        OpSetPod INTENT_TREE node (fields.Manifest rc);
        OpDeletePod INTENT_TREE node (manifest.ID (fields.Manifest rc));
        OpRemoveLabels key keys ] /\
    NoDup keys /\ forall k, k ∈ keys <-> is_Some (lbls !! k).
Proof.
  destruct (newAuditingTransaction Background nodes w) as [txn w1] eqn:EN.
  pose proof EN as EN'.
  apply (newAuditingTransaction_Cur (length (txs w))) in EN' as (HC1 & Hs1 & _); [|done].
  assert (at_nodes txn = list_to_set nodes) as Hnodes.
  { unfold newAuditingTransaction in EN.
    destruct (transaction_New Background w). by injection EN as <- _. }
  destruct (schedule rc txn node w1) as [[r1 txn1] w2] eqn:ES.
  destruct (schedule_Cur rc _ _ _ _ _ _ _ _ HC1 ES)
    as (Hctx & t2 & ops2 & HC2 & Hs2 & Hk2 & Hr & Hok).
  specialize (Hok eq_refl ltac:(cbn; lia)). subst r1.
  destruct Hr as [(_ & -> & Hopen2)|(? & _)]; [|done].
  assert (at_nodes txn1 = {[ node ]} ∪ list_to_set nodes) as Hnodes1.
  { unfold schedule in ES.
    destruct (scheduleNoAudit rc (Context_ txn) node w1) as [[e|] w']; [done|].
    injection ES as <- _. cbn. by rewrite Hnodes. }
  rewrite <- Hctx in HC2.
  destruct (unschedule_open rc _ txn1 node w2 t2 HC2 Hopen2)
    as (txn2 & w3 & t3 & EU & _ & _ & _ & _ & Hs3).
  { rewrite Hk2. cbn. lia. }
  rewrite EU. split; [done|]. split; [done|]. split.
  { unfold unschedule in EU.
    destruct (DeletePodTxn _ _ _ _ _) as [[e|] w']; [done|].
    destruct (RemoveLabelsTxn _ _ _ _) as [[e|] w'']; [done|].
    injection EU as <- _. cbn. rewrite Hnodes1. apply set_eq. intros x.
    rewrite !elem_of_difference, elem_of_union. tauto. }
  pose proof (step_trans _ _ _ _ _ _ _ _ Hs1 (step_trans _ _ _ _ _ _ _ _ Hs2 Hs3)) as Hs.
  apply step_from_start in Hs as (-> & _ & _).
  eexists _, _, _. split; [done|]. split.
  - apply NoDup_fst_map_to_list.
  - intros k. rewrite list_elem_of_fmap. split.
    + intros ([k' v] & -> & Hkv%elem_of_map_to_list). by exists v.
    + intros [v Hv]. exists (k, v). split; [done|]. by apply elem_of_map_to_list.
Qed.

(** X18. [CurrentPods] makes one query for the pods that carry the RC's ID
    label and returns all of them or none: without error, the locations of
    all the matches in the order of the answer; with an error (of the query,
    or of the first match that does not parse), no location at all. *)
Theorem CurrentPods_all_or_nothing (w : World) :
  let selector := RCIDLabel +:+ "=" +:+ fields.ID rc in
  let '((current, err), w') := CurrentPods rc env w in
  w' = emit (EvGetMatches selector) w /\
  match err with
  | None => matches_reply env (trace w) selector = (map inl current, None)
  | Some e =>
      current = [] /\
      ((matches_reply env (trace w) selector).2 = Some e \/
       exists before rest,
         (matches_reply env (trace w) selector).1
         = map inl before ++ inr e :: rest)
  end.
Proof.
  cbn zeta. unfold CurrentPods.
  destruct (matches_reply env (trace w) _) as [ms [e|]].
  { split; [done|]. split; [done|]. by left. }
  assert (match locations ms with
          | (current, None) => ms = map inl current
          | (current, Some e) =>
              current = [] /\ exists before rest, ms = map inl before ++ inr e :: rest
          end) as H.
  { induction ms as [|[l|e] ms IH]; cbn.
    - done.
    - destruct (locations ms) as [ls [e|]].
      + destruct IH as (_ & before & rest & ->). split; [done|].
        by exists (l :: before), rest.
      + by rewrite IH.
    - split; [done|]. by exists [], ms. }
  destruct (locations ms) as [current [e|]].
  - destruct H as [-> H]. split; [done|]. split; [done|]. by right.
  - by rewrite H.
Qed.

End placement_facts.

(** ** Concrete runs of the further properties *)

(** A cattle "rc1" with its pod on the ineligible n1: the scheduler gives
    n9, and the transfer from n1 to n9 is recorded. *)
Lemma updateAllocations_records_transfer_witness :
  let rc := fleet.rc1 1 false fields.CattleStrategy in
  let env := fleet.env1 ["n1"] ["n2"] fleet.consistent fleet.noStatus in
  exists oldNode rest,
    ["n1"] = oldNode :: rest /\
    opsFrom 0 (updateAllocations rc env ["n1"] fleet.start).2
    = [ OpCASStatus "rc1" 0
          {| rcstatus.NodeTransfer_ :=
               Some {| rcstatus.OldNode := oldNode; rcstatus.NewNode := "n9" |} |} ].
Proof.
  intros rc env.
  pose proof (updateAllocations_records_transfer rc env ["n1"] fleet.start
                (updateAllocations rc env ["n1"] fleet.start).2 "n9") as H.
  destruct H as (oldNode & rest & Heq & H).
  { vm_compute. reflexivity. }
  cbv zeta in H. destruct H as (_ & Hops & _).
  exists oldNode, rest. split; [exact Heq|exact Hops].
Defined.

(** With the transfer from n1 to n9 under way, [transferNodes] only reads
    the status. *)
Lemma transferNodes_waits_for_transfer_witness :
  let rc := fleet.rc1 1 false fields.CattleStrategy in
  let env := fleet.env1 ["n1"] ["n2"] fleet.consistent fleet.transferring in
  transferNodes rc env ["n1"] fleet.start
  = (None, emit (EvStatusGet "rc1") fleet.start).
Proof.
  intros rc env.
  apply (transferNodes_waits_for_transfer rc env ["n1"] fleet.start
           fleet.transferring.1 None).
  - reflexivity.
  - intros e. discriminate.
  - by eexists.
Defined.


(** Scaling "rc1" up from n1 to three replicas with n1, n2 and n3 eligible:
    the pass succeeds. *)
Lemma addPods_succeeds_witness :
  let rc := fleet.rc1 3 false fields.CattleStrategy in
  let eligible := ["n1"; "n2"; "n3"] in
  let env := fleet.env1 ["n1"] eligible fleet.consistent fleet.noStatus in
  (addPods rc env (fleet.on ["n1"]) eligible fleet.start).1 = None.
Proof.
  intros rc eligible env.
  destruct (addPods_succeeds rc env (fleet.on ["n1"]) eligible fleet.start)
    as (Hr & _).
  - vm_compute. lia.
  - intros evs ops. split; reflexivity.
  - exact Hr.
Defined.

(** Scaling "rc1" down from n1, n2, n3 to one replica: the pass succeeds. *)
Lemma removePods_succeeds_witness :
  let rc := fleet.rc1 1 false fields.CattleStrategy in
  let current := ["n1"; "n2"; "n3"] in
  let env := fleet.env1 current ["n2"; "n3"] fleet.consistent fleet.noStatus in
  (removePods rc env (fleet.on current) ["n2"; "n3"] fleet.start).1 = None.
Proof.
  intros rc current env.
  apply (removePods_succeeds rc env (fleet.on current) ["n2"; "n3"] fleet.start).
  - vm_compute. lia.
  - intros evs ops. split; reflexivity.
Defined.


(** "rc1" with one replica desired, its pod on the eligible n1 with the
    intent up to date: the pass is silent. *)
Lemma meetDesires_converged_is_silent_witness :
  let rc := fleet.rc1 1 false fields.CattleStrategy in
  let env := fleet.env1 ["n1"] ["n1"] fleet.consistent fleet.noStatus in
  let r := meetDesires rc env fleet.start in
  r.1 = None /\ opsFrom 0 r.2 = [] /\
  exists evs, trace r.2 = trace fleet.start ++ evs /\
              Forall (fun e => quiet e = true) evs.
Proof.
  intros rc env.
  apply (meetDesires_converged_is_silent rc env (fleet.on ["n1"]) ["n1"]
           (fun node _ => fleet.consistent node) fleet.start).
  - reflexivity.
  - reflexivity.
  - intros tr selector. reflexivity.
  - intros tr. reflexivity.
  - intros tr node pod. reflexivity.
  - reflexivity.
  - intros n Hn. exact Hn.
  - intros pod _. split; reflexivity.
Defined.
